(** * GraphWatcher: the build-pipeline coordinator

    A shallow embedding of the development-time watcher script (the
    Watchman / GraphQL-schema / relay-compiler coordinator) and the
    properties its specification states about it.

    The script is callback- and promise-driven.  It is embedded as a tree
    of effects ([Prog]): every interaction with the outside world (the
    logger, the Watchman client, [fetch], [writeFile], [exec],
    [process.exit]) is a node, and the code that runs once the outside
    world has answered is the continuation under that node.  An
    interpreter ([run]) executes such a tree against an environment that
    supplies the answers, and records what happened in a [World].

    Conventions of the embedding:
    - an awaited promise is a node whose continuation is the rest of the
      async function; a rejection is [Throw], and [try_catch] is the
      [try]/[catch] around awaited calls;
    - the callback handed to [client.command] is the continuation of the
      [Command] node; an exception thrown inside it escapes to the event
      loop and ends the task as [Uncaught];
    - [run] follows one task to its end, every answer it waits for
      coming in at once and nothing else happening in between;
    - a call of an async function that is not awaited is a [Spawn] node:
      the callee runs up to its first wait ([start]), the caller goes
      on, and what remains of the callee is parked in the world
      ([pending]) for the event loop to resume;
    - the logger, the Watchman client, [fetch], [writeFile], [exec] and
      Node's [path] are libraries outside the script: calls to them are
      observed, their answers come from the environment. *)

From Stdlib Require Import List String Ascii ZArith Bool Lia Arith Eqdep_dec.
From Stdlib Require Import DecimalString DecimalN DecimalPos DecimalFacts.
Import ListNotations.
Local Open Scope string_scope.
Local Open Scope Z_scope.
Local Open Scope list_scope.

Set Implicit Arguments.

(** ** JavaScript values *)

(** The numbers of the model are the safe integers: the integers between
    [-MAX_SAFE_INTEGER] and [MAX_SAFE_INTEGER], which a JavaScript number
    holds exactly and prints digit by digit.  Fractions, larger
    magnitudes, [-0], [NaN] and the infinities cannot be written. *)
Definition MAX_SAFE_INTEGER : Z := 9007199254740991.

Definition safe_integer (n : Z) : bool := Z.abs n <=? MAX_SAFE_INTEGER.

Record number : Type := Number {
  int_of : Z;
  is_safe : safe_integer int_of = true
}.

(** The values exchanged with Watchman and with the GraphQL endpoint are
    plain data.  Objects keep their properties in enumeration order;
    characters are code units below 256. *)
Unset Elimination Schemes.
Inductive jsval : Type :=
| VUndef
| VNull
| VBool (b : bool)
| VNum (n : number)
| VStr (s : string)
| VArr (items : list jsval)
| VObj (props : list (string * jsval)).
Set Elimination Schemes.

(** JavaScript truthiness, as used by [if (errors)]. *)
Definition truthy (v : jsval) : bool :=
  match v with
  | VUndef | VNull => false
  | VBool b => b
  | VNum n => negb (int_of n =? 0)
  | VStr s => negb (String.eqb s EmptyString)
  | VArr _ | VObj _ => true
  end.

Fixpoint lookup (k : string) (props : list (string * jsval)) : jsval :=
  match props with
  | [] => VUndef
  | (k', v) :: rest => if String.eqb k k' then v else lookup k rest
  end.

(** Thrown values. *)
Inductive exit_code : Type :=
| ExitStatus (n : Z)
| ExitNull
| ExitName (s : string).

Record exec_error : Type := ExecError {
  code : exit_code;
  stdout : string;
  stderr : string
}.

Inductive exn : Type :=
| TypeError (what : string)
| Error (message : string)
| ExecRejection (e : exec_error)
| ServiceError (message : string).

(** [v.k] and the destructuring pattern [{ k: x } = v]: both throw a
    [TypeError] on [undefined] and [null]; primitives and arrays have
    none of the properties this script reads. *)
Definition prop (k : string) (v : jsval) : exn + jsval :=
  match v with
  | VUndef | VNull => inl (TypeError k)
  | VObj props => inr (lookup k props)
  | _ => inr VUndef
  end.

(** [k in v]: throws unless [v] is an object (arrays included). *)
Fixpoint has_key (k : string) (props : list (string * jsval)) : bool :=
  match props with
  | [] => false
  | (k', _) :: rest => String.eqb k k' || has_key k rest
  end.

Definition prop_in (k : string) (v : jsval) : exn + bool :=
  match v with
  | VObj props => inr (has_key k props)
  | VArr _ => inr false
  | _ => inl (TypeError k)
  end.

(** Property assignment [o[k] = v] on a property list: an existing
    property keeps its place, a new one goes last. *)
Fixpoint set_prop (k : string) (v : jsval) (props : list (string * jsval))
  : list (string * jsval) :=
  match props with
  | [] => [(k, v)]
  | (k', v') :: rest =>
      if String.eqb k k' then (k', v) :: rest else (k', v') :: set_prop k v rest
  end.

(** ** Events, log entries, requests *)

Record file : Type := File {
  name : string;
  size : Z;
  mtime_ms : Z;
  exists_ : bool;
  type : string
}.

(** What the client hands to the listeners of ['subscription']: a
    batch of changed files, or a notice without a file list (the
    cancellation of the subscription, a state change). *)
Record event : Type := Event {
  subscription : string;
  files : option (list file)
}.

Inductive level : Type := LError | LWarn | LInfo | LDebug.

Inductive log_arg : Type :=
| AStr (s : string)
| ANum (n : Z)
| AVal (v : jsval)
| AErr (e : exn)
| AList (l : list string)
| AEvent (ev : event).

(** One call [logger.<level>(args...)]. *)
Record log_entry : Type := LogEntry {
  lvl : level;
  args : list log_arg
}.

(** The logger is created with [level: 'info']: debug calls print nothing. *)
Definition emitted (e : log_entry) : bool :=
  match lvl e with LDebug => false | _ => true end.

Definition is_error (e : log_entry) : bool :=
  match lvl e with LError => true | _ => false end.

Inductive command : Type :=
| CapabilityCheck (optional required : list string)
| Cmd (argv : list jsval).

Record http_request : Type := HttpRequest {
  url : string;
  method : string;
  headers : list (string * string);
  body : option string
}.

(** What [response.json()] settles with. *)
Inductive json_result : Type :=
| JsonRejected (e : exn)
| JsonParsed (v : jsval).

Record http_response : Type := HttpResponse {
  ok : bool;
  status : Z;
  json : json_result
}.

Inductive fetch_result : Type :=
| FetchRejected (e : exn)
| FetchResolved (r : http_response).

(** A rejected [writeFile] may already have truncated or partly written
    the file: the environment says what is left on disk. *)
Inductive write_result : Type :=
| WriteOk
| WriteFailed (e : exn) (left_on_disk : option string).

Inductive exec_result : Type :=
| ExecResolved (out err : string)
| ExecRejected (e : exec_error).

(** ** Programs *)

(** A program is a tree of effects.  [Throw] is a thrown exception or a
    rejected promise; at the root of a task it is an uncaught one.
    [Command] submits a request to Watchman, its continuation is the
    callback handed to [client.command]; [Listen] is
    [client.on('subscription', listener)]; [ConsoleLog] is the bare
    [console.log()] of the shutdown path; [Spawn task k] calls the
    async function [task] without awaiting it and goes on with [k]. *)
Inductive Prog (A : Type) : Type :=
| Ret (a : A)
| Throw (e : exn)
| Log (l : level) (a : list log_arg) (k : Prog A)
| Command (c : command) (cb : option exn -> jsval -> Prog A)
| Listen (listener : event -> Prog unit) (k : Prog A)
| ClientEnd (k : Prog A)
| ConsoleLog (k : Prog A)
| ProcessExit (status : Z)
| Fetch (req : http_request) (k : fetch_result -> Prog A)
| WriteFile (path content : string) (k : write_result -> Prog A)
| Exec (cmdline : string) (k : exec_result -> Prog A)
| Spawn (task : Prog unit) (k : Prog A).

Arguments Ret {A} a.
Arguments Throw {A} e.
Arguments Log {A} l a k.
Arguments Command {A} c cb.
Arguments Listen {A} listener k.
Arguments ClientEnd {A} k.
Arguments ConsoleLog {A} k.
Arguments ProcessExit {A} status.
Arguments Fetch {A} req k.
Arguments WriteFile {A} path content k.
Arguments Exec {A} cmdline k.
Arguments Spawn {A} task k.

(** [await p; f] *)
Fixpoint bind {A B : Type} (p : Prog A) (f : A -> Prog B) : Prog B :=
  match p with
  | Ret a => f a
  | Throw e => Throw e
  | Log l a k => Log l a (bind k f)
  | Command c cb => Command c (fun e r => bind (cb e r) f)
  | Listen h k => Listen h (bind k f)
  | ClientEnd k => ClientEnd (bind k f)
  | ConsoleLog k => ConsoleLog (bind k f)
  | ProcessExit s => ProcessExit s
  | Fetch req k => Fetch req (fun r => bind (k r) f)
  | WriteFile p c k => WriteFile p c (fun r => bind (k r) f)
  | Exec c k => Exec c (fun r => bind (k r) f)
  | Spawn t k => Spawn t (bind k f)
  end.

(** [try { p } catch (e) { h e }].  The callback of a Watchman command
    runs from the client's socket handler, outside the [try]; so does
    what remains of a call that was not awaited. *)
Fixpoint try_catch {A : Type} (p : Prog A) (h : exn -> Prog A) : Prog A :=
  match p with
  | Ret a => Ret a
  | Throw e => h e
  | Log l a k => Log l a (try_catch k h)
  | Command c cb => Command c cb
  | Listen l k => Listen l (try_catch k h)
  | ClientEnd k => ClientEnd (try_catch k h)
  | ConsoleLog k => ConsoleLog (try_catch k h)
  | ProcessExit s => ProcessExit s
  | Fetch req k => Fetch req (fun r => try_catch (k r) h)
  | WriteFile p c k => WriteFile p c (fun r => try_catch (k r) h)
  | Exec c k => Exec c (fun r => try_catch (k r) h)
  | Spawn t k => Spawn t (try_catch k h)
  end.

Declare Scope prog_scope.
Delimit Scope prog_scope with prog.
Notation "x <- p ;; q" := (bind p (fun x => q))
  (at level 61, p at next level, right associativity) : prog_scope.
Notation "p ;; q" := (bind p (fun _ => q))
  (at level 61, right associativity) : prog_scope.

(** [task()] as a statement: the promise it returns is dropped. *)
Definition call (task : Prog unit) : Prog unit := Spawn task (Ret tt).

(** Lift a property read that may throw. *)
Definition lift {A : Type} (r : exn + A) : Prog A :=
  match r with
  | inl e => Throw e
  | inr a => Ret a
  end.

(** ** Worlds and the interpreter *)

Inductive obs : Type :=
| OLog (e : log_entry)
| ORequest (c : command)
| OListen
| OEnd
| OConsole
| OExit (status : Z)
| OFetch (req : http_request)
| OWrite (path content : string)
| OExec (cmdline : string).

(** [pending] holds what remains to run of the calls nobody awaited, in
    the order they were made; a promise that is already rejected is the
    remainder [Throw]. *)
Record World : Type := mkWorld {
  trace : list obs;
  listeners : list (event -> Prog unit);
  disk : string -> option string;
  pending : list (Prog unit)
}.

(** The answers of the outside world, indexed by the number of effects
    observed so far. *)
Record Env : Type := mkEnv {
  answer_command : nat -> command -> option exn * jsval;
  answer_fetch : nat -> http_request -> fetch_result;
  answer_write : nat -> string -> string -> write_result;
  answer_exec : nat -> string -> exec_result
}.

Inductive outcome (A : Type) : Type :=
| Done (a : A)
| Uncaught (e : exn)
| Exited (status : Z).

Arguments Done {A} a.
Arguments Uncaught {A} e.
Arguments Exited {A} status.

Definition observe (o : obs) (w : World) : World :=
  mkWorld (trace w ++ [o]) (listeners w) (disk w) (pending w).

Definition add_listener (h : event -> Prog unit) (w : World) : World :=
  mkWorld (trace w ++ [OListen]) (listeners w ++ [h]) (disk w) (pending w).

Definition store (path : string) (content : option string) (w : World) : World :=
  mkWorld (trace w)
          (listeners w)
          (fun p => if String.eqb p path then content else disk w p)
          (pending w).

Definition park (rest : Prog unit) (w : World) : World :=
  mkWorld (trace w) (listeners w) (disk w) (pending w ++ [rest]).

Definition after_write (path content : string) (r : write_result) (w : World)
  : World :=
  match r with
  | WriteOk => store path (Some content) w
  | WriteFailed _ left_on_disk => store path left_on_disk w
  end.

(** How far a call gets before it hands its promise to the caller. *)
Inductive started (A : Type) : Type :=
| Settled (a : A)
| Pending (rest : Prog A)
| Gone (status : Z).

Arguments Settled {A} a.
Arguments Pending {A} rest.
Arguments Gone {A} status.

(** The synchronous part of a call: the callee runs until it has to
    wait for the outside world.  The request it waits on has been
    issued by then, and its answer is under way. *)
Fixpoint start {A : Type} (env : Env) (p : Prog A) (w : World)
  : started A * World :=
  match p with
  | Ret a => (Settled a, w)
  | Throw e => (Pending (Throw e), w)
  | Log l a k => start env k (observe (OLog (LogEntry l a)) w)
  | Command c cb =>
      let '(e, r) := answer_command env (List.length (trace w)) c in
      (Pending (cb e r), observe (ORequest c) w)
  | Listen h k => start env k (add_listener h w)
  | ClientEnd k => start env k (observe OEnd w)
  | ConsoleLog k => start env k (observe OConsole w)
  | ProcessExit s => (Gone s, observe (OExit s) w)
  | Fetch req k =>
      (Pending (k (answer_fetch env (List.length (trace w)) req)),
       observe (OFetch req) w)
  | WriteFile p c k =>
      let r := answer_write env (List.length (trace w)) p c in
      (Pending (k r), after_write p c r (observe (OWrite p c) w))
  | Exec c k =>
      (Pending (k (answer_exec env (List.length (trace w)) c)),
       observe (OExec c) w)
  | Spawn t k =>
      match start env t w with
      | (Settled _, w') => start env k w'
      | (Pending rest, w') => start env k (park rest w')
      | (Gone s, w') => (Gone s, w')
      end
  end.

Fixpoint run {A : Type} (env : Env) (p : Prog A) (w : World)
  : outcome A * World :=
  match p with
  | Ret a => (Done a, w)
  | Throw e => (Uncaught e, w)
  | Log l a k => run env k (observe (OLog (LogEntry l a)) w)
  | Command c cb =>
      let '(e, r) := answer_command env (List.length (trace w)) c in
      run env (cb e r) (observe (ORequest c) w)
  | Listen h k => run env k (add_listener h w)
  | ClientEnd k => run env k (observe OEnd w)
  | ConsoleLog k => run env k (observe OConsole w)
  | ProcessExit s => (Exited s, observe (OExit s) w)
  | Fetch req k =>
      run env (k (answer_fetch env (List.length (trace w)) req))
          (observe (OFetch req) w)
  | WriteFile p c k =>
      let r := answer_write env (List.length (trace w)) p c in
      run env (k r) (after_write p c r (observe (OWrite p c) w))
  | Exec c k =>
      run env (k (answer_exec env (List.length (trace w)) c))
          (observe (OExec c) w)
  | Spawn t k =>
      match start env t w with
      | (Settled _, w') => run env k w'
      | (Pending rest, w') => run env k (park rest w')
      | (Gone s, w') => (Exited s, w')
      end
  end.

(** ** JSON.stringify *)

Definition DQ : ascii := "034"%char.
Definition BS : ascii := "092"%char.
Definition LF : ascii := "010"%char.
Definition CR : ascii := "013"%char.
Definition TAB : ascii := "009"%char.
Definition SP : ascii := " "%char.

Definition chars (s : string) : list ascii := list_ascii_of_string s.
Definition text (l : list ascii) : string := string_of_list_ascii l.

Definition hex_digit (n : N) : ascii :=
  nth (N.to_nat n) (chars "0123456789abcdef") "0"%char.

(** QuoteJSONString, one code unit at a time. *)
Definition quote_char (c : ascii) : list ascii :=
  let n := N_of_ascii c in
  if Ascii.eqb c DQ then [BS; DQ]
  else if Ascii.eqb c BS then [BS; BS]
  else if (n =? 8)%N then [BS; "b"%char]
  else if (n =? 9)%N then [BS; "t"%char]
  else if (n =? 10)%N then [BS; "n"%char]
  else if (n =? 12)%N then [BS; "f"%char]
  else if (n =? 13)%N then [BS; "r"%char]
  else if (n <? 32)%N then
    [BS; "u"%char; "0"%char; "0"%char; hex_digit (n / 16); hex_digit (n mod 16)]
  else [c].

Definition quote (s : string) : list ascii :=
  DQ :: flat_map quote_char (chars s) ++ [DQ].

Fixpoint digits (d : Decimal.uint) : list ascii :=
  match d with
  | Decimal.Nil => []
  | Decimal.D0 r => "0"%char :: digits r
  | Decimal.D1 r => "1"%char :: digits r
  | Decimal.D2 r => "2"%char :: digits r
  | Decimal.D3 r => "3"%char :: digits r
  | Decimal.D4 r => "4"%char :: digits r
  | Decimal.D5 r => "5"%char :: digits r
  | Decimal.D6 r => "6"%char :: digits r
  | Decimal.D7 r => "7"%char :: digits r
  | Decimal.D8 r => "8"%char :: digits r
  | Decimal.D9 r => "9"%char :: digits r
  end.

(** The decimal digits of an integer, with its sign. *)
Definition print_int (n : Z) : list ascii :=
  match n with
  | Z0 => ["0"%char]
  | Zpos p => digits (Pos.to_uint p)
  | Zneg p => "-"%char :: digits (Pos.to_uint p)
  end.

(** Number::toString on a safe integer: it has at most 16 digits, and
    up to 21 digits the text of an integer is its digits. *)
Definition Number_toString (n : number) : list ascii := print_int (int_of n).

Fixpoint join (sep : list ascii) (parts : list (list ascii)) : list ascii :=
  match parts with
  | [] => []
  | [p] => p
  | p :: rest => p ++ sep ++ join sep rest
  end.

(** A line break followed by the indentation, or nothing when there is
    no gap. *)
Definition line_break (gap ind : nat) : list ascii :=
  match gap with
  | O => []
  | S _ => LF :: repeat SP ind
  end.

Definition colon (gap : nat) : list ascii :=
  match gap with
  | O => [":"%char]
  | S _ => [":"%char; SP]
  end.

(** The tail shared by SerializeJSONObject and SerializeJSONArray. *)
Definition enclose (opening closing : ascii) (gap ind : nat)
           (parts : list (list ascii)) : list ascii :=
  match parts with
  | [] => [opening; closing]
  | _ =>
      opening :: line_break gap (ind + gap)
        ++ join (","%char :: line_break gap (ind + gap)) parts
        ++ line_break gap ind ++ [closing]
  end.

(** SerializeJSONProperty with the current indentation [ind]:
    [None] is [undefined]. *)
Fixpoint serialize (gap ind : nat) (v : jsval) : option (list ascii) :=
  match v with
  | VUndef => None
  | VNull => Some (chars "null")
  | VBool true => Some (chars "true")
  | VBool false => Some (chars "false")
  | VNum n => Some (Number_toString n)
  | VStr s => Some (quote s)
  | VArr items =>
      Some (enclose "["%char "]"%char gap ind
              ((fix elements (l : list jsval) : list (list ascii) :=
                  match l with
                  | [] => []
                  | x :: rest =>
                      match serialize gap (ind + gap) x with
                      | Some t => t
                      | None => chars "null"
                      end :: elements rest
                  end) items))
  | VObj props =>
      Some (enclose "{"%char "}"%char gap ind
              ((fix members (l : list (string * jsval)) : list (list ascii) :=
                  match l with
                  | [] => []
                  | (k, x) :: rest =>
                      match serialize gap (ind + gap) x with
                      | Some t => (quote k ++ colon gap ++ t) :: members rest
                      | None => members rest
                      end
                  end) props))
  end.

(** [JSON.stringify(v, null, space)]; [space] is clamped to 10. *)
Definition JSON_stringify (v : jsval) (space : nat) : option string :=
  option_map text (serialize (Nat.min space 10) 0 v).

(** ** Array and string helpers *)

(** [Array.prototype.slice(start, stop)]. *)
Definition slice {A : Type} (start stop : Z) (l : list A) : list A :=
  let len := Z.of_nat (List.length l) in
  let from := if start <? 0 then Z.max (len + start) 0 else Z.min start len in
  let to := if stop <? 0 then Z.max (len + stop) 0 else Z.min stop len in
  firstn (Z.to_nat (to - from)) (skipn (Z.to_nat from) l).

(** [s.split(sep)] for a one-character separator. *)
Fixpoint split (sep : ascii) (s : string) : list string :=
  match s with
  | EmptyString => [EmptyString]
  | String c rest =>
      if Ascii.eqb c sep then EmptyString :: split sep rest
      else match split sep rest with
           | [] => [String c EmptyString]
           | line :: lines => String c line :: lines
           end
  end.

(** [lines.forEach(logger.<l>)]: the logger method is called with the
    element, its index and the whole array, and logs as it does when
    called on the logger. *)
Fixpoint forEach_log_from (l : level) (all : list string) (i : Z)
         (rest : list string) : Prog unit :=
  match rest with
  | [] => Ret tt
  | line :: rest' =>
      Log l [AStr line; ANum i; AList all] (forEach_log_from l all (i + 1) rest')
  end.

Definition forEach_log (l : level) (lines : list string) : Prog unit :=
  forEach_log_from l lines 0 lines.

(** ** The watcher script *)

Definition dq : string := String DQ EmptyString.

Record subscription_spec : Type := SubscriptionSpec {
  id : string;
  path : string;
  config : list (string * jsval)
}.

(** Sanity check for Watchman support. *)
Definition checkCapability : Prog jsval :=
  Command (CapabilityCheck [] ["relative_root"])
    (fun error response =>
       match error with
       | Some e => Log LError [AErr e] (ClientEnd (ProcessExit 1))
       | None => Ret response
       end).

(** Create a watch on a project path/subpath. *)
Definition watchProject (path : string) : Prog jsval :=
  Log LInfo [AStr "Establishing watch: %s"; AStr path]
    (Command (Cmd [VStr "watch-project"; VStr path])
       (fun error response =>
          match error with
          | Some e => Log LError [AErr e] (ProcessExit 1)
          | None =>
              (has_warning <- lift (prop_in "warning" response) ;;
               (if has_warning : bool then
                  warning <- lift (prop "warning" response) ;;
                  Log LWarn
                    [AStr ("Establishing watch on " ++ dq ++ "%s" ++ dq
                           ++ " generated warning: ")%string;
                     AVal warning] (Ret tt)
                else Ret tt) ;;
               watcher <- lift (prop "watcher" response) ;;
               watch <- lift (prop "watch" response) ;;
               Log LInfo
                 [AStr ("Watch established with %s on " ++ dq ++ "%s" ++ dq)%string;
                  AVal watcher; AVal watch]
                 (Ret response))%prog
          end)).

(** [event.files.map((f) => f.name)] *)
Definition file_names (ev : event) : exn + list string :=
  match files ev with
  | Some fs => inr (map name fs)
  | None => inl (TypeError "map")
  end.

(** The listener [subscribe] registers on the client.  The callback is
    called, not awaited. *)
Definition dispatcher (subscriptionId : string) (callback : event -> Prog unit)
           (ev : event) : Prog unit :=
  if negb (String.eqb (subscription ev) subscriptionId) then Ret tt
  else
    Log LDebug [AStr "%j"; AEvent ev]
      (names <- lift (file_names ev) ;;
       Log LInfo
         [AStr ("Subscription " ++ dq ++ "%s" ++ dq ++ " triggered via: %j")%string;
          AStr (subscription ev); AList names]
         (call (callback ev)))%prog.

Definition log_if_error {A : Type} (error : option exn) (k : Prog A) : Prog A :=
  match error with
  | Some e => Log LError [AErr e] k
  | None => k
  end.

(** The callback of the [subscribe] command. *)
Definition on_subscribed (subscriptionId : string)
           (subscriptionConfig : list (string * jsval))
           (callback : event -> Prog unit)
           (error : option exn) (response : jsval) : Prog unit :=
  log_if_error error
    (subscribed <- lift (prop "subscribe" response) ;;
     Log LInfo
       [AStr ("Subscription " ++ dq ++ "%s" ++ dq ++ " established: %j")%string;
        AVal subscribed;
        AVal (lookup "expression" subscriptionConfig)]
       (Listen (dispatcher subscriptionId callback) (Ret tt)))%prog.

(** The callback of the [clock] command.  Its second parameter is the
    pattern [{ clock: since }], matched before the body runs. *)
Definition on_clock (project watch : jsval) (spec : subscription_spec)
           (callback : event -> Prog unit)
           (error : option exn) (response : jsval) : Prog unit :=
  (since <- lift (prop "clock" response) ;;
   log_if_error error
     (relative_path <- lift (prop "relative_path" project) ;;
      let subscriptionConfig :=
        set_prop "relative_root" relative_path
          (set_prop "since" since (config spec)) in
      Command
        (Cmd [VStr "subscribe"; watch; VStr (id spec); VObj subscriptionConfig])
        (on_subscribed (id spec) subscriptionConfig callback)))%prog.

Section Subscribe.

(** [path.normalize(path.join(a, b))] of Node's path module. *)
Variable resolve_path : string -> string -> string.

Definition subscribe (rootPath : string) (spec : subscription_spec)
           (callback : event -> Prog unit) : Prog unit :=
  let watchPath := resolve_path rootPath (path spec) in
  (project <- watchProject watchPath ;;
   watch <- lift (prop "watch" project) ;;
   Command (Cmd [VStr "clock"; watch])
     (on_clock project watch spec callback))%prog.

End Subscribe.

Definition SCHEMA_PATH : string := "app/graph/schema.json".

Definition fields : jsval :=
  VArr [VStr "name"; VStr "size"; VStr "mtime_ms"; VStr "exists"; VStr "type"].

Definition SUBSCRIPTIONS_frontend : subscription_spec :=
  SubscriptionSpec "frontend" "vendor/frontend/app"
    [("expression",
      VArr [VStr "allof";
            VArr [VStr "match"; VStr "**/*.js"; VStr "wholename"];
            VArr [VStr "not";
                  VArr [VStr "match"; VStr "**/__generated__/**"; VStr "wholename"]];
            VArr [VStr "not"; VArr [VStr "empty"]];
            VArr [VStr "type"; VStr "f"]]);
     ("fields", fields)].

Definition SUBSCRIPTIONS_graph : subscription_spec :=
  SubscriptionSpec "graph" "app/models/api/graph"
    [("expression",
      VArr [VStr "allof";
            VArr [VStr "match"; VStr "**/*.rb"; VStr "wholename"];
            VArr [VStr "not"; VArr [VStr "empty"]];
            VArr [VStr "type"; VStr "f"]]);
     ("fields", fields)].

(** [error.code !== 0] *)
Definition code_is_not_zero (c : exit_code) : bool :=
  match c with
  | ExitStatus n => negb (n =? 0)
  | _ => true
  end.

Definition compileRelayGeneratedArtifacts : Prog unit :=
  try_catch
    (Log LInfo [AStr "Executing relay-compiler"]
       (Exec "yarn run relay-compile"
          (fun r =>
             match r with
             | ExecResolved out _ => forEach_log LInfo (slice 4 (-1) (split LF out))
             | ExecRejected e => Throw (ExecRejection e)
             end)))
    (fun error =>
       match error with
       | ExecRejection e =>
           if code_is_not_zero (code e)
           then forEach_log LError (slice 4 (-1) (split LF (stdout e)))
           else Ret tt
       | _ =>
           (* no [code], so [code !== 0]; no [stdout] to split *)
           Throw (TypeError "split")
       end).

Definition stringify_or_empty (v : jsval) (space : nat) : string :=
  match JSON_stringify v space with
  | Some s => s
  | None => EmptyString
  end.

Section Sync.

(** The query text exported by graphql/utilities/introspectionQuery. *)
Variable introspectionQuery : string.

Definition endpoint : string := "http://graphql.buildkite.localhost/v1".

Definition sync_request : http_request :=
  HttpRequest endpoint "POST"
    [("Content-Type", "application/json"); ("Authorization", "Bearer test")]
    (JSON_stringify (VObj [("query", VStr introspectionQuery)]) 0).

Definition syncGraphqlSchemaToDisk : Prog unit :=
  Log LInfo
    [AStr ("Fetching current GraphQL introspection schema from "
           ++ dq ++ "%s" ++ dq)%string;
     AStr endpoint]
    (try_catch
       (Fetch sync_request
          (fun fetched =>
             match fetched with
             | FetchRejected e => Throw e
             | FetchResolved response =>
                 if ok response then
                   match json response with
                   | JsonRejected e => Throw e
                   | JsonParsed parsed =>
                       (data <- lift (prop "data" parsed) ;;
                        errors <- lift (prop "errors" parsed) ;;
                        if truthy errors then
                          Throw (Error (stringify_or_empty errors 2))
                        else
                          WriteFile SCHEMA_PATH
                            (stringify_or_empty (VObj [("data", data)]) 2)
                            (fun written =>
                               match written with
                               | WriteFailed e _ => Throw e
                               | WriteOk =>
                                   Log LInfo
                                     [AStr ("Synced current GraphQL schema to "
                                            ++ dq ++ "%s" ++ dq)%string;
                                      AStr SCHEMA_PATH]
                                     (Ret tt)
                               end))%prog
                   end
                 else
                   Log LError
                     [AStr ("Error syncing current GraphQL schema, request to "
                            ++ dq ++ "%s" ++ dq
                            ++ " failed with status code %s")%string;
                      AStr endpoint; ANum (status response)]
                     (Ret tt)
             end))
       (fun error => Log LError [AErr error] (Ret tt))).

(** The two callbacks [start] hands to [subscribe]. *)
Definition graphHandler (_ : event) : Prog unit :=
  (syncGraphqlSchemaToDisk ;; compileRelayGeneratedArtifacts)%prog.

Definition frontendHandler (_ : event) : Prog unit :=
  compileRelayGeneratedArtifacts.

(** Terminate cleanly: the handler installed for SIGINT and SIGTERM. *)
Definition signalHandler (signal : string) : Prog unit :=
  ConsoleLog
    (Log LWarn [AStr "Received %s — shutting down!"; AStr signal]
       (ClientEnd
          (Log LInfo [AStr "Bye! 👋🏼"] (ProcessExit 0)))).

Definition signals : list string := ["SIGINT"; "SIGTERM"].

(** [start] up to the point where it sets up the subscriptions. *)
Definition start_sequence : Prog unit :=
  (response <- checkCapability ;;
   version <- lift (prop "version" response) ;;
   Log LInfo [AStr "Starting GraphWatcher (Watchman: %s)"; AVal version]
     (syncGraphqlSchemaToDisk ;;
      compileRelayGeneratedArtifacts ;;
      Log LInfo
        [AStr "Setting up subscriptions for GraphQL / Relay filesystem events"]
        (Ret tt)))%prog.

Variable resolve_path : string -> string -> string.

(** The two [subscribe] calls of [start]; neither is awaited, so they
    are two tasks of their own. *)
Definition start_subscriptions (root : string) : list (Prog unit) :=
  [subscribe resolve_path root SUBSCRIPTIONS_graph graphHandler;
   subscribe resolve_path root SUBSCRIPTIONS_frontend frontendHandler].

End Sync.

(** [client.emit('subscription', ev)]: the listeners are called one
    after the other, in the order they were registered; one that throws
    ends the emit.  A listener is an ordinary function, as the
    dispatchers are: it runs to its return, and what it calls without
    awaiting is left parked. *)
Fixpoint emit_to (ls : list (event -> Prog unit)) (ev : event) : Prog unit :=
  match ls with
  | [] => Ret tt
  | h :: rest => (h ev ;; emit_to rest ev)%prog
  end.

Definition emit (env : Env) (ev : event) (w : World) : outcome unit * World :=
  run env (emit_to (listeners w) ev) w.

(** ** Reading a trace *)

Definition is_close (o : obs) : bool :=
  match o with OEnd => true | _ => false end.

(** How often the connection was closed. *)
Definition closes (t : list obs) : nat := List.length (filter is_close t).

Definition is_watch_request (p : string) (o : obs) : bool :=
  match o with
  | ORequest (Cmd [VStr c; VStr q]) => String.eqb c "watch-project" && String.eqb q p
  | _ => false
  end.

(** How many watch-establish requests for [p] were issued. *)
Definition watch_requests (p : string) (t : list obs) : nat :=
  List.length (filter (is_watch_request p) t).

Definition log_of (t : list obs) : list log_entry :=
  flat_map (fun o => match o with OLog e => [e] | _ => [] end) t.

(** The error-level lines of a trace. *)
Definition error_lines (t : list obs) : list log_entry :=
  filter is_error (log_of t).

Definition is_write (o : obs) : bool :=
  match o with OWrite _ _ => true | _ => false end.

Definition is_fetch (o : obs) : bool :=
  match o with OFetch _ => true | _ => false end.

Definition is_exec (o : obs) : bool :=
  match o with OExec _ => true | _ => false end.

(** No path through the program closes the connection, whatever the
    outside world answers; listeners it registers included. *)
Fixpoint never_closes {A : Type} (p : Prog A) : Prop :=
  match p with
  | Ret _ | Throw _ | ProcessExit _ => True
  | Log _ _ k | ConsoleLog k => never_closes k
  | ClientEnd _ => False
  | Command _ cb => forall e r, never_closes (cb e r)
  | Listen h k => (forall ev, never_closes (h ev)) /\ never_closes k
  | Fetch _ k => forall r, never_closes (k r)
  | WriteFile _ _ k => forall r, never_closes (k r)
  | Exec _ k => forall r, never_closes (k r)
  | Spawn t k => never_closes t /\ never_closes k
  end.

(** Two calls of [watchProject] for the same path, one after the other. *)
Definition watch_twice (p : string) : Prog (jsval * jsval) :=
  (first <- watchProject p ;;
   second <- watchProject p ;;
   Ret (first, second))%prog.

(** ** Sample environments *)

Definition empty_world : World := mkWorld [] [] (fun _ => None) [].

Definition sample_watch : jsval :=
  VObj [("version", VStr "4.9.0"); ("watch", VStr "/repo");
        ("watcher", VStr "inotify"); ("relative_path", VStr "app")].

(** Every Watchman command succeeds; the endpoint is unreachable. *)
Definition calm_env : Env :=
  mkEnv (fun _ c =>
           match c with
           | Cmd (VStr "clock" :: _) => (None, VObj [("clock", VStr "c:1:2")])
           | Cmd (VStr "subscribe" :: _ :: n :: _) => (None, VObj [("subscribe", n)])
           | _ => (None, sample_watch)
           end)
        (fun _ _ => FetchRejected (Error "ECONNREFUSED"))
        (fun _ _ _ => WriteOk)
        (fun _ _ => ExecResolved EmptyString EmptyString).

(** Watchman rejects every command the way fb-watchman reports it:
    the callback gets the error and no response. *)
Definition failing_env : Env :=
  mkEnv (fun _ _ => (Some (ServiceError "unable to resolve root"), VUndef))
        (answer_fetch calm_env) (answer_write calm_env) (answer_exec calm_env).

(** Only the [clock] command is rejected. *)
Definition clock_failing_env : Env :=
  mkEnv (fun n c =>
           match c with
           | Cmd (VStr "clock" :: _) => (Some (ServiceError "clock failed"), VUndef)
           | _ => answer_command calm_env n c
           end)
        (answer_fetch calm_env) (answer_write calm_env) (answer_exec calm_env).

(** The watch-establish request for a path. *)
Definition watch_command (p : string) : command :=
  Cmd [VStr "watch-project"; VStr p].

(** The capability-check request. *)
Definition probe_command : command := CapabilityCheck [] ["relative_root"].

(** ** Stating what a run added *)

(** The world after some more observations. *)
Definition extend (t : list obs) (w : World) : World :=
  mkWorld (trace w ++ t) (listeners w) (disk w) (pending w).

(** What [lines.forEach(logger.<l>)] leaves in the trace. *)
Fixpoint logged_lines_from (l : level) (all : list string) (i : Z)
         (rest : list string) : list obs :=
  match rest with
  | [] => []
  | line :: rest' =>
      OLog (LogEntry l [AStr line; ANum i; AList all])
        :: logged_lines_from l all (i + 1) rest'
  end.

Definition logged_lines (l : level) (lines : list string) : list obs :=
  logged_lines_from l lines 0 lines.

(** The trimming as the specification words it: drop the first four
    lines, then the final line. *)
Definition drop_framing (lines : list string) : list string :=
  removelast (skipn 4 lines).

Definition compile_command : string := "yarn run relay-compile".

Definition compile_started : list obs :=
  [OLog (LogEntry LInfo [AStr "Executing relay-compiler"]); OExec compile_command].

(** The compiler exits with status 1 and prints seven lines. *)
Definition failed_compile : exec_error :=
  ExecError (ExitStatus 1)
    (String.concat (String LF EmptyString)
       ["yarn run v1.3.2"; "$ relay-compiler"; EmptyString; "Parsing schema";
        "ERROR:"; "Unknown field 'slug' on type 'Team'"; "error Command failed."])
    EmptyString.

(** The compiler exits with status 1 and prints nothing. *)
Definition silent_failed_compile : exec_error :=
  ExecError (ExitStatus 1) EmptyString EmptyString.

Definition compile_env (r : exec_result) : Env :=
  mkEnv (answer_command calm_env) (answer_fetch calm_env) (answer_write calm_env)
        (fun _ _ => r).

(** What a run of [p] from [w] added to the trace. *)
Definition added {A : Type} (env : Env) (p : Prog A) (w : World) : list obs :=
  skipn (List.length (trace w)) (trace (snd (run env p w))).

(** Level and message of each logger call of a trace. *)
Definition messages (t : list obs) : list (level * option log_arg) :=
  map (fun e => (lvl e, hd_error (args e))) (log_of t).

(** ** Stating what the schema synchronizer did *)

Definition sync_started (query : string) : list obs :=
  [OLog (LogEntry LInfo
           [AStr ("Fetching current GraphQL introspection schema from "
                  ++ dq ++ "%s" ++ dq)%string;
            AStr endpoint]);
   OFetch (sync_request query)].

Definition sync_finished : obs :=
  OLog (LogEntry LInfo
          [AStr ("Synced current GraphQL schema to " ++ dq ++ "%s" ++ dq)%string;
           AStr SCHEMA_PATH]).

Definition status_reported (r : http_response) : log_entry :=
  LogEntry LError
    [AStr ("Error syncing current GraphQL schema, request to "
           ++ dq ++ "%s" ++ dq ++ " failed with status code %s")%string;
     AStr endpoint; ANum (status r)].

Definition error_reported (e : exn) : log_entry := LogEntry LError [AErr e].

(** The text written for an introspection result [data]. *)
Definition snapshot_of (data : jsval) : string :=
  stringify_or_empty (VObj [("data", data)]) 2.

(** What one run of the synchronizer makes of the answer to its
    request: a failure, with the line it logs, or a snapshot to write. *)
Inductive sync_view : Type :=
| Failure (entry : log_entry)
| Snapshot (content : string).

Definition sync_view_of (fetched : fetch_result) : sync_view :=
  match fetched with
  | FetchRejected e => Failure (error_reported e)
  | FetchResolved r =>
      if ok r then
        match json r with
        | JsonRejected e => Failure (error_reported e)
        | JsonParsed parsed =>
            match prop "data" parsed with
            | inl e => Failure (error_reported e)
            | inr data =>
                match prop "errors" parsed with
                | inl e => Failure (error_reported e)
                | inr errors =>
                    if truthy errors
                    then Failure (error_reported (Error (stringify_or_empty errors 2)))
                    else Snapshot (snapshot_of data)
                end
            end
        end
      else Failure (status_reported r)
  end.

(** An environment for one run of the synchronizer. *)
Definition sync_env (fetched : fetch_result) (written : write_result) : Env :=
  mkEnv (answer_command calm_env) (fun _ _ => fetched) (fun _ _ _ => written)
        (answer_exec calm_env).

Definition respond (ok : bool) (status : Z) (v : jsval) : fetch_result :=
  FetchResolved (HttpResponse ok status (JsonParsed v)).

(** A world whose snapshot file holds an earlier result. *)
Definition old_snapshot : string :=
  snapshot_of (VObj [("x", VNum (Number 0 eq_refl))]).

Definition synced_world : World :=
  store SCHEMA_PATH (Some old_snapshot) empty_world.

Definition sample_query : string := "query IntrospectionQuery { __schema { types { name } } }".

(** The endpoint answers 503. *)
Definition unavailable_env : Env := sync_env (respond false 503 VNull) WriteOk.

(** The endpoint answers 200 with a result and [errors: null]. *)
Definition null_errors_env : Env :=
  sync_env
    (respond true 200 (VObj [("data", VObj [("x", VNum (Number 1 eq_refl))]); ("errors", VNull)]))
    WriteOk.

(** The endpoint answers 200 with a list of errors. *)
Definition graphql_errors_env : Env :=
  sync_env
    (respond true 200
       (VObj [("errors", VArr [VObj [("message", VStr "Not authorised")]])]))
    WriteOk.

(** The endpoint cannot be reached. *)
Definition unreachable_env : Env :=
  sync_env (FetchRejected (Error "ECONNREFUSED")) WriteOk.

(** ** Stating what an emitted event did *)

(** The names of the files of an event, none for an event without a
    file list. *)
Definition names_of (ev : event) : list string :=
  match files ev with
  | Some fs => map name fs
  | None => []
  end.

(** What the dispatcher logs before it calls its callback, on an event
    that has a file list. *)
Definition announced (ev : event) : list obs :=
  [OLog (LogEntry LDebug [AStr "%j"; AEvent ev]);
   OLog (LogEntry LInfo
           [AStr ("Subscription " ++ dq ++ "%s" ++ dq ++ " triggered via: %j")%string;
            AStr (subscription ev); AList (names_of ev)])].

(** The listeners on the client once both subscriptions of [start] are
    established. *)
Definition start_listeners (query : string) : list (event -> Prog unit) :=
  [dispatcher (id SUBSCRIPTIONS_graph) (graphHandler query);
   dispatcher (id SUBSCRIPTIONS_frontend) frontendHandler].

(** A callback that only records that it was called, and with which
    files. *)
Definition heard (who : string) (ev : event) : Prog unit :=
  Log LInfo [AStr who; AList (names_of ev)] (Ret tt).

Definition times_heard (who : string) (t : list obs) : nat :=
  List.length
    (filter (fun e => match args e with
                      | AStr s :: _ => String.eqb s who
                      | _ => false
                      end) (log_of t)).

Definition graph_event : event :=
  Event "graph"
    (Some [File "app/models/api/graph/team.rb" 2048 1526017800000 true "f";
           File "app/models/api/graph/build.rb" 4096 1526017800100 true "f"]).

Definition frontend_event : event :=
  Event "frontend"
    (Some [File "app/components/member/Show.js" 5120 1526017900000 true "f"]).

Definition join_paths (a b : string) : string := (a ++ b)%string.

(** ** JSON.parse *)

Definition is_ws (c : ascii) : bool :=
  Ascii.eqb c SP || Ascii.eqb c LF || Ascii.eqb c CR || Ascii.eqb c TAB.

Fixpoint skip_ws (s : list ascii) : list ascii :=
  match s with
  | [] => []
  | c :: rest => if is_ws c then skip_ws rest else s
  end.

Definition digit_of (c : ascii) : option (Decimal.uint -> Decimal.uint) :=
  if Ascii.eqb c "0" then Some Decimal.D0
  else if Ascii.eqb c "1" then Some Decimal.D1
  else if Ascii.eqb c "2" then Some Decimal.D2
  else if Ascii.eqb c "3" then Some Decimal.D3
  else if Ascii.eqb c "4" then Some Decimal.D4
  else if Ascii.eqb c "5" then Some Decimal.D5
  else if Ascii.eqb c "6" then Some Decimal.D6
  else if Ascii.eqb c "7" then Some Decimal.D7
  else if Ascii.eqb c "8" then Some Decimal.D8
  else if Ascii.eqb c "9" then Some Decimal.D9
  else None.

Fixpoint read_digits (s : list ascii) : Decimal.uint * list ascii :=
  match s with
  | [] => (Decimal.Nil, [])
  | c :: rest =>
      match digit_of c with
      | Some d => let (ds, rest') := read_digits rest in (d ds, rest')
      | None => (Decimal.Nil, s)
      end
  end.

(** Fractions and exponents are outside the modelled numbers. *)
Definition starts_fraction (s : list ascii) : bool :=
  match s with
  | [] => false
  | c :: _ => Ascii.eqb c "." || Ascii.eqb c "e" || Ascii.eqb c "E"
  end.

(** The integer part of a JSON number: [0], or digits that do not start
    with [0]. *)
Definition parse_unsigned (s : list ascii) : option (N * list ascii) :=
  let (d, rest) := read_digits s in
  if starts_fraction rest then None
  else
    match d with
    | Decimal.Nil => None
    | Decimal.D0 Decimal.Nil => Some (0%N, rest)
    | Decimal.D0 _ => None
    | _ => Some (N.of_uint d, rest)
    end.

(** Beyond the safe range a JavaScript number is no longer the integer
    that was written: such literals are outside the modelled numbers. *)
Definition number_value (n : Z) (rest : list ascii) : option (jsval * list ascii) :=
  match bool_dec (safe_integer n) true with
  | left safe => Some (VNum (Number n safe), rest)
  | right _ => None
  end.

Definition parse_number (s : list ascii) : option (jsval * list ascii) :=
  match s with
  | [] => None
  | c :: rest =>
      if Ascii.eqb c "-" then
        match parse_unsigned rest with
        | Some (n, rest') => number_value (- Z.of_N n) rest'
        | None => None
        end
      else
        match parse_unsigned s with
        | Some (n, rest') => number_value (Z.of_N n) rest'
        | None => None
        end
  end.

Definition hex_value (c : ascii) : option N :=
  let n := N_of_ascii c in
  if ((48 <=? n) && (n <=? 57))%N then Some (n - 48)%N
  else if ((97 <=? n) && (n <=? 102))%N then Some (n - 87)%N
  else if ((65 <=? n) && (n <=? 70))%N then Some (n - 55)%N
  else None.

Definition hex4 (a b c d : ascii) : option N :=
  match hex_value a, hex_value b, hex_value c, hex_value d with
  | Some x, Some y, Some z, Some t => Some (((x * 16 + y) * 16 + z) * 16 + t)%N
  | _, _, _, _ => None
  end.

(** The character after a backslash. *)
Definition unescape (c : ascii) : option ascii :=
  if Ascii.eqb c DQ then Some DQ
  else if Ascii.eqb c BS then Some BS
  else if Ascii.eqb c "/" then Some "/"%char
  else if Ascii.eqb c "b" then Some "008"%char
  else if Ascii.eqb c "t" then Some TAB
  else if Ascii.eqb c "n" then Some LF
  else if Ascii.eqb c "f" then Some "012"%char
  else if Ascii.eqb c "r" then Some CR
  else None.

Definition prepend {A B : Type} (x : A) (r : option (list A * B))
  : option (list A * B) :=
  match r with
  | Some (xs, rest) => Some (x :: xs, rest)
  | None => None
  end.

(** The characters of a string literal, after its opening quote. *)
Fixpoint parse_chars (s : list ascii) : option (list ascii * list ascii) :=
  match s with
  | [] => None
  | c :: rest =>
      if Ascii.eqb c DQ then Some ([], rest)
      else if Ascii.eqb c BS then
        match rest with
        | [] => None
        | e :: rest' =>
            if Ascii.eqb e "u" then
              match rest' with
              | h1 :: h2 :: h3 :: h4 :: rest'' =>
                  match hex4 h1 h2 h3 h4 with
                  | Some n =>
                      if (n <? 256)%N
                      then prepend (ascii_of_N n) (parse_chars rest'')
                      else None
                  | None => None
                  end
              | _ => None
              end
            else
              match unescape e with
              | Some x => prepend x (parse_chars rest')
              | None => None
              end
        end
      else if (N_of_ascii c <? 32)%N then None
      else prepend c (parse_chars rest)
  end.

Fixpoint strip_prefix (p s : list ascii) : option (list ascii) :=
  match p, s with
  | [], _ => Some s
  | a :: p', b :: s' => if Ascii.eqb a b then strip_prefix p' s' else None
  | _ :: _, [] => None
  end.

Definition literal (word : string) (v : jsval) (s : list ascii)
  : option (jsval * list ascii) :=
  match strip_prefix (chars word) s with
  | Some rest => Some (v, rest)
  | None => None
  end.

(** The object a list of parsed members makes: a repeated key keeps its
    first place and takes the last value. *)
Definition build_object (members : list (string * jsval)) : jsval :=
  VObj (fold_left (fun props m => set_prop (fst m) (snd m) props) members []).

Fixpoint parse_value (fuel : nat) (s : list ascii) {struct fuel}
  : option (jsval * list ascii) :=
  match fuel with
  | O => None
  | S fuel' =>
      match skip_ws s with
      | [] => None
      | c :: rest =>
          if Ascii.eqb c "n" then literal "ull" VNull rest
          else if Ascii.eqb c "t" then literal "rue" (VBool true) rest
          else if Ascii.eqb c "f" then literal "alse" (VBool false) rest
          else if Ascii.eqb c DQ then
            match parse_chars rest with
            | Some (cs, rest') => Some (VStr (text cs), rest')
            | None => None
            end
          else if Ascii.eqb c "[" then
            match skip_ws rest with
            | [] => None
            | c' :: rest' =>
                if Ascii.eqb c' "]" then Some (VArr [], rest')
                else
                  match parse_elements fuel' rest with
                  | Some (items, rest'') => Some (VArr items, rest'')
                  | None => None
                  end
            end
          else if Ascii.eqb c "{" then
            match skip_ws rest with
            | [] => None
            | c' :: rest' =>
                if Ascii.eqb c' "}" then Some (VObj [], rest')
                else
                  match parse_members fuel' rest with
                  | Some (members, rest'') => Some (build_object members, rest'')
                  | None => None
                  end
            end
          else parse_number (c :: rest)
      end
  end

with parse_elements (fuel : nat) (s : list ascii) {struct fuel}
  : option (list jsval * list ascii) :=
  match fuel with
  | O => None
  | S fuel' =>
      match parse_value fuel' s with
      | None => None
      | Some (v, rest) =>
          match skip_ws rest with
          | [] => None
          | c :: rest' =>
              if Ascii.eqb c "," then prepend v (parse_elements fuel' rest')
              else if Ascii.eqb c "]" then Some ([v], rest')
              else None
          end
      end
  end

with parse_members (fuel : nat) (s : list ascii) {struct fuel}
  : option (list (string * jsval) * list ascii) :=
  match fuel with
  | O => None
  | S fuel' =>
      match skip_ws s with
      | [] => None
      | c :: rest =>
          if Ascii.eqb c DQ then
            match parse_chars rest with
            | None => None
            | Some (k, rest1) =>
                match skip_ws rest1 with
                | [] => None
                | c1 :: rest2 =>
                    if Ascii.eqb c1 ":" then
                      match parse_value fuel' rest2 with
                      | None => None
                      | Some (v, rest3) =>
                          match skip_ws rest3 with
                          | [] => None
                          | c3 :: rest4 =>
                              if Ascii.eqb c3 "," then
                                prepend (text k, v) (parse_members fuel' rest4)
                              else if Ascii.eqb c3 "}" then
                                Some ([(text k, v)], rest4)
                              else None
                          end
                      end
                    else None
                end
            end
          else None
      end
  end.

(** [JSON.parse(s)]; [None] is a SyntaxError, or a text outside the
    modelled values. *)
Definition JSON_parse (s : string) : option jsval :=
  match parse_value (S (String.length s)) (chars s) with
  | Some (v, rest) =>
      match skip_ws rest with
      | [] => Some v
      | _ :: _ => None
      end
  | None => None
  end.

(** The values JSON.parse can produce: nothing undefined inside and no
    property name twice in an object. *)
Fixpoint is_json (v : jsval) : bool :=
  match v with
  | VUndef => false
  | VNull | VBool _ | VNum _ | VStr _ => true
  | VArr items =>
      (fix all (l : list jsval) : bool :=
         match l with
         | [] => true
         | x :: rest => is_json x && all rest
         end) items
  | VObj props =>
      (fix all (l : list (string * jsval)) : bool :=
         match l with
         | [] => true
         | (k, x) :: rest => negb (has_key k rest) && is_json x && all rest
         end) props
  end.

Definition sample_schema : jsval :=
  VObj [("__schema",
         VObj [("queryType", VObj [("name", VStr "Query")]);
               ("mutationType", VNull);
               ("types",
                VArr [VObj [("kind", VStr "OBJECT"); ("name", VStr "Team");
                            ("fields",
                             VArr [VObj [("name", VStr "slug");
                                         ("isDeprecated", VBool false);
                                         ("args", VArr [])]])];
                      VObj [("kind", VStr "SCALAR"); ("name", VStr "Int");
                            ("description",
                             VStr (String DQ "32-bit" ++ String LF "int"
                                   ++ String BS (String DQ EmptyString))%string);
                            ("limit", VNum (Number (-2147483648) eq_refl))]])])].

(** The text of an array element: [undefined] prints as [null]. *)
Definition element_text (gap ind : nat) (x : jsval) : list ascii :=
  match serialize gap ind x with
  | Some t => t
  | None => chars "null"
  end.

(** The text of an object member, if its value is not [undefined]. *)
Definition member_text (gap ind : nat) (m : string * jsval) : list (list ascii) :=
  match serialize gap ind (snd m) with
  | Some t => [quote (fst m) ++ colon gap ++ t]
  | None => []
  end.

(** What may follow a value in a JSON text. *)
Definition delimiter (c : ascii) : bool :=
  Ascii.eqb c "," || Ascii.eqb c "]" || Ascii.eqb c "}" || Ascii.eqb c LF.

Definition delimited (s : list ascii) : bool :=
  match s with
  | [] => true
  | c :: _ => delimiter c
  end.

(** What a value in a JSON text never starts with. *)
Definition opens_value (c : ascii) : bool :=
  negb (is_ws c || Ascii.eqb c "]" || Ascii.eqb c "}").

(** The text printed for [v] is read back as [v], whatever delimiter
    follows it. *)
Definition parses_back (v : jsval) : Prop :=
  forall (gap ind : nat) (t : list ascii) (fuel : nat) (rest : list ascii),
    is_json v = true ->
    serialize gap ind v = Some t ->
    (List.length t < fuel)%nat ->
    delimited rest = true ->
    parse_value fuel (t ++ rest) = Some (v, rest).

(** The endpoint answers 200 with an introspection result. *)
Definition schema_env : Env :=
  sync_env (respond true 200 (VObj [("data", sample_schema)])) WriteOk.

(** ** Further readings of a trace *)

Definition is_log (o : obs) : bool :=
  match o with OLog _ => true | _ => false end.

(** What a trace holds besides logger calls. *)
Definition actions (t : list obs) : list obs :=
  filter (fun o => negb (is_log o)) t.

Definition newline : string := String LF EmptyString.

(** The compiler succeeds and prints six lines, the last one ended by a
    newline. *)
Definition compiled_output : string :=
  (String.concat newline
     ["yarn run v1.3.2"; "$ relay-compiler"; EmptyString; "Parsing schema";
      "Writing js"; "Unchanged: 12 files"] ++ newline)%string.

Definition is_request (o : obs) : bool :=
  match o with ORequest _ => true | _ => false end.

(** The requests a trace sent to Watchman, oldest first. *)
Definition requests (t : list obs) : list obs := filter is_request t.

(** The warn-level lines of a trace. *)
Definition warn_lines (t : list obs) : list log_entry :=
  filter (fun e => match lvl e with LWarn => true | _ => false end) (log_of t).

(** The configuration [subscribe] submits: [{ ...config, since,
    relative_root }]. *)
Definition merged_config (spec : subscription_spec) (since relative_root : jsval)
  : list (string * jsval) :=
  set_prop "relative_root" relative_root (set_prop "since" since (config spec)).

Definition clock_command (watch : jsval) : command := Cmd [VStr "clock"; watch].

Definition subscribe_command (watch : jsval) (spec : subscription_spec)
           (since relative_root : jsval) : command :=
  Cmd [VStr "subscribe"; watch; VStr (id spec);
       VObj (merged_config spec since relative_root)].

(** Watchman answers the watch request with a warning. *)
Definition warning_env : Env :=
  mkEnv (fun _ _ =>
           (None, VObj [("watch", VStr "/repo"); ("watcher", VStr "inotify");
                        ("warning", VStr "Recrawled this watch 3 times")]))
        (answer_fetch calm_env) (answer_write calm_env) (answer_exec calm_env).

(** A subscription spec that brings its own [since]. *)
Definition stale_spec : subscription_spec :=
  SubscriptionSpec "stale" "app"
    [("since", VStr "c:0:0"); ("fields", VArr [VStr "name"])].

(** The dispatchers of a list of subscriptions, given as id and
    callback. *)
Definition dispatchers (subs : list (string * (event -> Prog unit)))
  : list (event -> Prog unit) :=
  map (fun s => dispatcher (fst s) (snd s)) subs.

Definition stray_event : event :=
  Event "assets" (Some [File "app/css/main.css" 900 1526018000000 true "f"]).

(** The endpoint answers 200 with a body that has no [data]. *)
Definition dataless_env : Env :=
  sync_env (respond true 200 (VObj [("message", VStr "hello")])) WriteOk.

(** The endpoint answers 200 with the body [null]. *)
Definition null_body_env : Env := sync_env (respond true 200 VNull) WriteOk.

Definition empty_object_text : string := String "{" (String "}" EmptyString).

Definition start_announced (version : jsval) : obs :=
  OLog (LogEntry LInfo [AStr "Starting GraphWatcher (Watchman: %s)"; AVal version]).

Definition subscriptions_announced : obs :=
  OLog (LogEntry LInfo
          [AStr "Setting up subscriptions for GraphQL / Relay filesystem events"]).

(** ** Emoji shortcodes *)

(** The shortcode half of the emoji parser.  Here a string is the
    sequence of its UTF-16 code units, which is what the regular
    expression (it has no [u] flag) works on. *)
Module Emoji.

Definition jsstring : Type := list N.

(** The code units of an ASCII literal. *)
Definition units (s : string) : jsstring := map N_of_ascii (list_ascii_of_string s).

Definition COLON : N := 58%N.

(** The class [\s]: white space and line terminators. *)
Definition is_space (c : N) : bool :=
  ((9 <=? c) && (c <=? 13) || (c =? 32) || (c =? 160) || (c =? 5760)
   || (8192 <=? c) && (c <=? 8202) || (c =? 8232) || (c =? 8233)
   || (c =? 8239) || (c =? 8287) || (c =? 12288) || (c =? 65279))%N.

(** The class [[^\s:]]. *)
Definition name_unit (c : N) : bool := negb (is_space c) && negb (c =? COLON)%N.

(** The longest run of [[^\s:]] at the start of [s], and what follows. *)
Fixpoint span (s : jsstring) : jsstring * jsstring :=
  match s with
  | [] => ([], [])
  | c :: rest =>
      if name_unit c
      then let (run, rest') := span rest in (c :: run, rest')
      else ([], s)
  end.

(** COLON_REGEXP, [:[^\s:]+:], tried at the start of [s]: the matched
    text and what follows it.  The run is greedy, and giving units of
    it back cannot help, as none of them is a colon. *)
Definition match_here (s : jsstring) : option (jsstring * jsstring) :=
  match s with
  | [] => None
  | c :: rest =>
      if (c =? COLON)%N then
        match span rest with
        | ((_ :: _) as run, c' :: rest') =>
            if (c' =? COLON)%N then Some (COLON :: run ++ [COLON], rest') else None
        | _ => None
        end
      else None
  end.

(** The successive matches of the global expression: after a match the
    search goes on behind it, otherwise one unit further. *)
Fixpoint all_matches (fuel : nat) (s : jsstring) : list jsstring :=
  match fuel with
  | O => []
  | S fuel' =>
      match s with
      | [] => []
      | _ :: rest =>
          match match_here s with
          | Some (m, behind) => m :: all_matches fuel' behind
          | None => all_matches fuel' rest
          end
      end
  end.

(** [string.match(COLON_REGEXP)]: [None] is [null]. *)
Definition string_match (s : jsstring) : option (list jsstring) :=
  match all_matches (List.length s) s with
  | [] => None
  | ms => Some ms
  end.

(** [replacements.shift()] turned into a string: an empty queue gives
    [undefined]. *)
Definition shift (queue : list jsstring) : jsstring * list jsstring :=
  match queue with
  | [] => (units "undefined", [])
  | x :: queue' => (x, queue')
  end.

(** [string.replace(COLON_REGEXP, () => replacements.shift())] *)
Fixpoint replace_matches (fuel : nat) (s : jsstring) (queue : list jsstring)
  : jsstring :=
  match fuel with
  | O => s
  | S fuel' =>
      match s with
      | [] => []
      | c :: rest =>
          match match_here s with
          | Some (_, behind) =>
              let (x, queue') := shift queue in
              x ++ replace_matches fuel' behind queue'
          | None => c :: replace_matches fuel' rest queue
          end
      end
  end.

Record emoji : Type := mkEmoji {
  name : jsstring;
  image : jsstring;
  unicode : option jsstring
}.

(** An emoji catalogue: [index] holds the numbers of [catalogue.index],
    [None] where the property is missing. *)
Record catalogue : Type := mkCatalogue {
  host : jsstring;
  emojis : list emoji;
  index : jsstring -> option Z
}.

(** [catalogue.emoji[i]] *)
Definition emoji_at (cat : catalogue) (i : Z) : option emoji :=
  if i <? 0 then None else nth_error (emojis cat) (Z.to_nat i).

Definition quoted (s : jsstring) : jsstring := (34 :: s ++ [34])%N.

(** [emoji.unicode || `:${emoji.name}:`] *)
Definition canonical (e : emoji) : jsstring :=
  match unicode e with
  | Some ((_ :: _) as u) => u
  | _ => COLON :: name e ++ [COLON]
  end.

Definition _image (cat : catalogue) (e : option emoji) : exn + jsstring :=
  match e with
  | None => inl (TypeError "image")
  | Some e =>
      inr (units "<img class=" ++ quoted (units "emoji")
           ++ units " title=" ++ quoted (name e)
           ++ units " alt=" ++ quoted (canonical e)
           ++ units " src=" ++ quoted (host cat ++ image e)
           ++ units " draggable=" ++ quoted (units "false") ++ units " />")
  end.

(** The loop of [_replace_colons] over the matches: one replacement for
    a match, or an image and an empty string for a match that makes a
    known emoji together with the next one. *)
Fixpoint replacements (cat : catalogue) (matches : list jsstring)
  : exn + list jsstring :=
  match matches with
  | [] => inr []
  | m :: rest =>
      let alone :=
        match index cat m with
        | Some i =>
            match _image cat (emoji_at cat i) with
            | inl e => inl e
            | inr img =>
                match replacements cat rest with
                | inl e => inl e
                | inr tl => inr (img :: tl)
                end
            end
        | None =>
            match replacements cat rest with
            | inl e => inl e
            | inr tl => inr (m :: tl)
            end
        end in
      match rest with
      | [] => alone
      | next :: rest' =>
          match index cat (m ++ next) with
          | Some i =>
              match _image cat (emoji_at cat i) with
              | inl e => inl e
              | inr img =>
                  match replacements cat rest' with
                  | inl e => inl e
                  | inr tl => inr (img :: [] :: tl)
                  end
              end
          | None => alone
          end
      end
  end.

(** Replaces emoji shortcodes with images. *)
Definition _replace_colons (cat : catalogue) (s : jsstring) : exn + jsstring :=
  match string_match s with
  | None => inr s
  | Some matches =>
      match replacements cat matches with
      | inl e => inl e
      | inr queue => inr (replace_matches (List.length s) s queue)
      end
  end.

(** A well-formed shortcode: a non-empty name between two colons. *)
Definition shortcode (m : jsstring) : Prop :=
  exists nm, nm <> [] /\ forallb name_unit nm = true /\ m = COLON :: nm ++ [COLON].

Definition fist : emoji := mkEmoji (units "fist") (units "img/fist.png") None.
Definition fist_dark : emoji :=
  mkEmoji (units "fist::skin-tone-6") (units "img/fist-6.png") None.

Definition sample_catalogue : catalogue :=
  mkCatalogue (units "https://emoji.example/")
              [fist; fist_dark]
              (fun k =>
                 if list_eq_dec N.eq_dec k (units ":fist:") then Some 0
                 else if list_eq_dec N.eq_dec k (units ":fist::skin-tone-6:")
                      then Some 1
                      else if list_eq_dec N.eq_dec k (units ":ghost:") then Some 7
                           else None).

End Emoji.


(** Statement vocabulary for the shortcode parser. *)
Definition colon_free (s : Emoji.jsstring) : bool :=
  forallb (fun c => negb (c =? Emoji.COLON)%N) s.

Definition shortcodes_in (s : Emoji.jsstring) : list Emoji.jsstring :=
  Emoji.all_matches (List.length s) s.




(** ** Pretty-printed JSON *)

(** The specification's wording for the snapshot, "pretty-printed
    JSON", written out on its own, to be compared with what the code's
    [JSON.stringify(value, null, 2)] gives: a scalar is its JSON text;
    an empty array or object is its two brackets; otherwise every
    element or member stands on a line of its own, indented by two
    spaces per level of nesting, a member being its quoted name, a
    colon, one space and its value, with a comma after each but the
    last, and the closing bracket on a line of its own at the level of
    the opening one. *)
Definition indentation (depth : nat) : list ascii := repeat SP (2 * depth).

Definition bracketed (opening closing : ascii) (depth : nat)
           (rows : list (list ascii)) : list ascii :=
  match rows with
  | [] => [opening; closing]
  | _ =>
      opening
        :: join [","%char] (map (fun row => LF :: indentation (S depth) ++ row) rows)
        ++ LF :: indentation depth ++ [closing]
  end.

Fixpoint pretty (depth : nat) (v : jsval) : list ascii :=
  match v with
  | VUndef => []
  | VNull => chars "null"
  | VBool true => chars "true"
  | VBool false => chars "false"
  | VNum n => Number_toString n
  | VStr s => quote s
  | VArr items =>
      bracketed "["%char "]"%char depth
        ((fix rows (l : list jsval) : list (list ascii) :=
            match l with
            | [] => []
            | x :: rest => pretty (S depth) x :: rows rest
            end) items)
  | VObj props =>
      bracketed "{"%char "}"%char depth
        ((fix rows (l : list (string * jsval)) : list (list ascii) :=
            match l with
            | [] => []
            | (k, x) :: rest =>
                (quote k ++ ":"%char :: SP :: pretty (S depth) x) :: rows rest
            end) props)
  end.

Definition pretty_printed (v : jsval) : string := text (pretty 0 v).

(** Lines of text, written with ['] for the double quote. *)
Definition with_quotes (s : string) : string :=
  text (map (fun c => if Ascii.eqb c "'" then DQ else c) (chars s)).

Definition lines (l : list string) : string :=
  String.concat (String LF EmptyString) (map with_quotes l).

Definition small_schema : jsval :=
  VObj [("x", VNum (Number 1 eq_refl));
        ("tags", VArr [VStr "a"; VBool true; VNull]);
        ("empty", VObj []);
        ("none", VArr [])].

(** The endpoint answers 200 with a small result. *)
Definition small_schema_env : Env :=
  sync_env (respond true 200 (VObj [("data", small_schema)])) WriteOk.

(** The endpoint answers 200 with a result, and the write fails after
    it has truncated the file. *)
Definition truncating_env : Env :=
  sync_env (respond true 200 (VObj [("data", small_schema)]))
           (WriteFailed (Error "ENOSPC: no space left on device") (Some EmptyString)).



(** * Properties *)

Lemma run_bind {A B : Type} (env : Env) (p : Prog A) (f : A -> Prog B) (w : World) :
  run env (bind p f) w =
  match run env p w with
  | (Done a, w') => run env (f a) w'
  | (Uncaught e, w') => (Uncaught e, w')
  | (Exited s, w') => (Exited s, w')
  end.
Proof.
  revert B f w.
  induction p as [A a | A e | A l a k IH | A c cb IH | A h _ k IH | A k IH | A k IH | A s
                 | A req k IH | A pa co k IH | A c k IH | A t _ k IH];
    intros B f w; simpl; auto.
  - destruct (answer_command env (List.length (trace w)) c) as [e r]. apply IH.
  - destruct (start env t w) as [[a | rest | s] w']; auto.
Qed.

(** ** Calls that are not awaited *)

(** Following a task to its end is starting it and then following what
    remains of it. *)
Lemma run_start {A : Type} (env : Env) (p : Prog A) (w : World) :
  run env p w =
  match start env p w with
  | (Settled a, w') => (Done a, w')
  | (Pending rest, w') => run env rest w'
  | (Gone s, w') => (Exited s, w')
  end.
Proof.
  revert w.
  induction p as [A a | A e | A l a k IH | A c cb IH | A h _ k IH | A k IH | A k IH | A s
                 | A req k IH | A pa co k IH | A c k IH | A t _ k IH];
    intros w; simpl; auto.
  - now destruct (answer_command env (List.length (trace w)) c) as [e r].
  - destruct (start env t w) as [[a | rest | s] w']; auto.
Qed.


Lemma run_call (env : Env) (task : Prog unit) (w : World) :
  run env (call task) w =
  match start env task w with
  | (Settled _, w') => (Done tt, w')
  | (Pending rest, w') => (Done tt, park rest w')
  | (Gone s, w') => (Exited s, w')
  end.
Proof. reflexivity. Qed.

(** ** Counting in traces *)

Lemma watch_requests_app (p : string) (t t' : list obs) :
  watch_requests p (t ++ t') = (watch_requests p t + watch_requests p t')%nat.
Proof. unfold watch_requests. now rewrite filter_app, length_app. Qed.

Lemma closes_app (t t' : list obs) :
  closes (t ++ t') = (closes t + closes t')%nat.
Proof. unfold closes. now rewrite filter_app, length_app. Qed.

Lemma error_lines_app (t t' : list obs) :
  error_lines (t ++ t') = error_lines t ++ error_lines t'.
Proof. unfold error_lines, log_of. now rewrite flat_map_app, filter_app. Qed.

Lemma watch_request_counts (p : string) :
  watch_requests p [ORequest (Cmd [VStr "watch-project"; VStr p])] = 1%nat.
Proof. unfold watch_requests. simpl. now rewrite String.eqb_refl. Qed.

Lemma watch_requests_log (p : string) (e : log_entry) :
  watch_requests p [OLog e] = 0%nat.
Proof. reflexivity. Qed.

(** ** The watch registry *)

(** One call of [watchProject] that resolves has issued exactly one
    watch-establish request and resolves with the answer to it. *)
Lemma watchProject_resolved (env : Env) (w w' : World) (p : string) (r : jsval) :
  run env (watchProject p) w = (Done r, w') ->
  watch_requests p (trace w') = (watch_requests p (trace w) + 1)%nat /\
  r = snd (answer_command env (S (List.length (trace w))) (watch_command p)) /\
  (S (List.length (trace w)) < List.length (trace w'))%nat.
Proof.
  unfold watchProject, watch_command. simpl.
  rewrite length_app, Nat.add_comm. simpl.
  destruct (answer_command env _ _) as [[e|] resp]; simpl; [discriminate|].
  destruct resp as [| | b | n | s | items | props]; simpl; try discriminate.
  - intros H. injection H as <- <-. simpl.
    rewrite !watch_requests_app, watch_request_counts, !watch_requests_log,
      !length_app.
    simpl. repeat split; lia.
  - destruct (has_key "warning" props); simpl;
      intros H; injection H as <- <-; simpl;
      rewrite !watch_requests_app, watch_request_counts, !watch_requests_log,
        !length_app; simpl; repeat split; lia.
Qed.

(** C1, as the code has it: nothing is cached.  Two calls of the watch
    operation for the same path issue two watch-establish requests, and
    each call resolves with the answer the service gave to its own
    request. *)
Theorem watch_issues_a_request_per_call
        (env : Env) (w w' : World) (p : string) (first second : jsval) :
  run env (watch_twice p) w = (Done (first, second), w') ->
  watch_requests p (trace w') = (watch_requests p (trace w) + 2)%nat /\
  exists n1 n2 : nat,
    (n1 < n2)%nat /\
    first = snd (answer_command env n1 (watch_command p)) /\
    second = snd (answer_command env n2 (watch_command p)).
Proof.
  unfold watch_twice. rewrite run_bind.
  destruct (run env (watchProject p) w) as [[r1 | e | s] w1] eqn:E1;
    try discriminate.
  rewrite run_bind.
  destruct (run env (watchProject p) w1) as [[r2 | e | s] w2] eqn:E2;
    try discriminate.
  simpl. intros H. injection H as <- <- <-.
  apply watchProject_resolved in E1. apply watchProject_resolved in E2.
  destruct E1 as (C1 & R1 & L1). destruct E2 as (C2 & R2 & L2).
  split; [lia|].
  exists (S (List.length (trace w))), (S (List.length (trace w1))).
  repeat split; auto; lia.
Qed.

Lemma watch_issues_a_request_per_call_witness :
  watch_requests "/repo/app" (trace (snd (run calm_env (watch_twice "/repo/app") empty_world)))
  = 2%nat.
Proof.
  destruct (run calm_env (watch_twice "/repo/app") empty_world) as [o w'] eqn:E.
  assert (H : run calm_env (watch_twice "/repo/app") empty_world
              = (Done (sample_watch, sample_watch), w')).
  { rewrite E. vm_compute in E. injection E as <- <-. reflexivity. }
  apply (watch_issues_a_request_per_call calm_env empty_world "/repo/app") in H.
  simpl. destruct H as [H _]. exact H.
Defined.

(** C1, as stated, fails: the second call for the same path issues a
    second watch-establish request. *)
Lemma watch_is_not_cached :
  watch_requests "/repo/app"
    (trace (snd (run calm_env (watch_twice "/repo/app") empty_world))) <> 1%nat.
Proof. vm_compute. discriminate. Qed.

(** ** Who closes the connection *)

Ltac count_closes :=
  simpl; rewrite ?closes_app; unfold closes; simpl; try lia.

Lemma never_closes_bind {A B : Type} (p : Prog A) (f : A -> Prog B) :
  never_closes p -> (forall a, never_closes (f a)) -> never_closes (bind p f).
Proof.
  revert B f.
  induction p as [A a | A e | A l a k IH | A c cb IH | A h _ k IH | A k IH
                 | A k IH | A s | A req k IH | A pa co k IH | A c k IH
                 | A t _ k IH];
    intros B f Hp Hf; simpl in *; auto; try contradiction;
    destruct Hp as [Hh Hk]; split; auto.
Qed.

Lemma never_closes_try_catch {A : Type} (p : Prog A) (h : exn -> Prog A) :
  never_closes p -> (forall e, never_closes (h e)) -> never_closes (try_catch p h).
Proof.
  revert h.
  induction p as [A a | A e | A l a k IH | A c cb IH | A g _ k IH | A k IH
                 | A k IH | A s | A req k IH | A pa co k IH | A c k IH
                 | A t _ k IH];
    intros h Hp Hh; simpl in *; auto; try contradiction;
    destruct Hp as [Hg Hk]; split; auto.
Qed.

Lemma never_closes_Log {A : Type} (l : level) (a : list log_arg) (k : Prog A) :
  never_closes k -> never_closes (Log l a k).
Proof. intros H. exact H. Qed.

Lemma never_closes_lift {A : Type} (r : exn + A) : never_closes (lift r).
Proof. destruct r; exact I. Qed.

Lemma never_closes_forEach_log (l : level) (all rest : list string) (i : Z) :
  never_closes (forEach_log_from l all i rest).
Proof. revert i. induction rest as [| x rest IH]; intros i; simpl; auto. Qed.

Lemma never_closes_log_if_error {A : Type} (error : option exn) (k : Prog A) :
  never_closes k -> never_closes (log_if_error error k).
Proof. destruct error; simpl; auto. Qed.

(** Starting a program that never closes leaves the number of closes
    as it was, and so does running it. *)
Lemma never_closes_start {A : Type} (env : Env) (p : Prog A) (w : World) :
  never_closes p -> closes (trace (snd (start env p w))) = closes (trace w).
Proof.
  revert w.
  induction p as [A a | A e | A l a k IH | A c cb IH | A h _ k IH | A k IH
                 | A k IH | A s | A req k IH | A pa co k IH | A c k IH
                 | A t IHt k IH];
    intros w Hp; simpl in *; auto; try contradiction.
  - rewrite IH by assumption. count_closes.
  - destruct (answer_command env (List.length (trace w)) c) as [e r].
    count_closes.
  - destruct Hp as [_ Hk]. rewrite IH by assumption. count_closes.
  - rewrite IH by assumption. count_closes.
  - count_closes.
  - count_closes.
  - destruct (answer_write env (List.length (trace w)) pa co); count_closes.
  - count_closes.
  - destruct Hp as [Ht Hk]. specialize (IHt w Ht).
    destruct (start env t w) as [[a | rest | s] w']; cbn [snd] in *;
      [rewrite IH by assumption | rewrite IH by assumption |]; exact IHt.
Qed.

Lemma never_closes_run {A : Type} (env : Env) (p : Prog A) (w : World) :
  never_closes p -> closes (trace (snd (run env p w))) = closes (trace w).
Proof.
  revert w.
  induction p as [A a | A e | A l a k IH | A c cb IH | A h _ k IH | A k IH
                 | A k IH | A s | A req k IH | A pa co k IH | A c k IH
                 | A t _ k IH];
    intros w Hp; simpl in *; auto; try contradiction.
  - rewrite IH by assumption. count_closes.
  - destruct (answer_command env (List.length (trace w)) c) as [e r].
    rewrite IH by auto. count_closes.
  - destruct Hp as [_ Hk]. rewrite IH by assumption. count_closes.
  - rewrite IH by assumption. count_closes.
  - count_closes.
  - rewrite IH by auto. count_closes.
  - rewrite IH by auto.
    destruct (answer_write env (List.length (trace w)) pa co); count_closes.
  - rewrite IH by auto. count_closes.
  - destruct Hp as [Ht Hk].
    pose proof (never_closes_start env t w Ht) as Hs.
    destruct (start env t w) as [[a | rest | s] w']; cbn [snd] in *;
      [rewrite IH by assumption | rewrite IH by assumption |]; exact Hs.
Qed.

Lemma watchProject_never_closes (p : string) : never_closes (watchProject p).
Proof.
  unfold watchProject. simpl. intros [e |] r; simpl; [exact I|].
  apply never_closes_bind; [apply never_closes_lift|].
  intros has. apply never_closes_bind.
  - destruct has; [|exact I].
    apply never_closes_bind; [apply never_closes_lift|]. intros; exact I.
  - intros _. apply never_closes_bind; [apply never_closes_lift|]. intros.
    apply never_closes_bind; [apply never_closes_lift|]. intros. exact I.
Qed.

Lemma dispatcher_never_closes (i : string) (callback : event -> Prog unit) :
  (forall ev, never_closes (callback ev)) ->
  forall ev, never_closes (dispatcher i callback ev).
Proof.
  intros H ev. unfold dispatcher.
  destruct (negb (subscription ev =? i)%string); [exact I|].
  apply never_closes_Log.
  apply never_closes_bind; [apply never_closes_lift|]. intros names.
  apply never_closes_Log. unfold call. simpl. auto.
Qed.

Lemma subscribe_never_closes (resolve_path : string -> string -> string)
      (root : string) (spec : subscription_spec) (callback : event -> Prog unit) :
  (forall ev, never_closes (callback ev)) ->
  never_closes (subscribe resolve_path root spec callback).
Proof.
  intros H. unfold subscribe.
  apply never_closes_bind; [apply watchProject_never_closes|]. intros project.
  apply never_closes_bind; [apply never_closes_lift|]. intros watch.
  simpl. intros e r. unfold on_clock.
  apply never_closes_bind; [apply never_closes_lift|]. intros since.
  apply never_closes_log_if_error.
  apply never_closes_bind; [apply never_closes_lift|]. intros rel.
  simpl. intros e' r'. unfold on_subscribed.
  apply never_closes_log_if_error.
  apply never_closes_bind; [apply never_closes_lift|]. intros sub.
  simpl. split; [|exact I]. now apply dispatcher_never_closes.
Qed.

Lemma compile_never_closes : never_closes compileRelayGeneratedArtifacts.
Proof.
  unfold compileRelayGeneratedArtifacts.
  apply never_closes_try_catch.
  - simpl. intros [out err | e]; [apply never_closes_forEach_log | exact I].
  - intros [what | m | e | m]; try exact I.
    destruct (code_is_not_zero (code e)); [apply never_closes_forEach_log | exact I].
Qed.

Lemma sync_never_closes (query : string) :
  never_closes (syncGraphqlSchemaToDisk query).
Proof.
  unfold syncGraphqlSchemaToDisk. simpl. intros [e | response]; simpl; [exact I|].
  destruct (ok response); simpl; [|exact I].
  destruct (json response) as [e | parsed]; simpl; [exact I|].
  apply never_closes_try_catch; [|intros; exact I].
  apply never_closes_bind; [apply never_closes_lift|]. intros data.
  apply never_closes_bind; [apply never_closes_lift|]. intros errors.
  destruct (truthy errors); simpl; [exact I|].
  intros [| e left_on_disk]; exact I.
Qed.

Lemma graphHandler_never_closes (query : string) (ev : event) :
  never_closes (graphHandler query ev).
Proof.
  unfold graphHandler. apply never_closes_bind; [apply sync_never_closes|].
  intros _. apply compile_never_closes.
Qed.

Lemma start_subscriptions_never_close
      (query : string) (resolve_path : string -> string -> string) (root : string) :
  Forall never_closes (start_subscriptions query resolve_path root).
Proof.
  unfold start_subscriptions. repeat constructor.
  - apply subscribe_never_closes. apply graphHandler_never_closes.
  - apply subscribe_never_closes. intros ev. apply compile_never_closes.
Qed.

Lemma run_checkCapability (env : Env) (w : World) :
  run env checkCapability w =
  match answer_command env (List.length (trace w)) probe_command with
  | (Some e, _) =>
      (Exited 1,
       observe (OExit 1)
         (observe OEnd
            (observe (OLog (LogEntry LError [AErr e]))
               (observe (ORequest probe_command) w))))
  | (None, r) => (Done r, observe (ORequest probe_command) w)
  end.
Proof.
  unfold checkCapability, probe_command. simpl.
  now destruct (answer_command env (List.length (trace w)) _) as [[e |] r].
Qed.

Lemma start_sequence_after_probe_never_closes (query : string) (response : jsval) :
  never_closes
    (version <- lift (prop "version" response) ;;
     Log LInfo [AStr "Starting GraphWatcher (Watchman: %s)"; AVal version]
       (syncGraphqlSchemaToDisk query ;;
        compileRelayGeneratedArtifacts ;;
        Log LInfo
          [AStr "Setting up subscriptions for GraphQL / Relay filesystem events"]
          (Ret tt)))%prog.
Proof.
  apply never_closes_bind; [apply never_closes_lift|]. intros version.
  apply never_closes_Log.
  apply never_closes_bind; [apply sync_never_closes|]. intros _.
  apply never_closes_bind; [apply compile_never_closes|]. intros _. exact I.
Qed.

(** C9, as the code has it: the connection is closed on the shutdown
    path and on the failure path of the capability check, once each and
    right before the process exits; no other code path closes it, the
    dispatchers and the callbacks they call included. *)
Theorem connection_closed_on_the_two_exit_paths
        (env : Env) (w : World) (query : string)
        (resolve_path : string -> string -> string) (root : string) :
  let closed (A : Type) (p : Prog A) := closes (trace (snd (run env p w))) in
  (forall signal,
      fst (run env (signalHandler signal) w) = Exited 0 /\
      closed unit (signalHandler signal) = S (closes (trace w))) /\
  match fst (answer_command env (List.length (trace w)) probe_command) with
  | Some _ =>
      fst (run env checkCapability w) = Exited 1 /\
      closed jsval checkCapability = S (closes (trace w)) /\
      closed unit (start_sequence query) = S (closes (trace w))
  | None =>
      closed jsval checkCapability = closes (trace w) /\
      closed unit (start_sequence query) = closes (trace w)
  end /\
  (forall p, closed jsval (watchProject p) = closes (trace w)) /\
  closed unit (syncGraphqlSchemaToDisk query) = closes (trace w) /\
  closed unit compileRelayGeneratedArtifacts = closes (trace w) /\
  Forall (fun task => closed unit task = closes (trace w))
         (start_subscriptions query resolve_path root) /\
  (forall ev,
      closed unit (dispatcher (id SUBSCRIPTIONS_graph) (graphHandler query) ev)
      = closes (trace w) /\
      closed unit (dispatcher (id SUBSCRIPTIONS_frontend) frontendHandler ev)
      = closes (trace w) /\
      closed unit (graphHandler query ev) = closes (trace w) /\
      closed unit (frontendHandler ev) = closes (trace w)).
Proof.
  intros closed. subst closed. cbv beta.
  split; [|split; [|split; [|split; [|split; [|split]]]]].
  - intros signal. split; [reflexivity | count_closes].
  - unfold start_sequence. rewrite run_bind, run_checkCapability.
    destruct (answer_command env (List.length (trace w)) _) as [[e |] r].
    + repeat split; count_closes.
    + split; [count_closes|].
      rewrite never_closes_run
        by apply start_sequence_after_probe_never_closes.
      count_closes.
  - intros p. apply never_closes_run, watchProject_never_closes.
  - apply never_closes_run, sync_never_closes.
  - apply never_closes_run, compile_never_closes.
  - eapply Forall_impl; [|apply start_subscriptions_never_close].
    intros task H. now apply never_closes_run.
  - intros ev. repeat split.
    + apply never_closes_run, dispatcher_never_closes.
      apply graphHandler_never_closes.
    + apply never_closes_run, dispatcher_never_closes.
      intros ev'. apply compile_never_closes.
    + apply never_closes_run, graphHandler_never_closes.
    + apply never_closes_run, compile_never_closes.
Qed.

(** C9, as stated, fails: a failed capability check closes the
    connection although no termination signal was handled. *)
Lemma capability_failure_closes_the_connection :
  fst (run failing_env checkCapability empty_world) = Exited 1 /\
  closes (trace (snd (run failing_env checkCapability empty_world)))
  <> closes (trace empty_world) /\
  trace (snd (run failing_env checkCapability empty_world))
  = [ORequest probe_command;
     OLog (LogEntry LError [AErr (ServiceError "unable to resolve root")]);
     OEnd; OExit 1].
Proof. vm_compute. repeat split. discriminate. Qed.

(** ** The code generator *)

Lemma extend_nil (w : World) : extend [] w = w.
Proof. destruct w. unfold extend. simpl. now rewrite List.app_nil_r. Qed.

Lemma extend_extend (t t' : list obs) (w : World) :
  extend t' (extend t w) = extend (t ++ t') w.
Proof. unfold extend. simpl. now rewrite List.app_assoc. Qed.

Lemma trace_extend (t : list obs) (w : World) :
  trace (extend t w) = trace w ++ t.
Proof. reflexivity. Qed.

Lemma observe_extend (o : obs) (w : World) : observe o w = extend [o] w.
Proof. reflexivity. Qed.

Lemma run_forEach_log_from (env : Env) (l : level) (all rest : list string)
      (i : Z) (w : World) :
  run env (forEach_log_from l all i rest) w
  = (Done tt, extend (logged_lines_from l all i rest) w).
Proof.
  revert i w. induction rest as [| line rest IH]; intros i w; simpl.
  - now rewrite extend_nil.
  - rewrite IH, observe_extend, extend_extend. reflexivity.
Qed.

Lemma run_forEach_log (env : Env) (l : level) (lines : list string) (w : World) :
  run env (forEach_log l lines) w = (Done tt, extend (logged_lines l lines) w).
Proof. apply run_forEach_log_from. Qed.

(** [slice(4, -1)] is the trimming the specification describes. *)
Lemma slice_drops_framing (lines : list string) :
  slice 4 (-1) lines = drop_framing lines.
Proof.
  unfold slice, drop_framing.
  change (4 <? 0) with false. change (-1 <? 0) with true. cbv iota.
  rewrite removelast_firstn_len, length_skipn.
  destruct (Nat.le_gt_cases (List.length lines) 4) as [Hle | Hgt].
  - rewrite (@skipn_all2 _ 4) by assumption.
    replace (Z.to_nat (Z.min 4 (Z.of_nat (List.length lines))))
      with (List.length lines) by lia.
    rewrite skipn_all. now rewrite !firstn_nil.
  - replace (Z.to_nat (Z.min 4 (Z.of_nat (List.length lines)))) with 4%nat by lia.
    f_equal. lia.
Qed.

Lemma code_is_not_zero_iff (c : exit_code) :
  code_is_not_zero c = true <-> c <> ExitStatus 0.
Proof.
  destruct c as [n | | s]; simpl; try (split; [discriminate | reflexivity]).
  rewrite negb_true_iff, Z.eqb_neq. split; [congruence|].
  intros H E. apply H. now subst.
Qed.

Lemma try_catch_forEach_log_from (l : level) (all rest : list string) (i : Z)
      (h : exn -> Prog unit) :
  try_catch (forEach_log_from l all i rest) h = forEach_log_from l all i rest.
Proof.
  revert i. induction rest as [| line rest IH]; intros i; simpl; [reflexivity|].
  now rewrite IH.
Qed.

Lemma run_compile (env : Env) (w : World) :
  run env compileRelayGeneratedArtifacts w =
  (Done tt,
   extend
     (compile_started ++
      match answer_exec env (S (List.length (trace w))) compile_command with
      | ExecResolved out _ => logged_lines LInfo (slice 4 (-1) (split LF out))
      | ExecRejected e =>
          if code_is_not_zero (code e)
          then logged_lines LError (slice 4 (-1) (split LF (stdout e)))
          else []
      end) w).
Proof.
  unfold compileRelayGeneratedArtifacts, compile_started, compile_command.
  cbn [try_catch run].
  rewrite !observe_extend, extend_extend.
  cbn [trace extend]. rewrite length_app, Nat.add_comm. cbn [List.length Nat.add].
  destruct (answer_exec env _ _) as [out err | e].
  - unfold forEach_log. rewrite try_catch_forEach_log_from, run_forEach_log_from.
    now rewrite extend_extend.
  - cbn [try_catch]. destruct (code_is_not_zero (code e)).
    + rewrite run_forEach_log. now rewrite extend_extend.
    + cbn [run]. now rewrite List.app_nil_r.
Qed.

Lemma messages_logged_lines_from (l : level) (all rest : list string) (i : Z) :
  messages (logged_lines_from l all i rest)
  = map (fun line => (l, Some (AStr line))) rest.
Proof.
  revert i. induction rest as [| line rest IH]; intros i; [reflexivity|].
  unfold messages in *. simpl. now rewrite IH.
Qed.

(** C6: when the compiler subprocess fails, [run()] logs its standard
    output at error level, one line each and in order, without the first
    four lines and the final line, and then returns normally; listeners
    and files are as they were. *)
Theorem failed_compile_is_logged_and_contained
        (env : Env) (w : World) (e : exec_error) :
  answer_exec env (S (List.length (trace w))) compile_command = ExecRejected e ->
  code e <> ExitStatus 0 ->
  let kept := drop_framing (split LF (stdout e)) in
  run env compileRelayGeneratedArtifacts w
  = (Done tt, extend (compile_started ++ logged_lines LError kept) w) /\
  messages (logged_lines LError kept)
  = map (fun line => (LError, Some (AStr line))) kept.
Proof.
  intros Hexec Hcode kept. split.
  - rewrite run_compile, Hexec.
    apply code_is_not_zero_iff in Hcode. rewrite Hcode.
    now rewrite slice_drops_framing.
  - apply messages_logged_lines_from.
Qed.

Lemma failed_compile_is_logged_and_contained_witness :
  run (compile_env (ExecRejected failed_compile)) compileRelayGeneratedArtifacts
      empty_world
  = (Done tt,
     extend
       (compile_started ++
        logged_lines LError ["ERROR:"; "Unknown field 'slug' on type 'Team'"])
       empty_world).
Proof.
  pose proof (@failed_compile_is_logged_and_contained
                (compile_env (ExecRejected failed_compile)) empty_world
                failed_compile) as H.
  simpl in H. destruct H as [H _]; [reflexivity | discriminate |].
  exact H.
Defined.

(** ** The schema synchronizer *)

Lemma added_extend {A : Type} (env : Env) (p : Prog A) (w : World) (t : list obs) :
  trace (snd (run env p w)) = trace w ++ t -> added env p w = t.
Proof.
  intros H. unfold added. rewrite H.
  rewrite skipn_app, skipn_all, Nat.sub_diag. reflexivity.
Qed.

Lemma start_extends {A : Type} (env : Env) (p : Prog A) (w : World) :
  exists t, trace (snd (start env p w)) = trace w ++ t.
Proof.
  revert w.
  induction p as [A a | A e | A l a k IH | A c cb IH | A h _ k IH | A k IH
                 | A k IH | A s | A req k IH | A pa co k IH | A c k IH
                 | A t IHt k IH];
    intros w; simpl.
  - exists []. now rewrite List.app_nil_r.
  - exists []. now rewrite List.app_nil_r.
  - destruct (IH (observe (OLog (LogEntry l a)) w)) as [t H].
    rewrite H. simpl. rewrite <- List.app_assoc. eauto.
  - destruct (answer_command env (List.length (trace w)) c) as [e r].
    simpl. eauto.
  - destruct (IH (add_listener h w)) as [t H].
    rewrite H. simpl. rewrite <- List.app_assoc. eauto.
  - destruct (IH (observe OEnd w)) as [t H].
    rewrite H. simpl. rewrite <- List.app_assoc. eauto.
  - destruct (IH (observe OConsole w)) as [t H].
    rewrite H. simpl. rewrite <- List.app_assoc. eauto.
  - eauto.
  - eauto.
  - destruct (answer_write env (List.length (trace w)) pa co); simpl; eauto.
  - eauto.
  - destruct (IHt w) as [t1 H1].
    destruct (start env t w) as [[a | rest | s] w']; cbn [snd] in H1.
    + destruct (IH w') as [t2 H2]. rewrite H2, H1, <- List.app_assoc. eauto.
    + destruct (IH (park rest w')) as [t2 H2].
      rewrite H2. cbn [park trace]. rewrite H1, <- List.app_assoc. eauto.
    + cbn [snd]. eauto.
Qed.

Lemma run_extends {A : Type} (env : Env) (p : Prog A) (w : World) :
  trace (snd (run env p w)) = trace w ++ added env p w.
Proof.
  enough (H : exists t, trace (snd (run env p w)) = trace w ++ t).
  { destruct H as [t H]. now rewrite (@added_extend _ _ _ _ _ H). }
  revert w.
  induction p as [A a | A e | A l a k IH | A c cb IH | A h _ k IH | A k IH
                 | A k IH | A s | A req k IH | A pa co k IH | A c k IH
                 | A t _ k IH];
    intros w; simpl.
  - exists []. now rewrite List.app_nil_r.
  - exists []. now rewrite List.app_nil_r.
  - destruct (IH (observe (OLog (LogEntry l a)) w)) as [t H].
    rewrite H. simpl. rewrite <- List.app_assoc. eauto.
  - destruct (answer_command env (List.length (trace w)) c) as [e r].
    destruct (IH e r (observe (ORequest c) w)) as [t H].
    rewrite H. simpl. rewrite <- List.app_assoc. eauto.
  - destruct (IH (add_listener h w)) as [t H].
    rewrite H. simpl. rewrite <- List.app_assoc. eauto.
  - destruct (IH (observe OEnd w)) as [t H].
    rewrite H. simpl. rewrite <- List.app_assoc. eauto.
  - destruct (IH (observe OConsole w)) as [t H].
    rewrite H. simpl. rewrite <- List.app_assoc. eauto.
  - eauto.
  - destruct (IH (answer_fetch env (List.length (trace w)) req)
                 (observe (OFetch req) w)) as [t H].
    rewrite H. simpl. rewrite <- List.app_assoc. eauto.
  - match goal with
    | |- context [run env (k ?r) ?w'] => destruct (IH r w') as [t H]
    end.
    rewrite H.
    destruct (answer_write env (List.length (trace w)) pa co); simpl;
      rewrite <- List.app_assoc; eauto.
  - destruct (IH (answer_exec env (List.length (trace w)) c)
                 (observe (OExec c) w)) as [t H].
    rewrite H. simpl. rewrite <- List.app_assoc. eauto.
  - destruct (start_extends env t w) as [t1 H1].
    destruct (start env t w) as [[a | rest | s] w']; cbn [snd] in H1.
    + destruct (IH w') as [t2 H2]. rewrite H2, H1, <- List.app_assoc. eauto.
    + destruct (IH (park rest w')) as [t2 H2].
      rewrite H2. cbn [park trace]. rewrite H1, <- List.app_assoc. eauto.
    + cbn [snd]. eauto.
Qed.

(** What a run of the synchronizer amounts to. *)
Lemma run_sync (env : Env) (query : string) (w : World) :
  run env (syncGraphqlSchemaToDisk query) w =
  (Done tt,
   match sync_view_of (answer_fetch env (S (List.length (trace w)))
                                    (sync_request query)) with
   | Failure entry => extend (sync_started query ++ [OLog entry]) w
   | Snapshot content =>
       match answer_write env (S (S (List.length (trace w)))) SCHEMA_PATH content with
       | WriteOk =>
           observe sync_finished
             (store SCHEMA_PATH (Some content)
                (extend (sync_started query ++ [OWrite SCHEMA_PATH content]) w))
       | WriteFailed e left_on_disk =>
           observe (OLog (error_reported e))
             (store SCHEMA_PATH left_on_disk
                (extend (sync_started query ++ [OWrite SCHEMA_PATH content]) w))
       end
   end).
Proof.
  unfold syncGraphqlSchemaToDisk, sync_started.
  cbn [run try_catch].
  rewrite !observe_extend, extend_extend.
  cbn [trace extend]. rewrite length_app, Nat.add_comm. cbn [List.length Nat.add].
  destruct (answer_fetch env _ _) as [e | r]; cbn [sync_view_of try_catch run].
  { now rewrite observe_extend, extend_extend, <- List.app_assoc. }
  destruct (ok r); cbn [try_catch run].
  2: { now rewrite observe_extend, extend_extend, <- List.app_assoc. }
  destruct (json r) as [e | parsed]; cbn [try_catch run].
  { now rewrite observe_extend, extend_extend, <- List.app_assoc. }
  destruct (prop "data" parsed) as [e | data]; cbn [lift bind try_catch run].
  { now rewrite observe_extend, extend_extend, <- List.app_assoc. }
  destruct (prop "errors" parsed) as [e | errors]; cbn [lift bind try_catch run].
  { now rewrite observe_extend, extend_extend, <- List.app_assoc. }
  destruct (truthy errors); cbn [try_catch run].
  { now rewrite observe_extend, extend_extend, <- List.app_assoc. }
  rewrite trace_extend, !length_app. cbn [List.length].
  replace (List.length (trace w) + (1 + 1))%nat
    with (S (S (List.length (trace w)))) by lia.
  fold (snapshot_of data).
  destruct (answer_write env _ _ _) as [| e left_on_disk];
    cbn [after_write try_catch run];
    rewrite (observe_extend (OWrite _ _)), extend_extend, <- List.app_assoc;
    reflexivity.
Qed.

Lemma sync_failure_is_error_level (fetched : fetch_result) (entry : log_entry) :
  sync_view_of fetched = Failure entry -> lvl entry = LError.
Proof.
  unfold sync_view_of.
  destruct fetched as [e | r]; [intros H; now injection H as <-|].
  destruct (ok r); [|intros H; now injection H as <-].
  destruct (json r) as [e | parsed]; [intros H; now injection H as <-|].
  destruct (prop "data" parsed) as [e | data]; [intros H; now injection H as <-|].
  destruct (prop "errors" parsed) as [e | errors]; [intros H; now injection H as <-|].
  destruct (truthy errors); [intros H; now injection H as <-|discriminate].
Qed.

Lemma added_sync_failure (env : Env) (query : string) (w : World) (entry : log_entry) :
  sync_view_of (answer_fetch env (S (List.length (trace w))) (sync_request query))
  = Failure entry ->
  added env (syncGraphqlSchemaToDisk query) w = sync_started query ++ [OLog entry] /\
  disk (snd (run env (syncGraphqlSchemaToDisk query) w)) = disk w.
Proof.
  intros H. split.
  - apply added_extend. now rewrite run_sync, H.
  - now rewrite run_sync, H.
Qed.

(** C4, as the code has it: when the endpoint answers with a
    non-success status, or with a body whose [errors] property is
    truthy, the synchronizer logs one error-level line and issues no
    write, so the files are as they were; its promise still fulfils, no
    error is handed to the caller. *)
Theorem failed_sync_writes_nothing
        (env : Env) (query : string) (w : World) (r : http_response) :
  answer_fetch env (S (List.length (trace w))) (sync_request query)
  = FetchResolved r ->
  (ok r = false \/
   exists props, json r = JsonParsed (VObj props) /\
                 truthy (lookup "errors" props) = true) ->
  fst (run env (syncGraphqlSchemaToDisk query) w) = Done tt /\
  disk (snd (run env (syncGraphqlSchemaToDisk query) w)) = disk w /\
  filter is_write (added env (syncGraphqlSchemaToDisk query) w) = [] /\
  exists entry,
    lvl entry = LError /\
    added env (syncGraphqlSchemaToDisk query) w = sync_started query ++ [OLog entry].
Proof.
  intros Hfetch Hfail.
  assert (Hview : exists entry,
             sync_view_of (answer_fetch env (S (List.length (trace w)))
                                        (sync_request query)) = Failure entry).
  { rewrite Hfetch. unfold sync_view_of.
    destruct (ok r) eqn:Hok; [|eauto].
    destruct Hfail as [Hno | (props & Hjson & Herrors)]; [discriminate|].
    rewrite Hjson. simpl. rewrite Herrors. eauto. }
  destruct Hview as [entry Hview].
  destruct (added_sync_failure env query w Hview) as [Hadded Hdisk].
  split; [now rewrite run_sync|].
  split; [assumption|].
  split; [now rewrite Hadded|].
  exists entry. split; [|assumption].
  now apply sync_failure_is_error_level in Hview.
Qed.

Lemma failed_sync_writes_nothing_witness :
  disk (snd (run graphql_errors_env (syncGraphqlSchemaToDisk sample_query)
                 synced_world)) SCHEMA_PATH
  = Some old_snapshot.
Proof.
  pose proof (@failed_sync_writes_nothing graphql_errors_env sample_query
                synced_world _ eq_refl) as H.
  destruct H as (_ & H & _).
  - right. eexists. split; reflexivity.
  - rewrite H. reflexivity.
Defined.

(** C4, as stated, fails twice over: after a 503 the promise fulfils as
    it does after a success, so no error is returned; and a body whose
    [errors] property is [null] is written to the snapshot file. *)
Lemma failed_sync_returns_no_error :
  fst (run unavailable_env (syncGraphqlSchemaToDisk sample_query) synced_world)
  = Done tt /\
  disk (snd (run null_errors_env (syncGraphqlSchemaToDisk sample_query)
                 synced_world)) SCHEMA_PATH
  = Some (snapshot_of (VObj [("x", VNum (Number 1 eq_refl))])) /\
  snapshot_of (VObj [("x", VNum (Number 1 eq_refl))]) <> old_snapshot.
Proof. vm_compute. repeat split. discriminate. Qed.

(** C10, as the code has it: the promise of the synchronizer always
    fulfils, and every failure is logged at error level.  A transport
    error, a non-success status, a body that cannot be parsed, a body
    that is [null] or [undefined] and a body with truthy [errors] each
    log their own line, issue no write and leave every file as it was.
    A rejected write is caught and logged as well, but then the
    snapshot file holds what the failed write left of it; the other
    files are as they were. *)
Theorem sync_never_rejects (env : Env) (query : string) (w : World) :
  let fetched :=
    answer_fetch env (S (List.length (trace w))) (sync_request query) in
  let w' := snd (run env (syncGraphqlSchemaToDisk query) w) in
  let seen := added env (syncGraphqlSchemaToDisk query) w in
  let logs (entry : log_entry) :=
    seen = sync_started query ++ [OLog entry] /\ disk w' = disk w in
  fst (run env (syncGraphqlSchemaToDisk query) w) = Done tt /\
  (forall e, fetched = FetchRejected e -> logs (error_reported e)) /\
  (forall r, fetched = FetchResolved r -> ok r = false -> logs (status_reported r)) /\
  (forall r e, fetched = FetchResolved r -> ok r = true ->
               json r = JsonRejected e ->
               logs (error_reported e)) /\
  (forall r parsed, fetched = FetchResolved r -> ok r = true ->
                    json r = JsonParsed parsed ->
                    parsed = VNull \/ parsed = VUndef ->
                    logs (error_reported (TypeError "data"))) /\
  (forall r parsed data errors,
      fetched = FetchResolved r -> ok r = true -> json r = JsonParsed parsed ->
      prop "data" parsed = inr data -> prop "errors" parsed = inr errors ->
      truthy errors = true ->
      logs (error_reported (Error (stringify_or_empty errors 2)))) /\
  (forall r parsed data items,
      fetched = FetchResolved r -> ok r = true -> json r = JsonParsed parsed ->
      prop "data" parsed = inr data -> prop "errors" parsed = inr (VArr items) ->
      logs (error_reported (Error (stringify_or_empty (VArr items) 2)))) /\
  (forall r parsed data errors e left_on_disk,
      fetched = FetchResolved r -> ok r = true -> json r = JsonParsed parsed ->
      prop "data" parsed = inr data -> prop "errors" parsed = inr errors ->
      truthy errors = false ->
      answer_write env (S (S (List.length (trace w)))) SCHEMA_PATH (snapshot_of data)
      = WriteFailed e left_on_disk ->
      seen = sync_started query
               ++ [OWrite SCHEMA_PATH (snapshot_of data); OLog (error_reported e)] /\
      disk w' SCHEMA_PATH = left_on_disk /\
      forall p, p <> SCHEMA_PATH -> disk w' p = disk w p).
Proof.
  intros fetched w' seen logs. subst w' seen logs. cbv beta.
  split; [now rewrite run_sync|].
  split; [|split; [|split; [|split; [|split; [|split]]]]].
  - intros e He. apply added_sync_failure. fold fetched. now rewrite He.
  - intros r Hr Hok. apply added_sync_failure. fold fetched.
    rewrite Hr. unfold sync_view_of. now rewrite Hok.
  - intros r e Hr Hok Hjson. apply added_sync_failure. fold fetched.
    rewrite Hr. unfold sync_view_of. now rewrite Hok, Hjson.
  - intros r parsed Hr Hok Hjson Hparsed. apply added_sync_failure. fold fetched.
    rewrite Hr. unfold sync_view_of. rewrite Hok, Hjson.
    now destruct Hparsed as [-> | ->].
  - intros r parsed data errors Hr Hok Hjson Hdata Herrors Htruthy.
    apply added_sync_failure. fold fetched.
    rewrite Hr. unfold sync_view_of. now rewrite Hok, Hjson, Hdata, Herrors, Htruthy.
  - intros r parsed data items Hr Hok Hjson Hdata Herrors.
    apply added_sync_failure. fold fetched.
    rewrite Hr. unfold sync_view_of. now rewrite Hok, Hjson, Hdata, Herrors.
  - intros r parsed data errors e left_on_disk Hr Hok Hjson Hdata Herrors Hfalsy Hwrite.
    assert (Hrun : run env (syncGraphqlSchemaToDisk query) w
                   = (Done tt,
                      observe (OLog (error_reported e))
                        (store SCHEMA_PATH left_on_disk
                           (extend (sync_started query
                                      ++ [OWrite SCHEMA_PATH (snapshot_of data)]) w)))).
    { rewrite run_sync. fold fetched. rewrite Hr. unfold sync_view_of.
      rewrite Hok, Hjson, Hdata, Herrors, Hfalsy. now rewrite Hwrite. }
    split; [|split].
    + apply added_extend. rewrite Hrun. simpl. now rewrite <- !List.app_assoc.
    + rewrite Hrun. unfold observe, store. cbn [snd disk].
      now rewrite String.eqb_refl.
    + intros p Hp. rewrite Hrun. unfold observe, store. cbn [snd disk].
      apply String.eqb_neq in Hp. now rewrite Hp.
Qed.

Lemma sync_never_rejects_witness :
  fst (run unreachable_env (syncGraphqlSchemaToDisk sample_query) synced_world)
  = Done tt /\
  disk (snd (run unreachable_env (syncGraphqlSchemaToDisk sample_query)
                 synced_world)) SCHEMA_PATH
  = Some old_snapshot /\
  error_lines (added graphql_errors_env (syncGraphqlSchemaToDisk sample_query)
                     synced_world)
  = [error_reported
       (Error (lines ["[";
                      "  {";
                      "    'message': 'Not authorised'";
                      "  }";
                      "]"]))].
Proof.
  pose proof (sync_never_rejects unreachable_env sample_query synced_world) as H.
  cbv zeta in H. destruct H as (Hdone & Hreject & _).
  split; [exact Hdone|]. split.
  - destruct (Hreject (Error "ECONNREFUSED") eq_refl) as [_ Hdisk].
    rewrite Hdisk. reflexivity.
  - pose proof (sync_never_rejects graphql_errors_env sample_query synced_world)
      as Herrors.
    cbv zeta in Herrors. destruct Herrors as (_ & _ & _ & _ & _ & _ & Herrors & _).
    destruct (Herrors _ _ VUndef _ eq_refl eq_refl eq_refl eq_refl eq_refl)
      as [Hseen _].
    rewrite Hseen. reflexivity.
Defined.

(** C10, as stated, fails on one failure mode: when the write itself is
    rejected, the error is caught and logged and the promise fulfils,
    but the snapshot file is not as it was: here the failed write has
    truncated it. *)
Lemma failed_write_leaves_a_changed_snapshot :
  fst (run truncating_env (syncGraphqlSchemaToDisk sample_query) synced_world)
  = Done tt /\
  error_lines (added truncating_env (syncGraphqlSchemaToDisk sample_query)
                     synced_world)
  = [error_reported (Error "ENOSPC: no space left on device")] /\
  disk synced_world SCHEMA_PATH = Some old_snapshot /\
  disk (snd (run truncating_env (syncGraphqlSchemaToDisk sample_query)
                 synced_world)) SCHEMA_PATH
  = Some EmptyString /\
  old_snapshot <> EmptyString.
Proof. vm_compute. repeat split. discriminate. Qed.

(** ** Event routing *)

Lemma run_then_done (env : Env) (p : Prog unit) (w : World) :
  run env (p ;; Ret tt)%prog w = run env p w.
Proof.
  rewrite run_bind. now destruct (run env p w) as [[[] | e | s] w'].
Qed.

Lemma file_names_listed (ev : event) :
  files ev <> None -> file_names ev = inr (names_of ev).
Proof. unfold file_names, names_of. destruct (files ev); congruence. Qed.

Lemma run_dispatcher_same (env : Env) (i : string) (callback : event -> Prog unit)
      (ev : event) (w : World) :
  subscription ev = i -> files ev <> None ->
  run env (dispatcher i callback ev) w
  = run env (call (callback ev)) (extend (announced ev) w).
Proof.
  intros <- Hfiles. unfold dispatcher. rewrite String.eqb_refl.
  rewrite (@file_names_listed ev Hfiles). cbn [negb lift bind run].
  now rewrite !observe_extend, extend_extend.
Qed.

Lemma run_dispatcher_other (env : Env) (i : string) (callback : event -> Prog unit)
      (ev : event) (w : World) :
  subscription ev <> i ->
  run env (dispatcher i callback ev) w = (Done tt, w).
Proof.
  intros H. unfold dispatcher.
  apply String.eqb_neq in H. now rewrite H.
Qed.

Lemma run_emit_first (env : Env) (i j : string) (f g : event -> Prog unit)
      (ev : event) (w : World) :
  subscription ev = i -> i <> j -> files ev <> None ->
  run env (emit_to [dispatcher i f; dispatcher j g] ev) w
  = run env (call (f ev)) (extend (announced ev) w).
Proof.
  intros Hi Hij Hfiles. cbn [emit_to].
  rewrite run_bind, run_dispatcher_same by assumption.
  destruct (run env (call (f ev)) (extend (announced ev) w)) as [[[] | e | s] w'];
    try reflexivity.
  rewrite run_then_done. apply run_dispatcher_other. congruence.
Qed.

Lemma run_emit_second (env : Env) (i j : string) (f g : event -> Prog unit)
      (ev : event) (w : World) :
  subscription ev = i -> i <> j -> files ev <> None ->
  run env (emit_to [dispatcher j g; dispatcher i f] ev) w
  = run env (call (f ev)) (extend (announced ev) w).
Proof.
  intros Hi Hij Hfiles. cbn [emit_to].
  rewrite run_bind, run_dispatcher_other by congruence.
  rewrite run_then_done. now apply run_dispatcher_same.
Qed.


(** C5: an event is routed by exact match on its subscription id.  With
    the dispatchers of two subscriptions [A] and [B] listening, in
    either order, emitting a batch of files tagged with [A]'s id amounts
    to one call of [A]'s handler on that event, file list included,
    after the dispatcher's two log calls; [B]'s handler is not part of
    it.  The call is not awaited: the emit returns when the handler has
    ended or first has to wait, and in the latter case what remains of
    the handler, resumed, is the rest of that one run of it.  An event
    with any other id leaves [A]'s dispatcher without effect. *)
Theorem events_are_routed_by_exact_id
        (env : Env) (w : World) (idA idB : string)
        (handlerA handlerB : event -> Prog unit) (ev : event) :
  subscription ev = idA -> idA <> idB -> files ev <> None ->
  run env (emit_to [dispatcher idA handlerA; dispatcher idB handlerB] ev) w
  = run env (call (handlerA ev)) (extend (announced ev) w) /\
  run env (emit_to [dispatcher idB handlerB; dispatcher idA handlerA] ev) w
  = run env (call (handlerA ev)) (extend (announced ev) w) /\
  match start env (handlerA ev) (extend (announced ev) w) with
  | (Settled _, w') =>
      run env (call (handlerA ev)) (extend (announced ev) w) = (Done tt, w') /\
      run env (handlerA ev) (extend (announced ev) w) = (Done tt, w')
  | (Pending rest, w') =>
      run env (call (handlerA ev)) (extend (announced ev) w) = (Done tt, park rest w') /\
      run env rest w' = run env (handlerA ev) (extend (announced ev) w)
  | (Gone status, w') =>
      run env (call (handlerA ev)) (extend (announced ev) w) = (Exited status, w') /\
      run env (handlerA ev) (extend (announced ev) w) = (Exited status, w')
  end /\
  (forall other, subscription other <> idA ->
                 run env (dispatcher idA handlerA other) w = (Done tt, w)).
Proof.
  intros HA Hdiff Hfiles. split; [|split; [|split]].
  - now apply run_emit_first.
  - now apply run_emit_second.
  - rewrite run_call, (run_start env (handlerA ev)).
    now destruct (start env (handlerA ev) (extend (announced ev) w))
      as [[[] | rest | status] w'].
  - intros other Hother. now apply run_dispatcher_other.
Qed.

Lemma events_are_routed_by_exact_id_witness :
  let t := trace (snd (run calm_env
                           (emit_to [dispatcher "graph" (heard "A");
                                     dispatcher "frontend" (heard "B")]
                                    graph_event)
                           empty_world)) in
  times_heard "A" t = 1%nat /\ times_heard "B" t = 0%nat /\
  In (OLog (LogEntry LInfo
              [AStr "A";
               AList ["app/models/api/graph/team.rb";
                      "app/models/api/graph/build.rb"]])) t.
Proof.
  intros t. subst t.
  destruct (@events_are_routed_by_exact_id calm_env empty_world "graph" "frontend"
              (heard "A") (heard "B") graph_event) as (H & _ & _).
  - reflexivity.
  - discriminate.
  - discriminate.
  - rewrite H. vm_compute. repeat split. right. right. now left.
Defined.

(** ** The pipeline behind each subscription *)

Lemma filter_logged_lines_from (f : obs -> bool) (l : level)
      (all rest : list string) (i : Z) :
  (forall e, f (OLog e) = false) ->
  filter f (logged_lines_from l all i rest) = [].
Proof.
  intros Hf. revert i.
  induction rest as [| line rest IH]; intros i; simpl; [reflexivity|].
  now rewrite Hf, IH.
Qed.



Lemma added_bind_done {A B : Type} (env : Env) (p : Prog A) (f : A -> Prog B)
      (w : World) (a : A) :
  fst (run env p w) = Done a ->
  added env (bind p f) w
  = added env p w ++ added env (f a) (snd (run env p w)).
Proof.
  intros H. apply added_extend. rewrite run_bind.
  pose proof (run_extends env p w) as Hp.
  destruct (run env p w) as [o w1]. simpl in *. subst o.
  rewrite run_extends, Hp. now rewrite List.app_assoc.
Qed.



Lemma start_compile (env : Env) (w : World) :
  exists rest,
    start env compileRelayGeneratedArtifacts w
    = (Pending rest, extend compile_started w).
Proof.
  unfold compileRelayGeneratedArtifacts, compile_started. cbn [start try_catch].
  rewrite !observe_extend, extend_extend. eauto.
Qed.




(** Once both subscriptions of [start] are acknowledged, the client
    carries exactly their two dispatchers. *)
Lemma start_registers_both_dispatchers :
  let tasks := start_subscriptions sample_query join_paths "/repo/" in
  listeners
    (snd (run calm_env (nth 1 tasks (Ret tt))
              (snd (run calm_env (nth 0 tasks (Ret tt)) empty_world))))
  = start_listeners sample_query.
Proof. reflexivity. Qed.

(** ** Errors of the clock and subscribe commands *)

Lemma added_Log {A : Type} (env : Env) (l : level) (a : list log_arg)
      (k : Prog A) (w : World) :
  added env (Log l a k) w
  = OLog (LogEntry l a) :: added env k (observe (OLog (LogEntry l a)) w).
Proof.
  apply added_extend. simpl. rewrite run_extends. simpl.
  now rewrite <- List.app_assoc.
Qed.

(** C2 fails on the code.  fb-watchman reports a failed command by
    calling back with the error alone.  The [clock] callback then throws
    on its parameter pattern before it can log anything: the exception
    escapes the callback and nothing is added to the log.  The
    [subscribe] callback logs the error and then throws on
    [response.subscribe]. *)
Theorem clock_error_escapes_unlogged
        (env : Env) (w : World) (project watch : jsval) (spec : subscription_spec)
        (subscriptionConfig : list (string * jsval))
        (callback : event -> Prog unit) (e : exn) :
  run env (on_clock project watch spec callback (Some e) VUndef) w
  = (Uncaught (TypeError "clock"), w) /\
  run env (on_subscribed (id spec) subscriptionConfig callback (Some e) VUndef) w
  = (Uncaught (TypeError "subscribe"), extend [OLog (error_reported e)] w).
Proof. split; reflexivity. Qed.

(** The same on a whole [subscribe] call whose clock request fails. *)
Lemma subscribe_with_failing_clock :
  let result :=
    run clock_failing_env
        (subscribe join_paths "/repo/" SUBSCRIPTIONS_graph (graphHandler sample_query))
        empty_world in
  fst result = Uncaught (TypeError "clock") /\
  error_lines (trace (snd result)) = [] /\
  listeners (snd result) = [] /\
  filter (fun o => match o with ORequest _ => true | _ => false end)
         (trace (snd result))
  = [ORequest (watch_command "/repo/app/models/api/graph");
     ORequest (Cmd [VStr "clock"; VStr "/repo"])].
Proof. vm_compute. repeat split. Qed.

(** ** Which errors reach the log *)

Lemma error_lines_logged_lines_from (all rest : list string) (i : Z) :
  error_lines (logged_lines_from LError all i rest)
  = log_of (logged_lines_from LError all i rest).
Proof.
  revert i. induction rest as [| line rest IH]; intros i; [reflexivity|].
  unfold error_lines in *. simpl. now rewrite IH.
Qed.

Lemma length_logged_lines_from (l : level) (all rest : list string) (i : Z) :
  List.length (log_of (logged_lines_from l all i rest)) = List.length rest.
Proof.
  revert i. induction rest as [| line rest IH]; intros i; [reflexivity|].
  simpl. now rewrite IH.
Qed.

Lemma length_drop_framing (lines : list string) :
  List.length (drop_framing lines) = (List.length lines - 5)%nat.
Proof.
  unfold drop_framing.
  rewrite removelast_firstn_len, length_firstn, length_skipn. lia.
Qed.

(** C3, as the code has it.  An error reported by the capability check,
    by the watch request or by the subscribe request is logged at error
    level, and so is a clock error that comes with a response object.
    Every failure of the schema synchronizer is logged at error level.
    A failed compiler subprocess is logged only through its standard
    output: one error-level line for each line that the trimming keeps,
    that is, five fewer than the output has lines. *)
Theorem detected_errors_are_logged (env : Env) (w : World) :
  (forall e r,
      answer_command env (List.length (trace w)) probe_command = (Some e, r) ->
      In (OLog (error_reported e)) (added env checkCapability w)) /\
  (forall p e r,
      answer_command env (S (List.length (trace w))) (watch_command p) = (Some e, r) ->
      In (OLog (error_reported e)) (added env (watchProject p) w)) /\
  (forall project watch spec callback e props,
      In (OLog (error_reported e))
         (added env (on_clock project watch spec callback (Some e) (VObj props)) w)) /\
  (forall i subscriptionConfig callback e r,
      In (OLog (error_reported e))
         (added env (on_subscribed i subscriptionConfig callback (Some e) r) w)) /\
  (forall query entry,
      sync_view_of (answer_fetch env (S (List.length (trace w))) (sync_request query))
      = Failure entry ->
      lvl entry = LError /\
      In (OLog entry) (added env (syncGraphqlSchemaToDisk query) w)) /\
  (forall query content e left_on_disk,
      sync_view_of (answer_fetch env (S (List.length (trace w))) (sync_request query))
      = Snapshot content ->
      answer_write env (S (S (List.length (trace w)))) SCHEMA_PATH content
      = WriteFailed e left_on_disk ->
      In (OLog (error_reported e)) (added env (syncGraphqlSchemaToDisk query) w)) /\
  (forall e,
      answer_exec env (S (List.length (trace w))) compile_command = ExecRejected e ->
      code e <> ExitStatus 0 ->
      error_lines (added env compileRelayGeneratedArtifacts w)
      = log_of (logged_lines LError (drop_framing (split LF (stdout e)))) /\
      List.length (error_lines (added env compileRelayGeneratedArtifacts w))
      = (List.length (split LF (stdout e)) - 5)%nat).
Proof.
  repeat apply conj.
  - intros e r H.
    erewrite added_extend
      by (rewrite run_checkCapability, H; simpl;
          rewrite <- !List.app_assoc; reflexivity).
    simpl. auto.
  - intros p e r H. unfold watchProject. rewrite added_Log.
    erewrite added_extend.
    2: { simpl. rewrite length_app, Nat.add_comm. simpl.
         unfold watch_command in H. rewrite H. simpl.
         rewrite <- !List.app_assoc. reflexivity. }
    simpl. auto.
  - intros project watch spec callback e props. unfold on_clock.
    cbn [prop lift bind log_if_error]. rewrite added_Log. now left.
  - intros i subscriptionConfig callback e r. unfold on_subscribed.
    cbn [log_if_error]. rewrite added_Log. now left.
  - intros query entry H. split; [now apply sync_failure_is_error_level in H|].
    destruct (added_sync_failure env query w H) as [-> _].
    apply in_or_app. right. now left.
  - intros query content e left_on_disk Hview Hwrite.
    erewrite added_extend.
    2: { rewrite run_sync, Hview, Hwrite. simpl.
         rewrite <- !List.app_assoc. reflexivity. }
    simpl. auto.
  - intros e Hexec Hcode.
    assert (Hadded : added env compileRelayGeneratedArtifacts w
                     = compile_started
                         ++ logged_lines LError (drop_framing (split LF (stdout e)))).
    { apply added_extend. rewrite run_compile, Hexec.
      apply code_is_not_zero_iff in Hcode. rewrite Hcode.
      now rewrite slice_drops_framing. }
    rewrite Hadded, error_lines_app. unfold logged_lines.
    rewrite error_lines_logged_lines_from. split; [reflexivity|].
    simpl. now rewrite length_logged_lines_from, length_drop_framing.
Qed.

Lemma detected_errors_are_logged_witness :
  List.length
    (error_lines
       (added (compile_env (ExecRejected failed_compile))
              compileRelayGeneratedArtifacts empty_world))
  = 2%nat.
Proof.
  destruct (detected_errors_are_logged (compile_env (ExecRejected failed_compile))
                                       empty_world)
    as (_ & _ & _ & _ & _ & _ & H).
  destruct (H failed_compile eq_refl) as [_ Hlen]; [discriminate|].
  rewrite Hlen. reflexivity.
Defined.

(** C3, as stated, fails: a compiler subprocess that fails without
    output leaves nothing in the log; the run reads like a successful
    one. *)
Lemma silent_compile_failure_is_not_logged :
  added (compile_env (ExecRejected silent_failed_compile))
        compileRelayGeneratedArtifacts empty_world
  = compile_started /\
  filter emitted
         (log_of (added (compile_env (ExecRejected silent_failed_compile))
                        compileRelayGeneratedArtifacts empty_world))
  = [LogEntry LInfo [AStr "Executing relay-compiler"]] /\
  error_lines (added (compile_env (ExecRejected silent_failed_compile))
                     compileRelayGeneratedArtifacts empty_world) = [] /\
  added (compile_env (ExecRejected silent_failed_compile))
        compileRelayGeneratedArtifacts empty_world
  = added (compile_env (ExecResolved EmptyString EmptyString))
          compileRelayGeneratedArtifacts empty_world.
Proof. vm_compute. repeat split. Qed.

(** ** JSON texts: strings *)

Lemma parse_chars_quote_char (c : ascii) (tail : list ascii) :
  parse_chars (quote_char c ++ tail) = prepend c (parse_chars tail).
Proof.
  destruct c as [[|] [|] [|] [|] [|] [|] [|] [|]]; reflexivity.
Qed.

Lemma parse_chars_quoted (l tail : list ascii) :
  parse_chars (flat_map quote_char l ++ DQ :: tail) = Some (l, tail).
Proof.
  induction l as [| c l IH]; [reflexivity|].
  simpl flat_map. rewrite <- List.app_assoc, parse_chars_quote_char, IH.
  reflexivity.
Qed.

Lemma quote_app (s : string) (tail : list ascii) :
  quote s ++ tail = DQ :: flat_map quote_char (chars s) ++ DQ :: tail.
Proof. unfold quote. simpl. now rewrite <- List.app_assoc. Qed.

Lemma text_chars (s : string) : text (chars s) = s.
Proof. apply string_of_list_ascii_of_string. Qed.

Lemma length_chars (s : string) : List.length (chars s) = String.length s.
Proof. induction s as [| c s IH]; simpl; [reflexivity | now rewrite IH]. Qed.

Lemma chars_text (l : list ascii) : chars (text l) = l.
Proof. apply list_ascii_of_string_of_list_ascii. Qed.

(** ** JSON texts: numbers *)

Lemma delimiter_cases (c : ascii) :
  delimiter c = true ->
  c = ","%char \/ c = "]"%char \/ c = "}"%char \/ c = LF.
Proof.
  unfold delimiter. rewrite !orb_true_iff, !Ascii.eqb_eq. tauto.
Qed.

Lemma delimited_not_digit (rest : list ascii) :
  delimited rest = true -> read_digits rest = (Decimal.Nil, rest).
Proof.
  destruct rest as [| c rest]; [reflexivity|]. simpl. intros H.
  apply delimiter_cases in H. now destruct H as [-> | [-> | [-> | ->]]].
Qed.

Lemma delimited_not_fraction (rest : list ascii) :
  delimited rest = true -> starts_fraction rest = false.
Proof.
  destruct rest as [| c rest]; [reflexivity|]. simpl. intros H.
  apply delimiter_cases in H. now destruct H as [-> | [-> | [-> | ->]]].
Qed.

Lemma read_digits_digits (d : Decimal.uint) (rest : list ascii) :
  delimited rest = true -> read_digits (digits d ++ rest) = (d, rest).
Proof.
  intros H. induction d as [| d IH | d IH | d IH | d IH | d IH | d IH | d IH
                            | d IH | d IH | d IH];
    simpl; [now apply delimited_not_digit | now rewrite IH ..].
Qed.

Lemma nzhead_not_D0 (d d' : Decimal.uint) : Decimal.nzhead d <> Decimal.D0 d'.
Proof. induction d; simpl; auto; discriminate. Qed.

Lemma to_uint_not_D0 (p : positive) (d : Decimal.uint) :
  Pos.to_uint p <> Decimal.D0 d.
Proof.
  intros H.
  pose proof (DecimalPos.Unsigned.to_of (Pos.to_uint p)) as Hnorm.
  rewrite DecimalPos.Unsigned.of_to in Hnorm. simpl in Hnorm.
  rewrite H in Hnorm. unfold Decimal.unorm in Hnorm. simpl in Hnorm.
  destruct (Decimal.nzhead d) as [| u | u | u | u | u | u | u | u | u | u] eqn:Hd;
    try discriminate.
  - injection Hnorm as Hnil. subst d.
    now apply (DecimalPos.Unsigned.to_uint_nonzero p).
  - now apply nzhead_not_D0 in Hd.
Qed.

Lemma parse_unsigned_digits (p : positive) (rest : list ascii) :
  delimited rest = true ->
  parse_unsigned (digits (Pos.to_uint p) ++ rest) = Some (Npos p, rest).
Proof.
  intros H. unfold parse_unsigned.
  rewrite read_digits_digits, delimited_not_fraction by assumption.
  pose proof (DecimalPos.Unsigned.of_to p) as Hof.
  destruct (Pos.to_uint p) as [| d | d | d | d | d | d | d | d | d | d] eqn:E;
    try (now rewrite <- Hof).
  now apply to_uint_not_D0 in E.
Qed.

Lemma digits_head (p : positive) :
  exists c t, digits (Pos.to_uint p) = c :: t /\
              Ascii.eqb c "-" = false /\ opens_value c = true /\
              digit_of c <> None.
Proof.
  destruct (Pos.to_uint p) as [| d | d | d | d | d | d | d | d | d | d] eqn:E;
    [now apply DecimalPos.Unsigned.to_uint_nonnil in E | ..];
    simpl; eexists; eexists; (split; [reflexivity|]); repeat split; discriminate.
Qed.

Lemma number_eq (a b : number) : int_of a = int_of b -> a = b.
Proof.
  destruct a as [x Hx], b as [y Hy]. cbn [int_of]. intros E. subst y.
  f_equal. apply (UIP_dec bool_dec).
Qed.

Lemma number_value_safe (n : number) (rest : list ascii) :
  number_value (int_of n) rest = Some (VNum n, rest).
Proof.
  unfold number_value.
  destruct (bool_dec (safe_integer (int_of n)) true) as [safe | unsafe].
  - do 3 f_equal. apply number_eq. reflexivity.
  - exfalso. apply unsafe. apply is_safe.
Qed.

Lemma parse_number_print_int (n : number) (rest : list ascii) :
  delimited rest = true ->
  parse_number (Number_toString n ++ rest) = Some (VNum n, rest).
Proof.
  intros H. rewrite <- (number_value_safe n rest).
  unfold Number_toString. generalize (int_of n). clear n.
  intros n. destruct n as [| p | p]; cbn [print_int app].
  - unfold parse_number. change (Ascii.eqb "0" "-") with false. cbv iota.
    unfold parse_unsigned.
    change (read_digits ("0"%char :: rest))
      with (let (ds, r) := read_digits rest in (Decimal.D0 ds, r)).
    rewrite delimited_not_digit, delimited_not_fraction by assumption.
    reflexivity.
  - destruct (digits_head p) as (c & t & E & Hminus & _).
    pose proof (parse_unsigned_digits p rest H) as Hp.
    rewrite E in *. cbn [app] in *. unfold parse_number.
    rewrite Hminus, Hp. reflexivity.
  - unfold parse_number. change (Ascii.eqb "-" "-") with true. cbv iota.
    rewrite parse_unsigned_digits by assumption. reflexivity.
Qed.

(** ** JSON texts: one step of the parser *)

Lemma jsval_ind (P : jsval -> Prop) :
  P VUndef -> P VNull -> (forall b, P (VBool b)) -> (forall n, P (VNum n)) ->
  (forall s, P (VStr s)) ->
  (forall items, Forall P items -> P (VArr items)) ->
  (forall props, Forall (fun m => P (snd m)) props -> P (VObj props)) ->
  forall v, P v.
Proof.
  intros Hundef Hnull Hbool Hnum Hstr Harr Hobj.
  fix IH 1. intros [| | b | n | s | items | props].
  - exact Hundef.
  - exact Hnull.
  - apply Hbool.
  - apply Hnum.
  - apply Hstr.
  - apply Harr. revert items. fix IHitems 1. intros [| x items].
    + constructor.
    + constructor; [apply IH | apply IHitems].
  - apply Hobj. revert props. fix IHprops 1. intros [| [k x] props].
    + constructor.
    + constructor; [apply IH | apply IHprops].
Qed.

Lemma skip_ws_spaces (n : nat) (s : list ascii) :
  skip_ws (repeat SP n ++ s) = skip_ws s.
Proof. induction n as [| n IH]; [reflexivity | exact IH]. Qed.

Lemma skip_ws_line_break (gap ind : nat) (s : list ascii) :
  skip_ws (line_break gap ind ++ s) = skip_ws s.
Proof. destruct gap; [reflexivity|]. apply skip_ws_spaces. Qed.

Lemma skip_ws_opens (c : ascii) (s : list ascii) :
  opens_value c = true -> skip_ws (c :: s) = c :: s.
Proof.
  unfold opens_value. rewrite negb_true_iff, !orb_false_iff.
  intros [[H _] _]. simpl. now rewrite H.
Qed.

Lemma parse_value_S (fuel : nat) (s : list ascii) :
  parse_value (S fuel) s =
  match skip_ws s with
  | [] => None
  | c :: rest =>
      if Ascii.eqb c "n" then literal "ull" VNull rest
      else if Ascii.eqb c "t" then literal "rue" (VBool true) rest
      else if Ascii.eqb c "f" then literal "alse" (VBool false) rest
      else if Ascii.eqb c DQ then
        match parse_chars rest with
        | Some (cs, rest') => Some (VStr (text cs), rest')
        | None => None
        end
      else if Ascii.eqb c "[" then
        match skip_ws rest with
        | [] => None
        | c' :: rest' =>
            if Ascii.eqb c' "]" then Some (VArr [], rest')
            else
              match parse_elements fuel rest with
              | Some (items, rest'') => Some (VArr items, rest'')
              | None => None
              end
        end
      else if Ascii.eqb c "{" then
        match skip_ws rest with
        | [] => None
        | c' :: rest' =>
            if Ascii.eqb c' "}" then Some (VObj [], rest')
            else
              match parse_members fuel rest with
              | Some (members, rest'') => Some (build_object members, rest'')
              | None => None
              end
        end
      else parse_number (c :: rest)
  end.
Proof. reflexivity. Qed.

Lemma parse_value_skip_ws (fuel : nat) (s s' : list ascii) :
  skip_ws s = skip_ws s' -> parse_value fuel s = parse_value fuel s'.
Proof.
  intros H. destruct fuel; [reflexivity|]. now rewrite !parse_value_S, H.
Qed.

Lemma parse_value_line_break (fuel gap ind : nat) (s : list ascii) :
  parse_value fuel (line_break gap ind ++ s) = parse_value fuel s.
Proof. apply parse_value_skip_ws, skip_ws_line_break. Qed.

Lemma parse_elements_last (fuel : nat) (s rest tail : list ascii) (v : jsval) :
  parse_value fuel s = Some (v, rest) ->
  skip_ws rest = "]"%char :: tail ->
  parse_elements (S fuel) s = Some ([v], tail).
Proof. intros Hv Hrest. cbn [parse_elements]. now rewrite Hv, Hrest. Qed.

Lemma parse_elements_more (fuel : nat) (s rest tail : list ascii) (v : jsval)
      (vs : list jsval) :
  parse_value fuel s = Some (v, ","%char :: rest) ->
  parse_elements fuel rest = Some (vs, tail) ->
  parse_elements (S fuel) s = Some (v :: vs, tail).
Proof.
  intros Hv Hvs. cbn [parse_elements]. rewrite Hv.
  change (skip_ws (","%char :: rest)) with (","%char :: rest).
  change (Ascii.eqb "," ",") with true. cbv iota. now rewrite Hvs.
Qed.

Lemma parse_members_S (fuel : nat) (s : list ascii) :
  parse_members (S fuel) s =
  match skip_ws s with
  | [] => None
  | c :: rest =>
      if Ascii.eqb c DQ then
        match parse_chars rest with
        | None => None
        | Some (k, rest1) =>
            match skip_ws rest1 with
            | [] => None
            | c1 :: rest2 =>
                if Ascii.eqb c1 ":" then
                  match parse_value fuel rest2 with
                  | None => None
                  | Some (v, rest3) =>
                      match skip_ws rest3 with
                      | [] => None
                      | c3 :: rest4 =>
                          if Ascii.eqb c3 "," then
                            prepend (text k, v) (parse_members fuel rest4)
                          else if Ascii.eqb c3 "}" then
                            Some ([(text k, v)], rest4)
                          else None
                      end
                  end
                else None
            end
        end
      else None
  end.
Proof. reflexivity. Qed.

(** Reading one member [quote k ++ colon gap ++ t]. *)
Lemma parse_members_step (fuel gap ind : nat) (k : string) (t rest : list ascii)
      (v : jsval) :
  parse_value fuel (t ++ rest) = Some (v, rest) ->
  parse_members (S fuel) (line_break gap ind ++ (quote k ++ colon gap ++ t) ++ rest) =
  match skip_ws rest with
  | [] => None
  | c3 :: rest4 =>
      if Ascii.eqb c3 "," then prepend (k, v) (parse_members fuel rest4)
      else if Ascii.eqb c3 "}" then Some ([(k, v)], rest4)
      else None
  end.
Proof.
  intros Hv. rewrite parse_members_S, skip_ws_line_break.
  rewrite <- !List.app_assoc, quote_app.
  change (skip_ws (DQ :: ?x)) with (DQ :: x).
  change (Ascii.eqb DQ DQ) with true. cbv iota.
  rewrite parse_chars_quoted, text_chars.
  assert (Hcolon : exists rest2,
             skip_ws (colon gap ++ t ++ rest) = ":"%char :: rest2 /\
             parse_value fuel rest2 = Some (v, rest)).
  { destruct gap; eexists; (split; [reflexivity|]); [exact Hv|].
    rewrite <- Hv. now apply parse_value_skip_ws. }
  destruct Hcolon as (rest2 & -> & ->).
  reflexivity.
Qed.

(** ** JSON texts: printing and reading back *)

Lemma serialize_VArr (gap ind : nat) (items : list jsval) :
  serialize gap ind (VArr items)
  = Some (enclose "[" "]" gap ind (map (element_text gap (ind + gap)) items)).
Proof. reflexivity. Qed.

Lemma serialize_VObj (gap ind : nat) (props : list (string * jsval)) :
  serialize gap ind (VObj props)
  = Some (enclose "{" "}" gap ind (flat_map (member_text gap (ind + gap)) props)).
Proof.
  cbn [serialize]. do 2 f_equal.
  induction props as [| [k x] props IH]; [reflexivity|].
  cbn [flat_map]. rewrite <- IH. unfold member_text. cbn [fst snd].
  now destruct (serialize gap (ind + gap) x).
Qed.

Lemma is_json_VArr_cons (x : jsval) (items : list jsval) :
  is_json (VArr (x :: items)) = is_json x && is_json (VArr items).
Proof. reflexivity. Qed.

Lemma is_json_VObj_cons (k : string) (x : jsval) (props : list (string * jsval)) :
  is_json (VObj ((k, x) :: props))
  = negb (has_key k props) && is_json x && is_json (VObj props).
Proof. reflexivity. Qed.

(** A JSON value has a text, and the text starts a value. *)
Lemma serialize_json (v : jsval) (gap ind : nat) :
  is_json v = true ->
  exists c t, serialize gap ind v = Some (c :: t) /\ opens_value c = true.
Proof.
  destruct v as [| | [|] | [[| p | p] safe] | s | items | props]; intros H;
    clear safe || idtac;
    try discriminate; try (do 2 eexists; split; reflexivity).
  - clear H. destruct (digits_head p) as (c & t & E & _ & Hc & _).
    exists c, t. cbn [serialize Number_toString int_of print_int]. rewrite E.
    split; [reflexivity | exact Hc].
  - rewrite serialize_VArr. unfold enclose.
    destruct (map _ items); do 2 eexists; split; reflexivity.
  - rewrite serialize_VObj. unfold enclose.
    destruct (flat_map _ props); do 2 eexists; split; reflexivity.
Qed.

Lemma delimited_line_break (gap ind : nat) (c : ascii) (s : list ascii) :
  delimiter c = true -> delimited (line_break gap ind ++ c :: s) = true.
Proof. destruct gap; [intros H; exact H | reflexivity]. Qed.

Lemma length_line_break_sep (gap ind : nat) :
  (1 <= List.length (","%char :: line_break gap ind))%nat.
Proof. simpl. lia. Qed.

Lemma parse_elements_joined (gap ind ind0 : nat) (items : list jsval) :
  Forall parses_back items ->
  is_json (VArr items) = true ->
  items <> [] ->
  forall fuel tail,
    (List.length (join (","%char :: line_break gap ind)
                       (map (element_text gap ind) items)) + 1 < fuel)%nat ->
    parse_elements fuel
      (line_break gap ind
         ++ join (","%char :: line_break gap ind) (map (element_text gap ind) items)
         ++ line_break gap ind0 ++ "]"%char :: tail)
    = Some (items, tail).
Proof.
  induction items as [| x items IH]; [contradiction|].
  intros HP Hjson _ fuel tail Hfuel.
  inversion HP as [| ? ? Hx Hitems]; subst. unfold parses_back in Hx.
  rewrite is_json_VArr_cons in Hjson. apply andb_true_iff in Hjson.
  destruct Hjson as [Hjx Hjitems].
  destruct (serialize_json x gap ind Hjx) as (c & t & Ht & _).
  assert (Helt : element_text gap ind x = c :: t)
    by (unfold element_text; now rewrite Ht).
  destruct fuel as [| fuel]; [lia|].
  destruct items as [| y more].
  - cbn [map join] in *. rewrite Helt in *.
    apply parse_elements_last with (rest := line_break gap ind0 ++ "]"%char :: tail).
    + rewrite parse_value_line_break.
      eapply Hx; eauto; [simpl in *; lia | now apply delimited_line_break].
    + now rewrite skip_ws_line_break.
  - remember (y :: more) as others eqn:Hothers.
    assert (Hjoin : forall sep p, join sep (p :: map (element_text gap ind) others)
                                  = p ++ sep ++ join sep (map (element_text gap ind) others))
      by (intros; subst others; reflexivity).
    cbn [map] in Hfuel |- *. rewrite Hjoin, Helt in Hfuel |- *.
    rewrite !length_app in Hfuel.
    pose proof (length_line_break_sep gap ind) as Hsep.
    eapply parse_elements_more.
    + rewrite parse_value_line_break, <- !List.app_assoc.
      match goal with
      | |- parse_value _ (_ ++ ?r) = _ => apply (Hx gap ind (c :: t) fuel r)
      end; auto; lia.
    + apply IH; auto; [subst others; discriminate | simpl in *; lia].
Qed.

Lemma member_text_json (gap ind : nat) (k : string) (x : jsval) :
  is_json x = true ->
  exists c t, serialize gap ind x = Some (c :: t) /\
              member_text gap ind (k, x) = [quote k ++ colon gap ++ c :: t].
Proof.
  intros H. destruct (serialize_json x gap ind H) as (c & t & Ht & _).
  exists c, t. split; [assumption|]. unfold member_text. cbn [fst snd].
  now rewrite Ht.
Qed.

Lemma length_colon (gap : nat) : (1 <= List.length (colon gap))%nat.
Proof. destruct gap; simpl; lia. Qed.

Lemma parse_members_joined (gap ind ind0 : nat) (props : list (string * jsval)) :
  Forall (fun m => parses_back (snd m)) props ->
  is_json (VObj props) = true ->
  props <> [] ->
  forall fuel tail,
    (List.length (join (","%char :: line_break gap ind)
                       (flat_map (member_text gap ind) props)) + 1 < fuel)%nat ->
    parse_members fuel
      (line_break gap ind
         ++ join (","%char :: line_break gap ind)
                 (flat_map (member_text gap ind) props)
         ++ line_break gap ind0 ++ "}"%char :: tail)
    = Some (props, tail).
Proof.
  induction props as [| [k x] props IH]; [contradiction|].
  intros HP Hjson _ fuel tail Hfuel.
  inversion HP as [| ? ? Hx Hprops]; subst.
  cbn [snd] in Hx. unfold parses_back in Hx.
  rewrite is_json_VObj_cons in Hjson. apply andb_true_iff in Hjson.
  destruct Hjson as [Hjson Hjprops]. apply andb_true_iff in Hjson.
  destruct Hjson as [_ Hjx].
  destruct (@member_text_json gap ind k x Hjx) as (c & t & Ht & Hm).
  cbn [flat_map] in Hfuel |- *. rewrite Hm in Hfuel |- *.
  cbn [app] in Hfuel |- *.
  destruct fuel as [| fuel]; [lia|].
  pose proof (length_colon gap) as Hcolon.
  destruct props as [| [k' y] more].
  - cbn [flat_map join] in Hfuel |- *.
    rewrite !length_app in Hfuel.
    rewrite parse_members_step
      with (v := x) (rest := line_break gap ind0 ++ "}"%char :: tail).
    + now rewrite skip_ws_line_break.
    + eapply Hx; eauto; [lia | now apply delimited_line_break].
  - remember ((k', y) :: more) as others eqn:Hothers.
    destruct (flat_map (member_text gap ind) others) as [| p ps] eqn:Hparts.
    { subst others. rewrite is_json_VObj_cons in Hjprops.
      apply andb_true_iff in Hjprops. destruct Hjprops as [Hjy _].
      apply andb_true_iff in Hjy. destruct Hjy as [_ Hjy].
      destruct (@member_text_json gap ind k' y Hjy) as (c' & t' & _ & Hm').
      cbn [flat_map] in Hparts. rewrite Hm' in Hparts. discriminate. }
    change (join ?sep ((quote k ++ colon gap ++ c :: t) :: p :: ps))
      with ((quote k ++ colon gap ++ c :: t) ++ sep ++ join sep (p :: ps))
      in Hfuel |- *.
    rewrite !length_app in Hfuel.
    rewrite <- !List.app_assoc.
    match goal with
    | |- parse_members _ (_ ++ quote k ++ colon gap ++ (c :: t) ++ ?r) = _ =>
        pose proof (@parse_members_step fuel gap ind k (c :: t) r x) as Hstep
    end.
    rewrite <- !List.app_assoc in Hstep. rewrite Hstep.
    + change (skip_ws ((","%char :: ?a) ++ ?b)) with (","%char :: a ++ b).
      change (Ascii.eqb "," ",") with true. cbv iota.
      rewrite IH; auto; [subst others; discriminate | simpl in *; lia].
    + eapply Hx; eauto. lia.
Qed.

Ltac eval_chars :=
  cbv beta iota delta [Ascii.eqb Bool.eqb andb orb negb is_ws DQ SP LF CR TAB BS].

Lemma parse_value_array (fuel : nat) (s s' : list ascii) (c : ascii)
      (items : list jsval) (tail : list ascii) :
  skip_ws s = c :: s' -> opens_value c = true ->
  parse_elements fuel s = Some (items, tail) ->
  parse_value (S fuel) ("["%char :: s) = Some (VArr items, tail).
Proof.
  intros Hs Hc Hitems. rewrite parse_value_S.
  change (skip_ws ("["%char :: s)) with ("["%char :: s).
  unfold opens_value in Hc. rewrite negb_true_iff, !orb_false_iff in Hc.
  destruct Hc as [[_ Hc] _]. rewrite Hs, Hitems, Hc. reflexivity.
Qed.

Lemma parse_value_object (fuel : nat) (s s' : list ascii) (c : ascii)
      (members : list (string * jsval)) (tail : list ascii) :
  skip_ws s = c :: s' -> opens_value c = true ->
  parse_members fuel s = Some (members, tail) ->
  parse_value (S fuel) ("{"%char :: s) = Some (build_object members, tail).
Proof.
  intros Hs Hc Hmembers. rewrite parse_value_S.
  change (skip_ws ("{"%char :: s)) with ("{"%char :: s).
  unfold opens_value in Hc. rewrite negb_true_iff, !orb_false_iff in Hc.
  destruct Hc as [_ Hc]. rewrite Hs, Hmembers, Hc. reflexivity.
Qed.

Lemma parse_value_number (fuel : nat) (c : ascii) (s : list ascii) :
  digit_of c <> None \/ c = "-"%char ->
  parse_value (S fuel) (c :: s) = parse_number (c :: s).
Proof.
  intros [H | ->]; [|reflexivity].
  unfold digit_of in H.
  repeat match type of H with
         | (if Ascii.eqb c ?d then _ else _) <> None =>
             destruct (Ascii.eqb_spec c d) as [-> | _]; [reflexivity|]
         end.
  contradiction.
Qed.

Lemma joined_opens (sep : list ascii) (c : ascii) (t : list ascii)
      (parts : list (list ascii)) (tail : list ascii) :
  exists s', join sep ((c :: t) :: parts) ++ tail = c :: s'.
Proof. destruct parts; eexists; reflexivity. Qed.

Lemma has_key_app (k : string) (a b : list (string * jsval)) :
  has_key k (a ++ b) = has_key k a || has_key k b.
Proof.
  induction a as [| [k' v] a IH]; [reflexivity|].
  simpl. now rewrite IH, orb_assoc.
Qed.

Lemma set_prop_fresh (k : string) (v : jsval) (props : list (string * jsval)) :
  has_key k props = false -> set_prop k v props = props ++ [(k, v)].
Proof.
  induction props as [| [k' v'] props IH]; [reflexivity|].
  simpl. intros H. apply orb_false_iff in H. destruct H as [Hk Hrest].
  now rewrite Hk, IH.
Qed.

Lemma fold_set_prop_unique (members acc : list (string * jsval)) :
  is_json (VObj members) = true ->
  (forall k, has_key k acc = true -> has_key k members = false) ->
  fold_left (fun props m => set_prop (fst m) (snd m) props) members acc
  = acc ++ members.
Proof.
  revert acc. induction members as [| [k x] members IH]; intros acc Hjson Hnew.
  - now rewrite List.app_nil_r.
  - rewrite is_json_VObj_cons in Hjson.
    apply andb_true_iff in Hjson. destruct Hjson as [Hjson Hrest].
    apply andb_true_iff in Hjson. destruct Hjson as [Hk _].
    apply negb_true_iff in Hk.
    cbn [fold_left fst snd]. rewrite set_prop_fresh.
    + rewrite IH; auto; [now rewrite <- List.app_assoc|].
      intros k'. rewrite has_key_app. intros Hin.
      apply orb_true_iff in Hin. destruct Hin as [Hin | Hin].
      * apply Hnew in Hin. simpl in Hin. now apply orb_false_iff in Hin.
      * simpl in Hin. rewrite orb_false_r in Hin.
        apply String.eqb_eq in Hin. now subst.
    + destruct (has_key k acc) eqn:E; [|reflexivity].
      apply Hnew in E. simpl in E. now rewrite String.eqb_refl in E.
Qed.

Lemma build_object_json (props : list (string * jsval)) :
  is_json (VObj props) = true -> build_object props = VObj props.
Proof.
  intros H. unfold build_object. rewrite fold_set_prop_unique; auto.
  intros k Hk. discriminate.
Qed.

Lemma print_int_head (n : Z) :
  exists c t, print_int n = c :: t /\ (digit_of c <> None \/ c = "-"%char).
Proof.
  destruct n as [| p | p]; simpl.
  - do 2 eexists. split; [reflexivity|]. left. discriminate.
  - destruct (digits_head p) as (c & t & E & _ & _ & Hd). eauto.
  - do 2 eexists. split; [reflexivity|]. now right.
Qed.

(** Every JSON value is read back from its text, at any indentation. *)
Lemma parses_back_all (v : jsval) : parses_back v.
Proof.
  induction v as [| | b | n | s | items IH | props IH] using jsval_ind;
    intros gap ind t fuel rest Hjson Hser Hlen Hdel.
  - discriminate.
  - injection Hser as <-. destruct fuel; [simpl in Hlen; lia | reflexivity].
  - destruct b; injection Hser as <-;
      (destruct fuel; [simpl in Hlen; lia | reflexivity]).
  - injection Hser as <-.
    destruct fuel; [lia|].
    destruct (print_int_head (int_of n)) as (c & t & E & Hc).
    pose proof (parse_number_print_int n rest Hdel) as Hn.
    unfold Number_toString in Hn |- *.
    rewrite E in Hn |- *. cbn [app] in Hn |- *.
    rewrite parse_value_number by exact Hc. exact Hn.
  - injection Hser as <-.
    destruct fuel; [lia|].
    rewrite quote_app, parse_value_S.
    change (skip_ws (DQ :: ?x)) with (DQ :: x). eval_chars.
    rewrite parse_chars_quoted, text_chars. reflexivity.
  - rewrite serialize_VArr in Hser. injection Hser as <-.
    destruct fuel; [lia|].
    destruct items as [| x items]; [reflexivity|].
    assert (Hjx : is_json x = true).
    { rewrite is_json_VArr_cons in Hjson. now apply andb_true_iff in Hjson. }
    destruct (serialize_json x gap (ind + gap) Hjx) as (c & t & Ht & Hc).
    unfold enclose in Hlen |- *. cbn [map] in Hlen |- *.
    assert (Helt : element_text gap (ind + gap) x = c :: t)
      by (unfold element_text; now rewrite Ht).
    rewrite Helt in Hlen |- *.
    match type of Hlen with
    | context [join ?sep ((c :: t) :: ?parts)] =>
        destruct (joined_opens sep c t parts
                               (line_break gap ind ++ "]"%char :: rest))
          as [s' Hs']
    end.
    cbn [app]. rewrite <- !List.app_assoc. cbn [app].
    eapply parse_value_array.
    + rewrite skip_ws_line_break, Hs'. now apply skip_ws_opens.
    + exact Hc.
    + rewrite <- Helt.
      apply (parse_elements_joined gap (ind + gap) ind (items := x :: items));
        auto; [discriminate|].
      cbn [map]. rewrite Helt. cbn [List.length] in Hlen.
      rewrite !length_app in Hlen. cbn [List.length] in Hlen. lia.
  - rewrite serialize_VObj in Hser. injection Hser as <-.
    destruct fuel; [lia|].
    destruct props as [| [k x] props]; [reflexivity|].
    assert (Hjx : is_json x = true).
    { rewrite is_json_VObj_cons in Hjson. apply andb_true_iff in Hjson.
      destruct Hjson as [Hjson _]. now apply andb_true_iff in Hjson. }
    destruct (@member_text_json gap (ind + gap) k x Hjx) as (c & t & Ht & Hm).
    unfold enclose in Hlen |- *. cbn [flat_map] in Hlen |- *.
    rewrite Hm in Hlen |- *. cbn [app] in Hlen |- *.
    match type of Hlen with
    | context [join ?sep ((quote k ++ ?m) :: ?parts)] =>
        assert (Hs' : exists s',
                   join sep ((quote k ++ m) :: parts)
                        ++ line_break gap ind ++ "}"%char :: rest
                   = DQ :: s')
          by apply (joined_opens sep DQ
                                 ((flat_map quote_char (chars k) ++ [DQ]) ++ m)
                                 parts)
    end.
    destruct Hs' as [s' Hs'].
    rewrite <- !List.app_assoc. cbn [app].
    rewrite <- (@build_object_json _ Hjson).
    eapply parse_value_object.
    + rewrite skip_ws_line_break, Hs'. reflexivity.
    + reflexivity.
    + pose proof (@parse_members_joined gap (ind + gap) ind ((k, x) :: props)
                                        IH Hjson) as Hpm.
      cbn [flat_map] in Hpm. rewrite Hm in Hpm. cbn [app] in Hpm.
      apply Hpm; [discriminate|].
      cbn [List.length] in Hlen.
      rewrite !length_app in Hlen. cbn [List.length] in Hlen. lia.
Qed.

(** [JSON.parse(JSON.stringify(v, null, space))] is [v] for every JSON
    value [v]. *)
Lemma JSON_parse_stringify (v : jsval) (space : nat) (s : string) :
  is_json v = true -> JSON_stringify v space = Some s -> JSON_parse s = Some v.
Proof.
  intros Hjson Hs. unfold JSON_stringify in Hs.
  destruct (serialize (Nat.min space 10) 0 v) as [t |] eqn:Ht; [|discriminate].
  injection Hs as <-. unfold JSON_parse.
  rewrite chars_text, <- length_chars, chars_text.
  pose proof (parses_back_all v) as Hback. unfold parses_back in Hback.
  specialize (Hback (Nat.min space 10) 0%nat t (S (List.length t)) []
                    Hjson Ht (Nat.lt_succ_diag_r _) eq_refl).
  rewrite List.app_nil_r in Hback. now rewrite Hback.
Qed.

Lemma lookup_absent (k : string) (props : list (string * jsval)) :
  has_key k props = false -> lookup k props = VUndef.
Proof.
  induction props as [| [k' v] props IH]; [reflexivity|].
  simpl. intros H. apply orb_false_iff in H. destruct H as [Hk Hrest].
  rewrite Hk. auto.
Qed.

Lemma JSON_stringify_snapshot (data : jsval) :
  JSON_stringify (VObj [("data", data)]) 2 = Some (snapshot_of data).
Proof. reflexivity. Qed.

(** ** Pretty-printed JSON is what the code writes *)

Lemma pretty_VArr (depth : nat) (items : list jsval) :
  pretty depth (VArr items)
  = bracketed "[" "]" depth (map (pretty (S depth)) items).
Proof. reflexivity. Qed.

Lemma pretty_VObj (depth : nat) (props : list (string * jsval)) :
  pretty depth (VObj props)
  = bracketed "{" "}" depth
      (map (fun m => quote (fst m) ++ ":"%char :: SP :: pretty (S depth) (snd m)) props).
Proof.
  cbn [pretty]. f_equal.
  induction props as [| [k x] props IH]; [reflexivity|].
  cbn [map fst snd]. now rewrite <- IH.
Qed.

Lemma join_rows (lead : list ascii) (row : list ascii) (rows : list (list ascii)) :
  join [","%char] (map (fun r => lead ++ r) (row :: rows))
  = lead ++ join (","%char :: lead) (row :: rows).
Proof.
  revert row. induction rows as [| next rows IH]; intros row; [reflexivity|].
  change (join [","%char] (map (fun r => lead ++ r) (row :: next :: rows)))
    with ((lead ++ row) ++ [","%char]
            ++ join [","%char] (map (fun r => lead ++ r) (next :: rows))).
  rewrite IH.
  change (join (","%char :: lead) (row :: next :: rows))
    with (row ++ (","%char :: lead) ++ join (","%char :: lead) (next :: rows)).
  rewrite <- !List.app_assoc. reflexivity.
Qed.

Lemma enclose_bracketed (opening closing : ascii) (depth : nat)
      (rows : list (list ascii)) :
  enclose opening closing 2 (2 * depth) rows = bracketed opening closing depth rows.
Proof.
  unfold enclose, bracketed. destruct rows as [| row rows]; [reflexivity|].
  replace (2 * depth + 2)%nat with (2 * S depth)%nat by lia.
  change (line_break 2 (2 * S depth)) with (LF :: indentation (S depth)).
  change (line_break 2 (2 * depth)) with (LF :: indentation depth).
  change (fun row0 : list ascii => LF :: indentation (S depth) ++ row0)
    with (fun row0 : list ascii => (LF :: indentation (S depth)) ++ row0).
  rewrite join_rows. rewrite <- !List.app_assoc. reflexivity.
Qed.

(** On a JSON value [JSON.stringify] with an indentation of two is the
    pretty-printing of the specification. *)
Lemma serialize_pretty (v : jsval) :
  forall depth, is_json v = true -> serialize 2 (2 * depth) v = Some (pretty depth v).
Proof.
  induction v as [| | b | n | s | items IH | props IH] using jsval_ind;
    intros depth Hjson.
  - discriminate.
  - reflexivity.
  - now destruct b.
  - reflexivity.
  - reflexivity.
  - rewrite serialize_VArr, pretty_VArr, <- enclose_bracketed. do 2 f_equal.
    replace (2 * depth + 2)%nat with (2 * S depth)%nat by lia.
    induction IH as [| x items Hx _ IHitems]; [reflexivity|].
    rewrite is_json_VArr_cons in Hjson. apply andb_true_iff in Hjson.
    destruct Hjson as [Hjx Hjitems].
    cbn [map]. rewrite (IHitems Hjitems). f_equal.
    unfold element_text. now rewrite (Hx (S depth) Hjx).
  - rewrite serialize_VObj, pretty_VObj, <- enclose_bracketed. do 2 f_equal.
    replace (2 * depth + 2)%nat with (2 * S depth)%nat by lia.
    induction IH as [| [k x] props Hx _ IHprops]; [reflexivity|].
    rewrite is_json_VObj_cons in Hjson. apply andb_true_iff in Hjson.
    destruct Hjson as [Hjson Hjprops]. apply andb_true_iff in Hjson.
    destruct Hjson as [_ Hjx]. cbn [snd] in Hx.
    cbn [flat_map map fst snd]. rewrite (IHprops Hjprops).
    unfold member_text. cbn [fst snd]. now rewrite (Hx (S depth) Hjx).
Qed.

Lemma JSON_stringify_pretty (v : jsval) :
  is_json v = true -> JSON_stringify v 2 = Some (pretty_printed v).
Proof.
  intros Hjson. unfold JSON_stringify, pretty_printed.
  change (serialize (Nat.min 2 10) 0 v) with (serialize 2 (2 * 0) v).
  now rewrite serialize_pretty.
Qed.

Lemma snapshot_is_pretty (data : jsval) :
  is_json data = true -> snapshot_of data = pretty_printed (VObj [("data", data)]).
Proof.
  intros Hjson. unfold snapshot_of, stringify_or_empty.
  rewrite JSON_stringify_pretty; [reflexivity|]. simpl. now rewrite Hjson.
Qed.

(** ** The snapshot of a successful synchronization *)

(** C7: when the endpoint answers with a success status and a body that
    carries the introspection result under [data] and has no [errors]
    property, and the write goes through, the synchronizer fulfils and
    the snapshot file holds, whatever it held before, the text
    [JSON.stringify] gives for [{data}] with an indentation of two,
    which is the pretty-printed JSON of the specification: one member or
    element per line, two spaces per level, a space after each colon.
    Parsing that text gives [{data}] back.  No other file is touched. *)
Theorem successful_sync_writes_snapshot
        (env : Env) (query : string) (w : World) (r : http_response)
        (props : list (string * jsval)) (data : jsval) :
  answer_fetch env (S (List.length (trace w))) (sync_request query)
  = FetchResolved r ->
  ok r = true ->
  json r = JsonParsed (VObj props) ->
  lookup "data" props = data ->
  is_json data = true ->
  has_key "errors" props = false ->
  answer_write env (S (S (List.length (trace w)))) SCHEMA_PATH (snapshot_of data)
  = WriteOk ->
  let w' := snd (run env (syncGraphqlSchemaToDisk query) w) in
  fst (run env (syncGraphqlSchemaToDisk query) w) = Done tt /\
  disk w' SCHEMA_PATH = JSON_stringify (VObj [("data", data)]) 2 /\
  disk w' SCHEMA_PATH = Some (pretty_printed (VObj [("data", data)])) /\
  JSON_parse (pretty_printed (VObj [("data", data)]))
  = Some (VObj [("data", data)]) /\
  (forall p, p <> SCHEMA_PATH -> disk w' p = disk w p) /\
  added env (syncGraphqlSchemaToDisk query) w
  = sync_started query
      ++ [OWrite SCHEMA_PATH (pretty_printed (VObj [("data", data)])); sync_finished].
Proof.
  intros Hfetch Hok Hjson Hdata Hjdata Herrors Hwrite w'.
  assert (Hview : sync_view_of (answer_fetch env (S (List.length (trace w)))
                                             (sync_request query))
                  = Snapshot (snapshot_of data)).
  { rewrite Hfetch. unfold sync_view_of. rewrite Hok, Hjson. cbn [prop].
    now rewrite Hdata, (lookup_absent _ _ Herrors). }
  assert (Hdisk : disk w' SCHEMA_PATH = Some (snapshot_of data)).
  { subst w'. rewrite run_sync, Hview, Hwrite.
    unfold observe, store. cbn [snd disk]. now rewrite String.eqb_refl. }
  assert (Hobject : is_json (VObj [("data", data)]) = true)
    by (simpl; now rewrite Hjdata).
  split; [now rewrite run_sync|].
  split; [now rewrite Hdisk, JSON_stringify_snapshot|].
  split; [now rewrite Hdisk, snapshot_is_pretty|].
  split; [|split].
  - apply JSON_parse_stringify with (space := 2%nat); [exact Hobject|].
    now apply JSON_stringify_pretty.
  - intros p Hp. subst w'. rewrite run_sync, Hview, Hwrite.
    unfold observe, store. cbn [snd disk].
    apply String.eqb_neq in Hp. now rewrite Hp.
  - apply added_extend. rewrite run_sync, Hview, Hwrite.
    rewrite <- (@snapshot_is_pretty data Hjdata). simpl.
    now rewrite <- !List.app_assoc.
Qed.

Lemma successful_sync_writes_snapshot_witness :
  let written :=
    lines ["{";
           "  'data': {";
           "    'x': 1,";
           "    'tags': [";
           "      'a',";
           "      true,";
           "      null";
           "    ],";
           "    'empty': {},";
           "    'none': []";
           "  }";
           "}"] in
  disk (snd (run small_schema_env (syncGraphqlSchemaToDisk sample_query) synced_world))
       SCHEMA_PATH
  = Some written /\
  JSON_parse written = Some (VObj [("data", small_schema)]).
Proof.
  intros written.
  assert (E : written = pretty_printed (VObj [("data", small_schema)]))
    by (vm_compute; reflexivity).
  destruct (@successful_sync_writes_snapshot
              small_schema_env sample_query synced_world
              (HttpResponse true 200 (JsonParsed (VObj [("data", small_schema)])))
              [("data", small_schema)] small_schema
              eq_refl eq_refl eq_refl eq_refl eq_refl eq_refl eq_refl)
    as (_ & _ & Hdisk & Hparse & _).
  rewrite E. split; [exact Hdisk | exact Hparse].
Defined.

(** * Further properties of the script *)

(** ** The code generator on its other paths *)

Lemma actions_app (t t' : list obs) : actions (t ++ t') = actions t ++ actions t'.
Proof. unfold actions. apply filter_app. Qed.

Lemma actions_logged_lines_from (l : level) (all rest : list string) (i : Z) :
  actions (logged_lines_from l all i rest) = [].
Proof. unfold actions. now apply filter_logged_lines_from. Qed.

Lemma error_lines_info_lines_from (all rest : list string) (i : Z) :
  error_lines (logged_lines_from LInfo all i rest) = [].
Proof.
  revert i. induction rest as [| line rest IH]; intros i; [reflexivity|].
  unfold error_lines in *. simpl. apply IH.
Qed.

(** X1: When the compiler subprocess succeeds, its standard output is logged
    at info level, one line each and in order, without the first four
    lines and the final line; no error-level line is logged. *)
Theorem successful_compile_logs_at_info_level
        (env : Env) (w : World) (out err : string) :
  answer_exec env (S (List.length (trace w))) compile_command
  = ExecResolved out err ->
  let kept := drop_framing (split LF out) in
  run env compileRelayGeneratedArtifacts w
  = (Done tt, extend (compile_started ++ logged_lines LInfo kept) w) /\
  messages (logged_lines LInfo kept)
  = map (fun line => (LInfo, Some (AStr line))) kept /\
  error_lines (added env compileRelayGeneratedArtifacts w) = [].
Proof.
  intros Hexec kept.
  assert (Hrun : run env compileRelayGeneratedArtifacts w
                 = (Done tt, extend (compile_started ++ logged_lines LInfo kept) w)).
  { rewrite run_compile, Hexec. now rewrite slice_drops_framing. }
  split; [exact Hrun|]. split; [apply messages_logged_lines_from|].
  erewrite added_extend by (rewrite Hrun; reflexivity).
  rewrite error_lines_app. unfold logged_lines.
  now rewrite error_lines_info_lines_from.
Qed.

Lemma successful_compile_logs_at_info_level_witness :
  run (compile_env (ExecResolved compiled_output EmptyString))
      compileRelayGeneratedArtifacts empty_world
  = (Done tt,
     extend (compile_started ++ logged_lines LInfo ["Writing js"; "Unchanged: 12 files"])
            empty_world).
Proof.
  destruct (@successful_compile_logs_at_info_level
              (compile_env (ExecResolved compiled_output EmptyString)) empty_world
              compiled_output EmptyString eq_refl) as [H _].
  exact H.
Defined.

(** X2: Whatever the subprocess does, a run of the code generator fulfils,
    starts exactly one subprocess and does nothing else to the outside
    world: no request to Watchman, no fetch, no write, no exit; the
    listeners and the files are as they were. *)
Theorem compile_is_contained (env : Env) (w : World) :
  fst (run env compileRelayGeneratedArtifacts w) = Done tt /\
  actions (added env compileRelayGeneratedArtifacts w) = [OExec compile_command] /\
  listeners (snd (run env compileRelayGeneratedArtifacts w)) = listeners w /\
  disk (snd (run env compileRelayGeneratedArtifacts w)) = disk w.
Proof.
  rewrite run_compile. repeat split.
  erewrite added_extend by (rewrite run_compile; reflexivity).
  rewrite actions_app.
  destruct (answer_exec env _ _) as [out err | e];
    [|destruct (code_is_not_zero (code e))];
    unfold logged_lines; rewrite ?actions_logged_lines_from; reflexivity.
Qed.

Lemma split_nonempty (sep : ascii) (s : string) : split sep s <> [].
Proof.
  destruct s as [| c s]; simpl; [discriminate|].
  destruct (Ascii.eqb c sep); [discriminate|].
  destruct (split sep s); discriminate.
Qed.

Lemma split_trailing_separator (sep : ascii) (s : string) :
  split sep (s ++ String sep EmptyString)%string = split sep s ++ [EmptyString].
Proof.
  induction s as [| c s IH]; simpl.
  - now rewrite Ascii.eqb_refl.
  - destruct (Ascii.eqb c sep); rewrite IH; [reflexivity|].
    pose proof (split_nonempty sep s) as Hne.
    destruct (split sep s); [contradiction | reflexivity].
Qed.

Lemma drop_framing_trailing_line (lines : list string) (last : string) :
  drop_framing (lines ++ [last]) = skipn 4 lines.
Proof.
  unfold drop_framing. rewrite skipn_app.
  destruct (Nat.le_gt_cases 4 (List.length lines)) as [Hle | Hlt].
  - replace (4 - List.length lines)%nat with 0%nat by lia. simpl skipn at 2.
    apply removelast_last.
  - rewrite (@skipn_all2 _ 4 lines) by lia.
    destruct (4 - List.length lines)%nat eqn:E; [lia|].
    simpl. now destruct n.
Qed.

(** X3: The final line that the trimming drops is the piece after the last
    newline.  When the output of a successful compiler ends with a
    newline, that piece is empty and every line after the first four is
    logged. *)
Theorem compile_output_ending_in_newline
        (env : Env) (w : World) (out err : string) :
  answer_exec env (S (List.length (trace w))) compile_command
  = ExecResolved (out ++ newline) err ->
  run env compileRelayGeneratedArtifacts w
  = (Done tt,
     extend (compile_started ++ logged_lines LInfo (skipn 4 (split LF out))) w).
Proof.
  intros Hexec. rewrite run_compile, Hexec, slice_drops_framing.
  unfold newline. now rewrite split_trailing_separator, drop_framing_trailing_line.
Qed.

Lemma compile_output_ending_in_newline_witness :
  run (compile_env (ExecResolved compiled_output EmptyString))
      compileRelayGeneratedArtifacts empty_world
  = (Done tt,
     extend (compile_started ++ logged_lines LInfo ["Writing js"; "Unchanged: 12 files"])
            empty_world).
Proof.
  exact (@compile_output_ending_in_newline
           (compile_env (ExecResolved compiled_output EmptyString)) empty_world
           (String.concat newline
              ["yarn run v1.3.2"; "$ relay-compiler"; EmptyString; "Parsing schema";
               "Writing js"; "Unchanged: 12 files"])
           EmptyString eq_refl).
Defined.

(** ** The watch request on its two paths *)

Lemma run_watchProject_answered (env : Env) (w : World) (p : string)
      (props : list (string * jsval)) :
  answer_command env (S (List.length (trace w))) (watch_command p)
  = (None, VObj props) ->
  run env (watchProject p) w
  = (Done (VObj props),
     extend
       ([OLog (LogEntry LInfo [AStr "Establishing watch: %s"; AStr p]);
         ORequest (watch_command p)]
          ++ (if has_key "warning" props
              then [OLog (LogEntry LWarn
                            [AStr ("Establishing watch on " ++ dq ++ "%s" ++ dq
                                   ++ " generated warning: ")%string;
                             AVal (lookup "warning" props)])]
              else [])
          ++ [OLog (LogEntry LInfo
                      [AStr ("Watch established with %s on " ++ dq ++ "%s" ++ dq)%string;
                       AVal (lookup "watcher" props); AVal (lookup "watch" props)])])
       w).
Proof.
  intros H. unfold watchProject, watch_command in *. cbn [run].
  rewrite !observe_extend, extend_extend, trace_extend, length_app.
  cbn [List.length]. replace (List.length (trace w) + 1)%nat
    with (S (List.length (trace w))) by lia.
  rewrite H. cbn [prop_in lift bind].
  destruct (has_key "warning" props); cbn [prop lift bind run];
    rewrite !observe_extend, !extend_extend, <- !List.app_assoc; reflexivity.
Qed.

(** X4: A warning in the answer to the watch request is logged once at warn
    level and is not fatal: the call resolves with the answer itself and
    has sent one request.  Without a warning nothing is logged at warn
    level. *)
Theorem watch_warning_is_logged_and_harmless
        (env : Env) (w : World) (p : string) (props : list (string * jsval)) :
  answer_command env (S (List.length (trace w))) (watch_command p)
  = (None, VObj props) ->
  fst (run env (watchProject p) w) = Done (VObj props) /\
  actions (added env (watchProject p) w) = [ORequest (watch_command p)] /\
  warn_lines (added env (watchProject p) w)
  = (if has_key "warning" props
     then [LogEntry LWarn
             [AStr ("Establishing watch on " ++ dq ++ "%s" ++ dq
                    ++ " generated warning: ")%string;
              AVal (lookup "warning" props)]]
     else []) /\
  error_lines (added env (watchProject p) w) = [].
Proof.
  intros H. pose proof (run_watchProject_answered env w p H) as Hrun.
  split; [now rewrite Hrun|].
  erewrite added_extend by (rewrite Hrun; reflexivity).
  destruct (has_key "warning" props); repeat split.
Qed.

Lemma watch_warning_is_logged_and_harmless_witness :
  List.length (warn_lines (added warning_env (watchProject "/repo/app") empty_world))
  = 1%nat.
Proof.
  destruct (@watch_warning_is_logged_and_harmless warning_env empty_world "/repo/app"
              _ eq_refl) as (_ & _ & H & _).
  rewrite H. reflexivity.
Defined.

(** X5: A failed watch request is fatal: the error is logged, the process
    exits with status 1, and, unlike after a failed capability check,
    the connection is not closed first. *)
Theorem watch_failure_exits (env : Env) (w : World) (p : string)
        (e : exn) (r : jsval) :
  answer_command env (S (List.length (trace w))) (watch_command p) = (Some e, r) ->
  fst (run env (watchProject p) w) = Exited 1 /\
  actions (added env (watchProject p) w) = [ORequest (watch_command p); OExit 1] /\
  error_lines (added env (watchProject p) w) = [error_reported e].
Proof.
  intros H.
  assert (Hrun : run env (watchProject p) w
                 = (Exited 1,
                    extend [OLog (LogEntry LInfo [AStr "Establishing watch: %s"; AStr p]);
                            ORequest (watch_command p);
                            OLog (error_reported e); OExit 1] w)).
  { unfold watchProject, watch_command in *. cbn [run].
    rewrite !observe_extend, extend_extend, trace_extend, length_app.
    cbn [List.length]. replace (List.length (trace w) + 1)%nat
      with (S (List.length (trace w))) by lia.
    rewrite H. cbn [run].
    now rewrite !observe_extend, !extend_extend. }
  split; [now rewrite Hrun|].
  erewrite added_extend by (rewrite Hrun; reflexivity).
  split; reflexivity.
Qed.

Lemma watch_failure_exits_witness :
  fst (run failing_env (watchProject "/repo/app") empty_world) = Exited 1.
Proof.
  apply (@watch_failure_exits failing_env empty_world "/repo/app"
           (ServiceError "unable to resolve root") VUndef eq_refl).
Defined.

(** ** Establishing a subscription *)

Lemma lookup_set_prop_same (k : string) (v : jsval) (props : list (string * jsval)) :
  lookup k (set_prop k v props) = v.
Proof.
  induction props as [| [k' v'] props IH]; simpl.
  - now rewrite String.eqb_refl.
  - destruct (String.eqb k k') eqn:E; simpl; now rewrite E.
Qed.

Lemma lookup_set_prop_other (k k' : string) (v : jsval)
      (props : list (string * jsval)) :
  k' <> k -> lookup k' (set_prop k v props) = lookup k' props.
Proof.
  intros Hk. apply String.eqb_neq in Hk.
  induction props as [| [k0 v0] props IH]; simpl.
  - now rewrite Hk.
  - destruct (String.eqb k k0) eqn:E; simpl.
    + apply String.eqb_eq in E. subst k0. now rewrite Hk.
    + now rewrite IH.
Qed.

Lemma added_Command {A : Type} (env : Env) (c : command)
      (cb : option exn -> jsval -> Prog A) (w : World) :
  added env (Command c cb) w
  = ORequest c
      :: added env (cb (fst (answer_command env (List.length (trace w)) c))
                       (snd (answer_command env (List.length (trace w)) c)))
               (observe (ORequest c) w).
Proof.
  apply added_extend. cbn [run].
  destruct (answer_command env (List.length (trace w)) c) as [e r]. cbn [fst snd].
  rewrite run_extends. simpl. now rewrite <- List.app_assoc.
Qed.

(** X6: The subscription is anchored at the clock: once the clock request
    is answered, the first thing the callback does is to submit the
    subscribe request, under the id of the spec and with the caller's
    configuration in which [since] is the clock of the answer and
    [relative_root] the relative path of the watch.  Both replace what
    the caller's configuration may say; every other property of it is
    passed on. *)
Theorem subscription_is_anchored_at_the_clock
        (env : Env) (w : World) (project_props clock_props : list (string * jsval))
        (watch : jsval) (spec : subscription_spec) (callback : event -> Prog unit) :
  let since := lookup "clock" clock_props in
  let relative_root := lookup "relative_path" project_props in
  let submitted := merged_config spec since relative_root in
  hd_error (added env (on_clock (VObj project_props) watch spec callback
                                None (VObj clock_props)) w)
  = Some (ORequest (subscribe_command watch spec since relative_root)) /\
  lookup "since" submitted = since /\
  lookup "relative_root" submitted = relative_root /\
  (forall k, k <> "since" -> k <> "relative_root" ->
             lookup k submitted = lookup k (config spec)).
Proof.
  intros since relative_root submitted. split; [|split; [|split]].
  - unfold on_clock. cbn [prop lift bind log_if_error].
    now rewrite added_Command.
  - unfold submitted, merged_config.
    rewrite lookup_set_prop_other by discriminate. apply lookup_set_prop_same.
  - apply lookup_set_prop_same.
  - intros k Hsince Hroot. unfold submitted, merged_config.
    now rewrite !lookup_set_prop_other.
Qed.

Lemma subscription_is_anchored_at_the_clock_witness :
  lookup "since"
         (merged_config stale_spec (VStr "c:1:2") (VStr "app"))
  = VStr "c:1:2" /\
  lookup "fields" (merged_config stale_spec (VStr "c:1:2") (VStr "app"))
  = VArr [VStr "name"].
Proof.
  destruct (@subscription_is_anchored_at_the_clock
              calm_env empty_world [("relative_path", VStr "app")]
              [("clock", VStr "c:1:2")] (VStr "/repo") stale_spec (heard "A"))
    as (_ & Hsince & _ & Hother).
  split; [exact Hsince|].
  refine (Hother "fields" _ _); discriminate.
Defined.

Lemma requests_app (t t' : list obs) : requests (t ++ t') = requests t ++ requests t'.
Proof. unfold requests. apply filter_app. Qed.

(** X7: A subscription whose three requests are answered is established: a
    call of [subscribe] sends the watch, clock and subscribe requests in
    that order, each built from the answer to the one before, logs no
    error, and leaves exactly one more listener on the client, the
    dispatcher for the id of the spec. *)
Theorem subscribe_establishes
        (env : Env) (w : World) (resolve_path : string -> string -> string)
        (root : string) (spec : subscription_spec) (callback : event -> Prog unit)
        (project_props clock_props ack_props : list (string * jsval)) :
  let p := resolve_path root (path spec) in
  let watch := lookup "watch" project_props in
  let since := lookup "clock" clock_props in
  let relative_root := lookup "relative_path" project_props in
  let result := run env (subscribe resolve_path root spec callback) w in
  (forall n, answer_command env n (watch_command p) = (None, VObj project_props)) ->
  (forall n, answer_command env n (clock_command watch) = (None, VObj clock_props)) ->
  (forall n, answer_command env n (subscribe_command watch spec since relative_root)
             = (None, VObj ack_props)) ->
  fst result = Done tt /\
  requests (added env (subscribe resolve_path root spec callback) w)
  = [ORequest (watch_command p); ORequest (clock_command watch);
     ORequest (subscribe_command watch spec since relative_root)] /\
  listeners (snd result) = listeners w ++ [dispatcher (id spec) callback] /\
  error_lines (added env (subscribe resolve_path root spec callback) w) = [] /\
  disk (snd result) = disk w.
Proof.
  intros p watch since relative_root result Hwatch Hclock Hack.
  assert (Hrun : exists t,
             run env (subscribe resolve_path root spec callback) w
             = (Done tt,
                mkWorld (trace w ++ t)
                        (listeners w ++ [dispatcher (id spec) callback]) (disk w)
                        (pending w)) /\
             requests t
             = [ORequest (watch_command p); ORequest (clock_command watch);
                ORequest (subscribe_command watch spec since relative_root)] /\
             error_lines t = []).
  { eexists. split.
    - unfold subscribe. fold p.
      rewrite run_bind, (run_watchProject_answered env w p (Hwatch _)).
      cbn [prop lift bind]. fold watch. cbn [run].
      fold (clock_command watch). rewrite Hclock.
      unfold on_clock. cbn [prop lift bind log_if_error]. fold since relative_root.
      cbn [run]. fold (merged_config spec since relative_root).
      fold (subscribe_command watch spec since relative_root). rewrite Hack.
      unfold on_subscribed. cbn [prop lift bind log_if_error run].
      unfold add_listener, observe, extend. cbn [trace listeners disk].
      rewrite <- !List.app_assoc. reflexivity.
    - destruct (has_key "warning" project_props); split; reflexivity. }
  destruct Hrun as (t & Hrun & Hrequests & Herrors).
  assert (Hadded : added env (subscribe resolve_path root spec callback) w = t)
    by (apply added_extend; now rewrite Hrun).
  subst result. rewrite Hadded, Hrun. repeat split; assumption.
Qed.

Lemma subscribe_establishes_witness :
  listeners (snd (run calm_env
                      (subscribe join_paths "/repo/" SUBSCRIPTIONS_graph
                                 (graphHandler sample_query))
                      empty_world))
  = [dispatcher "graph" (graphHandler sample_query)].
Proof.
  destruct (@subscribe_establishes
              calm_env empty_world join_paths "/repo/" SUBSCRIPTIONS_graph
              (graphHandler sample_query)
              [("version", VStr "4.9.0"); ("watch", VStr "/repo");
               ("watcher", VStr "inotify"); ("relative_path", VStr "app")]
              [("clock", VStr "c:1:2")] [("subscribe", VStr "graph")])
    as (_ & _ & H & _); try (intros n; reflexivity).
  exact H.
Defined.

(** ** Emitting to any number of subscriptions *)

(** X8: An event whose id no subscription has is dropped: no handler runs
    and nothing is logged. *)
Theorem unmatched_event_is_dropped
        (env : Env) (w : World) (subs : list (string * (event -> Prog unit)))
        (ev : event) :
  (forall s, In s subs -> fst s <> subscription ev) ->
  run env (emit_to (dispatchers subs) ev) w = (Done tt, w).
Proof.
  induction subs as [| s subs IH]; intros H; [reflexivity|].
  cbn [dispatchers map emit_to]. rewrite run_bind, run_dispatcher_other.
  - apply IH. intros s' Hs'. apply H. now right.
  - intros E. apply (H s); [now left | now symmetry].
Qed.

Lemma unmatched_event_is_dropped_witness :
  run calm_env
      (emit_to (dispatchers [("graph", heard "A"); ("frontend", heard "B")])
               stray_event)
      empty_world
  = (Done tt, empty_world).
Proof.
  apply unmatched_event_is_dropped.
  intros s [<- | [<- | []]]; discriminate.
Defined.

(** Starting a task takes nothing out of the parked ones. *)
Lemma start_keeps_pending {A : Type} (env : Env) (p : Prog A) (w : World) :
  exists tasks, pending (snd (start env p w)) = pending w ++ tasks.
Proof.
  revert w.
  induction p as [A a | A e | A l a k IH | A c cb IH | A h _ k IH | A k IH
                 | A k IH | A s | A req k IH | A pa co k IH | A c k IH
                 | A t IHt k IH];
    intros w; simpl.
  - exists []. now rewrite List.app_nil_r.
  - exists []. now rewrite List.app_nil_r.
  - apply (IH (observe (OLog (LogEntry l a)) w)).
  - destruct (answer_command env (List.length (trace w)) c) as [e r].
    exists []. simpl. now rewrite List.app_nil_r.
  - apply (IH (add_listener h w)).
  - apply (IH (observe OEnd w)).
  - apply (IH (observe OConsole w)).
  - exists []. simpl. now rewrite List.app_nil_r.
  - exists []. simpl. now rewrite List.app_nil_r.
  - exists []. destruct (answer_write env (List.length (trace w)) pa co);
      simpl; now rewrite List.app_nil_r.
  - exists []. simpl. now rewrite List.app_nil_r.
  - destruct (IHt w) as [t1 H1].
    destruct (start env t w) as [[a | rest | s] w']; cbn [snd] in H1.
    + destruct (IH w') as [t2 H2]. rewrite H2, H1, <- List.app_assoc. eauto.
    + destruct (IH (park rest w')) as [t2 H2].
      rewrite H2. cbn [park pending]. rewrite H1, <- !List.app_assoc. eauto.
    + cbn [snd]. eauto.
Qed.

(** X9: Ids are not checked for uniqueness, and callbacks are not
    awaited: when two dispatchers were registered under the same id, a
    batch with that id is announced twice and both callbacks are
    called, in the order of registration.  The second one is called
    while the first is waiting: when the emit returns, what remains of
    the first is still parked, next to what remains of the second. *)
Theorem same_id_twice_runs_both
        (env : Env) (w : World) (i : string) (f g : event -> Prog unit)
        (ev : event) (rest_f rest_g : Prog unit) (w1 w2 : World) :
  subscription ev = i -> files ev <> None ->
  start env (f ev) (extend (announced ev) w) = (Pending rest_f, w1) ->
  start env (g ev) (extend (announced ev) (park rest_f w1)) = (Pending rest_g, w2) ->
  run env (emit_to [dispatcher i f; dispatcher i g] ev) w
  = (Done tt, park rest_g w2) /\
  exists between,
    pending (park rest_g w2) = pending w1 ++ [rest_f] ++ between ++ [rest_g].
Proof.
  intros Hi Hfiles Hf Hg. split.
  - cbn [emit_to].
    rewrite run_bind, run_dispatcher_same, run_call, Hf by assumption.
    rewrite run_then_done, run_dispatcher_same, run_call, Hg by assumption.
    reflexivity.
  - destruct (start_keeps_pending env (g ev) (extend (announced ev) (park rest_f w1)))
      as [between H].
    rewrite Hg in H. cbn [snd extend park pending] in H.
    exists between. cbn [park pending]. rewrite H.
    now rewrite <- !List.app_assoc.
Qed.

Lemma same_id_twice_runs_both_witness :
  exists rest_f rest_g,
    run calm_env
        (emit_to [dispatcher "frontend" frontendHandler;
                  dispatcher "frontend" frontendHandler] frontend_event)
        empty_world
    = (Done tt,
       mkWorld (announced frontend_event ++ compile_started
                  ++ announced frontend_event ++ compile_started)
               [] (fun _ => None) [rest_f; rest_g]).
Proof.
  destruct (start_compile calm_env (extend (announced frontend_event) empty_world))
    as [rest_f Hf].
  destruct (start_compile calm_env
              (extend (announced frontend_event)
                      (park rest_f
                            (extend compile_started
                                    (extend (announced frontend_event) empty_world)))))
    as [rest_g Hg].
  exists rest_f, rest_g.
  destruct (@same_id_twice_runs_both calm_env empty_world "frontend"
              frontendHandler frontendHandler frontend_event rest_f rest_g _ _
              eq_refl ltac:(discriminate) Hf Hg) as [H _].
  exact H.
Defined.

Lemma listeners_run_sync (env : Env) (query : string) (w : World) :
  listeners (snd (run env (syncGraphqlSchemaToDisk query) w)) = listeners w.
Proof.
  rewrite run_sync. destruct (sync_view_of _); [reflexivity|].
  now destruct (answer_write env _ _ _).
Qed.







(** ** The schema synchronizer on its other paths *)

Lemma actions_sync (env : Env) (query : string) (w : World) :
  actions (added env (syncGraphqlSchemaToDisk query) w) = [OFetch (sync_request query)]
  \/ exists content,
      actions (added env (syncGraphqlSchemaToDisk query) w)
      = [OFetch (sync_request query); OWrite SCHEMA_PATH content].
Proof.
  destruct (sync_view_of (answer_fetch env (S (List.length (trace w)))
                                       (sync_request query)))
    as [entry | content] eqn:Hview.
  - left. destruct (added_sync_failure env query w Hview) as [-> _]. reflexivity.
  - right. exists content.
    destruct (answer_write env (S (S (List.length (trace w)))) SCHEMA_PATH content)
      as [| e left_on_disk] eqn:Hwrite;
      (erewrite added_extend;
       [|rewrite run_sync, Hview, Hwrite; simpl;
         rewrite <- !List.app_assoc; reflexivity]);
      reflexivity.
Qed.

Lemma disk_run_sync_elsewhere (env : Env) (query : string) (w : World) (p : string) :
  p <> SCHEMA_PATH ->
  disk (snd (run env (syncGraphqlSchemaToDisk query) w)) p = disk w p.
Proof.
  intros Hp. apply String.eqb_neq in Hp. rewrite run_sync.
  destruct (sync_view_of _); [reflexivity|].
  destruct (answer_write env _ _ _); unfold observe, store; cbn [snd disk];
    now rewrite Hp.
Qed.

(** X11: Whatever the endpoint and the file system answer, one run of the
    synchronizer sends exactly one request, the POST of the
    introspection query, and issues at most one write, to the snapshot
    path; it sends nothing to Watchman, starts no subprocess, and no
    file other than the snapshot changes. *)
Theorem sync_touches_only_the_snapshot (env : Env) (query : string) (w : World) :
  (actions (added env (syncGraphqlSchemaToDisk query) w)
   = [OFetch (sync_request query)]
   \/ exists content,
       actions (added env (syncGraphqlSchemaToDisk query) w)
       = [OFetch (sync_request query); OWrite SCHEMA_PATH content]) /\
  method (sync_request query) = "POST" /\
  url (sync_request query) = endpoint /\
  (forall p, p <> SCHEMA_PATH ->
             disk (snd (run env (syncGraphqlSchemaToDisk query) w)) p = disk w p) /\
  listeners (snd (run env (syncGraphqlSchemaToDisk query) w)) = listeners w.
Proof.
  split; [apply actions_sync|]. split; [reflexivity|]. split; [reflexivity|].
  split; [intros p Hp; now apply disk_run_sync_elsewhere | apply listeners_run_sync].
Qed.

Lemma sync_touches_only_the_snapshot_witness :
  disk (snd (run schema_env (syncGraphqlSchemaToDisk sample_query) synced_world))
       "app/graph/other.json"
  = None.
Proof.
  destruct (sync_touches_only_the_snapshot schema_env sample_query synced_world)
    as (_ & _ & _ & H & _).
  rewrite H; [reflexivity | discriminate].
Defined.

(** X12: The body of the request is JSON for [{ query }]: parsing it gives
    the query text back, whatever characters the query holds. *)
Theorem sync_request_carries_the_query (query : string) :
  exists sent,
    body (sync_request query) = Some sent /\
    JSON_parse sent = Some (VObj [("query", VStr query)]) /\
    headers (sync_request query)
    = [("Content-Type", "application/json"); ("Authorization", "Bearer test")].
Proof.
  unfold sync_request. cbn [body headers].
  destruct (JSON_stringify (VObj [("query", VStr query)]) 0) as [sent |] eqn:E;
    [|discriminate].
  exists sent. repeat split.
  now apply JSON_parse_stringify with (space := 0%nat).
Qed.

Lemma run_sync_written (env : Env) (query : string) (w : World)
      (r : http_response) (parsed data errors : jsval) :
  answer_fetch env (S (List.length (trace w))) (sync_request query)
  = FetchResolved r ->
  ok r = true -> json r = JsonParsed parsed ->
  prop "data" parsed = inr data -> prop "errors" parsed = inr errors ->
  truthy errors = false ->
  answer_write env (S (S (List.length (trace w)))) SCHEMA_PATH (snapshot_of data)
  = WriteOk ->
  run env (syncGraphqlSchemaToDisk query) w
  = (Done tt,
     observe sync_finished
       (store SCHEMA_PATH (Some (snapshot_of data))
          (extend (sync_started query ++ [OWrite SCHEMA_PATH (snapshot_of data)]) w))).
Proof.
  intros Hfetch Hok Hjson Hdata Herrors Hfalsy Hwrite.
  rewrite run_sync, Hfetch. unfold sync_view_of.
  rewrite Hok, Hjson, Hdata, Herrors, Hfalsy. now rewrite Hwrite.
Qed.

(** X13: A success body without a [data] property still counts as a
    success: when its [errors] is absent or falsy, the snapshot file is
    overwritten with the text of the empty object and the
    synchronization is logged as done. *)
Theorem sync_without_data_writes_empty_object
        (env : Env) (query : string) (w : World) (r : http_response)
        (props : list (string * jsval)) :
  answer_fetch env (S (List.length (trace w))) (sync_request query)
  = FetchResolved r ->
  ok r = true -> json r = JsonParsed (VObj props) ->
  has_key "data" props = false ->
  truthy (lookup "errors" props) = false ->
  answer_write env (S (S (List.length (trace w)))) SCHEMA_PATH empty_object_text
  = WriteOk ->
  fst (run env (syncGraphqlSchemaToDisk query) w) = Done tt /\
  disk (snd (run env (syncGraphqlSchemaToDisk query) w)) SCHEMA_PATH
  = Some empty_object_text /\
  JSON_parse empty_object_text = Some (VObj []) /\
  added env (syncGraphqlSchemaToDisk query) w
  = sync_started query ++ [OWrite SCHEMA_PATH empty_object_text; sync_finished].
Proof.
  intros Hfetch Hok Hjson Hdata Herrors Hwrite.
  assert (Hrun := @run_sync_written env query w r (VObj props) VUndef
                    (lookup "errors" props) Hfetch Hok Hjson).
  cbn [prop] in Hrun. rewrite (lookup_absent _ _ Hdata) in Hrun.
  specialize (Hrun eq_refl eq_refl Herrors Hwrite).
  split; [now rewrite Hrun|]. split; [now rewrite Hrun|]. split; [reflexivity|].
  apply added_extend. rewrite Hrun. simpl. now rewrite <- !List.app_assoc.
Qed.

Lemma sync_without_data_writes_empty_object_witness :
  disk (snd (run dataless_env (syncGraphqlSchemaToDisk sample_query) synced_world))
       SCHEMA_PATH
  = Some empty_object_text.
Proof.
  apply (@sync_without_data_writes_empty_object
           dataless_env sample_query synced_world
           (HttpResponse true 200 (JsonParsed (VObj [("message", VStr "hello")])))
           [("message", VStr "hello")]); reflexivity.
Defined.

(** X14: A success status with the body [null] is a failure of its own: the
    destructuring of the body throws, the TypeError is caught and
    logged, nothing is written and the promise fulfils. *)
Theorem sync_of_null_body_is_logged
        (env : Env) (query : string) (w : World) (r : http_response) :
  answer_fetch env (S (List.length (trace w))) (sync_request query)
  = FetchResolved r ->
  ok r = true -> json r = JsonParsed VNull ->
  run env (syncGraphqlSchemaToDisk query) w
  = (Done tt,
     extend (sync_started query ++ [OLog (error_reported (TypeError "data"))]) w).
Proof.
  intros Hfetch Hok Hjson. rewrite run_sync, Hfetch. unfold sync_view_of.
  now rewrite Hok, Hjson.
Qed.

Lemma sync_of_null_body_is_logged_witness :
  disk (snd (run null_body_env (syncGraphqlSchemaToDisk sample_query) synced_world))
       SCHEMA_PATH
  = Some old_snapshot.
Proof.
  rewrite (@sync_of_null_body_is_logged
             null_body_env sample_query synced_world
             (HttpResponse true 200 (JsonParsed VNull)) eq_refl eq_refl eq_refl).
  reflexivity.
Defined.

(** X15: Synchronizing is idempotent on the disk: when the endpoint gives
    the same successful answer again and the writes go through, a second
    run writes the same content again and leaves every file as the first
    run left it. *)
Theorem sync_is_idempotent
        (env : Env) (query : string) (w : World) (r : http_response)
        (props : list (string * jsval)) :
  (forall n, answer_fetch env n (sync_request query) = FetchResolved r) ->
  ok r = true -> json r = JsonParsed (VObj props) ->
  truthy (lookup "errors" props) = false ->
  (forall n content, answer_write env n SCHEMA_PATH content = WriteOk) ->
  let once := snd (run env (syncGraphqlSchemaToDisk query) w) in
  let twice := snd (run env (syncGraphqlSchemaToDisk query) once) in
  filter is_write (added env (syncGraphqlSchemaToDisk query) once)
  = filter is_write (added env (syncGraphqlSchemaToDisk query) w) /\
  forall p, disk twice p = disk once p.
Proof.
  intros Hfetch Hok Hjson Herrors Hwrite once twice.
  assert (Hrun : forall w0,
             run env (syncGraphqlSchemaToDisk query) w0
             = (Done tt,
                observe sync_finished
                  (store SCHEMA_PATH (Some (snapshot_of (lookup "data" props)))
                     (extend (sync_started query
                                ++ [OWrite SCHEMA_PATH
                                           (snapshot_of (lookup "data" props))]) w0)))).
  { intros w0.
    apply (@run_sync_written env query w0 r (VObj props) (lookup "data" props)
             (lookup "errors" props)); auto. }
  assert (Hadded : forall w0,
             added env (syncGraphqlSchemaToDisk query) w0
             = sync_started query
                 ++ [OWrite SCHEMA_PATH (snapshot_of (lookup "data" props));
                     sync_finished]).
  { intros w0. apply added_extend. rewrite Hrun. simpl.
    now rewrite <- !List.app_assoc. }
  subst twice once. split.
  - now rewrite !Hadded.
  - rewrite !Hrun. unfold observe, store, extend. cbn [snd disk].
    intros p. now destruct (String.eqb p SCHEMA_PATH).
Qed.

Lemma sync_is_idempotent_witness :
  let once := snd (run schema_env (syncGraphqlSchemaToDisk sample_query) empty_world) in
  disk (snd (run schema_env (syncGraphqlSchemaToDisk sample_query) once)) SCHEMA_PATH
  = disk once SCHEMA_PATH.
Proof.
  intros once.
  exact (proj2 (@sync_is_idempotent
                  schema_env sample_query empty_world
                  (HttpResponse true 200 (JsonParsed (VObj [("data", sample_schema)])))
                  [("data", sample_schema)]
                  (fun _ => eq_refl) eq_refl eq_refl eq_refl (fun _ _ => eq_refl))
               SCHEMA_PATH).
Defined.

(** ** Starting up *)

Lemma added_compile_logs (env : Env) (w : World) :
  exists logged,
    added env compileRelayGeneratedArtifacts w = compile_started ++ logged /\
    actions logged = [].
Proof.
  eexists. split.
  - apply added_extend. rewrite run_compile. reflexivity.
  - destruct (answer_exec env _ _) as [out err | e];
      [|destruct (code_is_not_zero (code e))];
      try reflexivity; apply actions_logged_lines_from.
Qed.

Lemma added_sync_seen (env : Env) (query : string) (w : World) :
  exists seen,
    added env (syncGraphqlSchemaToDisk query) w = sync_started query ++ seen /\
    filter is_fetch seen = [] /\ filter is_exec seen = [] /\ requests seen = [].
Proof.
  destruct (sync_view_of (answer_fetch env (S (List.length (trace w)))
                                       (sync_request query)))
    as [entry | content] eqn:Hview.
  - exists [OLog entry]. split; [|now repeat split].
    now destruct (added_sync_failure env query w Hview).
  - destruct (answer_write env (S (S (List.length (trace w)))) SCHEMA_PATH content)
      as [| e left_on_disk] eqn:Hwrite;
      eexists; (split; [|repeat split]);
      try (apply added_extend; rewrite run_sync, Hview, Hwrite; simpl;
           rewrite <- !List.app_assoc; reflexivity);
      reflexivity.
Qed.

Lemma run_bind_done {B : Type} (env : Env) (p : Prog unit) (f : unit -> Prog B)
      (w : World) :
  fst (run env p w) = Done tt ->
  run env (bind p f) w = run env (f tt) (snd (run env p w)).
Proof.
  intros H. rewrite run_bind. destruct (run env p w) as [o w']. simpl in *.
  now subst o.
Qed.

Lemma run_sync_done (env : Env) (query : string) (w : World) :
  fst (run env (syncGraphqlSchemaToDisk query) w) = Done tt.
Proof. now rewrite run_sync. Qed.

Lemma run_compile_done (env : Env) (w : World) :
  fst (run env compileRelayGeneratedArtifacts w) = Done tt.
Proof. now rewrite run_compile. Qed.

(** X16: When the capability check succeeds, [start] runs the pipeline once
    before it turns to the subscriptions: after the check it logs the
    version, runs the schema synchronizer to its end, then the code
    generator, then announces the subscriptions.  Up to that point the
    capability check is the only request sent to Watchman and no
    listener is registered. *)
Theorem start_runs_the_pipeline_first
        (env : Env) (query : string) (w : World) (props : list (string * jsval)) :
  answer_command env (List.length (trace w)) probe_command = (None, VObj props) ->
  fst (run env (start_sequence query) w) = Done tt /\
  listeners (snd (run env (start_sequence query) w)) = listeners w /\
  exists synced compiled,
    added env (start_sequence query) w
    = [ORequest probe_command; start_announced (lookup "version" props)]
        ++ (sync_started query ++ synced)
        ++ (compile_started ++ compiled)
        ++ [subscriptions_announced] /\
    filter is_fetch synced = [] /\ filter is_exec synced = [] /\
    requests synced = [] /\ actions compiled = [].
Proof.
  intros Hprobe.
  set (w0 := extend [ORequest probe_command; start_announced (lookup "version" props)] w).
  set (w1 := snd (run env (syncGraphqlSchemaToDisk query) w0)).
  set (w2 := snd (run env compileRelayGeneratedArtifacts w1)).
  assert (Hrun : run env (start_sequence query) w
                 = (Done tt, observe subscriptions_announced w2)).
  { unfold start_sequence. rewrite run_bind, run_checkCapability, Hprobe.
    cbn [prop lift bind run]. rewrite !observe_extend, extend_extend.
    cbn [app]. fold (start_announced (lookup "version" props)). fold w0.
    rewrite run_bind_done by apply run_sync_done. fold w1.
    rewrite run_bind_done by apply run_compile_done. fold w2.
    reflexivity. }
  split; [now rewrite Hrun|]. split.
  - rewrite Hrun. cbn [snd observe listeners]. unfold w2.
    rewrite run_compile. cbn [snd extend listeners]. unfold w1.
    now rewrite listeners_run_sync.
  - destruct (added_sync_seen env query w0) as (synced & Hs & Hs1 & Hs2 & Hs3).
    destruct (added_compile_logs env w1) as (compiled & Hc & Hc1).
    exists synced, compiled. repeat split; auto.
    apply added_extend. rewrite Hrun. cbn [snd observe trace].
    unfold w2. rewrite run_extends, Hc. unfold w1.
    rewrite run_extends, Hs. unfold w0. rewrite trace_extend.
    now rewrite <- !List.app_assoc.
Qed.

Lemma start_runs_the_pipeline_first_witness :
  fst (run unreachable_env (start_sequence sample_query) empty_world) = Done tt /\
  listeners (snd (run unreachable_env (start_sequence sample_query) empty_world)) = [].
Proof.
  destruct (@start_runs_the_pipeline_first unreachable_env sample_query empty_world
              _ eq_refl) as (Hdone & Hlisteners & _).
  split; [exact Hdone | exact Hlisteners].
Defined.

(** X17: When the capability check fails, [start] stops there: the error is
    logged, the connection closed and the process exits with status 1.
    Nothing else has happened: no schema was fetched, no compiler
    started, no watch or subscription requested. *)
Theorem start_stops_at_a_failed_capability_check
        (env : Env) (query : string) (w : World) (e : exn) (r : jsval) :
  answer_command env (List.length (trace w)) probe_command = (Some e, r) ->
  run env (start_sequence query) w
  = (Exited 1,
     extend [ORequest probe_command; OLog (error_reported e); OEnd; OExit 1] w).
Proof.
  intros H. unfold start_sequence. rewrite run_bind, run_checkCapability, H.
  now rewrite !observe_extend, !extend_extend.
Qed.

Lemma start_stops_at_a_failed_capability_check_witness :
  fst (run failing_env (start_sequence sample_query) empty_world) = Exited 1.
Proof.
  rewrite (@start_stops_at_a_failed_capability_check
             failing_env sample_query empty_world
             (ServiceError "unable to resolve root") VUndef eq_refl).
  reflexivity.
Defined.

(** ** What the callbacks of a subscription can come to *)

Lemma prop_throws_TypeError (k : string) (v : jsval) (e : exn) :
  prop k v = inl e -> e = TypeError k.
Proof. destruct v; simpl; congruence. Qed.

(** X18: The clock callback has two outcomes and never asks twice.
    Whatever it is called with and whatever Watchman answers to the
    subscribe request, it either completes, with exactly one more
    listener on the client, or a TypeError escapes it, with no listener
    added; either way it has sent at most one request and has not
    called [process.exit].  The TypeError is what happens whenever the
    callback is called without a response, and then before anything is
    logged or sent.  An exception that escapes this callback is an
    uncaught one. *)
Theorem clock_callback_outcomes
        (env : Env) (w : World) (project watch : jsval) (spec : subscription_spec)
        (callback : event -> Prog unit) (error : option exn) (response : jsval) :
  let result := run env (on_clock project watch spec callback error response) w in
  let seen := added env (on_clock project watch spec callback error response) w in
  ((fst result = Done tt /\
    listeners (snd result) = listeners w ++ [dispatcher (id spec) callback])
   \/
   (exists k, fst result = Uncaught (TypeError k) /\
              listeners (snd result) = listeners w)) /\
  (List.length (requests seen) <= 1)%nat /\
  (response = VUndef \/ response = VNull ->
   result = (Uncaught (TypeError "clock"), w)).
Proof.
  intros result seen. subst result seen. cbv beta.
  apply and_assoc. split.
  2: { intros [-> | ->]; reflexivity. }
  unfold added.
  unfold on_clock, on_subscribed.
  destruct (prop "clock" response) as [e1 | since] eqn:E1; cbn [lift bind].
  { apply prop_throws_TypeError in E1. subst e1. cbn [run fst snd].
    rewrite skipn_all. split; [right; eauto | simpl; lia]. }
  destruct (prop "relative_path" project) as [e2 | rel] eqn:E2.
  { apply prop_throws_TypeError in E2. subst e2.
    destruct error; cbn [log_if_error lift bind run fst snd observe trace listeners];
      rewrite ?skipn_app, ?skipn_all, ?Nat.sub_diag;
      (split; [right; eauto | simpl; lia]). }
  assert (Hskip : forall (t : list obs),
             skipn (List.length (trace w)) (trace w ++ t) = t).
  { intros t. now rewrite skipn_app, skipn_all, Nat.sub_diag. }
  destruct error as [e |]; cbn [log_if_error lift bind run];
    destruct (answer_command env _ _) as [[e' |] r'];
    destruct (prop "subscribe" r') as [e3 | sub] eqn:E3;
    try (apply prop_throws_TypeError in E3; subst e3);
    cbn [log_if_error lift bind run fst snd observe add_listener trace listeners];
    rewrite <- ?List.app_assoc, Hskip;
    (split; [first [left; split; reflexivity | right; eauto] | simpl; lia]).
Qed.

Lemma clock_callback_outcomes_witness :
  run clock_failing_env
      (on_clock sample_watch (VStr "/repo") SUBSCRIPTIONS_graph
                (graphHandler sample_query)
                (Some (ServiceError "clock failed")) VUndef)
      empty_world
  = (Uncaught (TypeError "clock"), empty_world).
Proof.
  pose proof (clock_callback_outcomes clock_failing_env empty_world sample_watch
                (VStr "/repo") SUBSCRIPTIONS_graph (graphHandler sample_query)
                (Some (ServiceError "clock failed")) VUndef) as H.
  cbv zeta in H. destruct H as (_ & _ & H). apply H. now left.
Defined.

(** * The shortcode parser *)

Lemma span_split (s run rest : Emoji.jsstring) :
  Emoji.span s = (run, rest) -> s = run ++ rest.
Proof.
  revert run rest. induction s as [|c s IH]; intros run rest H; simpl in H.
  - now inversion H.
  - destruct (Emoji.name_unit c).
    + destruct (Emoji.span s) as [run' rest'] eqn:E.
      inversion H; subst. simpl. f_equal. now apply IH.
    + now inversion H.
Qed.

Lemma match_here_split (s m behind : Emoji.jsstring) :
  Emoji.match_here s = Some (m, behind) ->
  s = m ++ behind /\ (List.length behind < List.length s)%nat.
Proof.
  destruct s as [|c s]; simpl; [discriminate|].
  destruct (c =? Emoji.COLON)%N eqn:Ec; [|discriminate].
  apply N.eqb_eq in Ec. subst c.
  destruct (Emoji.span s) as [run rest] eqn:E.
  apply span_split in E. subst s.
  destruct run as [|r run]; [discriminate|].
  destruct rest as [|c' rest]; [discriminate|].
  destruct (c' =? Emoji.COLON)%N eqn:Ec'; [|discriminate].
  apply N.eqb_eq in Ec'. subst c'.
  intros H. inversion H; subst. split.
  - simpl. f_equal. f_equal. now rewrite <- List.app_assoc.
  - simpl. rewrite length_app. simpl. lia.
Qed.

Lemma all_matches_fuel (f f' : nat) (s : Emoji.jsstring) :
  (List.length s <= f)%nat -> (List.length s <= f')%nat ->
  Emoji.all_matches f s = Emoji.all_matches f' s.
Proof.
  revert f' s. induction f as [|f IH]; intros f' s Hf Hf'.
  - destruct s; [|simpl in Hf; lia]. now destruct f'.
  - destruct f' as [|f']; [destruct s; [reflexivity | simpl in Hf'; lia]|].
    destruct s as [|c s]; [reflexivity|].
    cbn [Emoji.all_matches].
    destruct (Emoji.match_here (c :: s)) as [[m behind]|] eqn:E.
    + apply match_here_split in E. destruct E as [_ Hlen].
      simpl in Hf, Hf', Hlen. f_equal. apply IH; lia.
    + simpl in Hf, Hf'. apply IH; lia.
Qed.

Lemma replace_matches_fuel (f f' : nat) (s : Emoji.jsstring) (q : list Emoji.jsstring) :
  (List.length s <= f)%nat -> (List.length s <= f')%nat ->
  Emoji.replace_matches f s q = Emoji.replace_matches f' s q.
Proof.
  revert f' s q. induction f as [|f IH]; intros f' s q Hf Hf'.
  - destruct s; [|simpl in Hf; lia]. now destruct f'.
  - destruct f' as [|f']; [destruct s; [reflexivity | simpl in Hf'; lia]|].
    destruct s as [|c s]; [reflexivity|].
    cbn [Emoji.replace_matches].
    destruct (Emoji.match_here (c :: s)) as [[m behind]|] eqn:E.
    + apply match_here_split in E. destruct E as [_ Hlen].
      simpl in Hf, Hf', Hlen. destruct (Emoji.shift q) as [x q'].
      f_equal. apply IH; lia.
    + simpl in Hf, Hf'. f_equal. apply IH; lia.
Qed.

(** Putting every match back gives the string back. *)
Lemma replace_matches_identity (f : nat) (s : Emoji.jsstring) :
  Emoji.replace_matches f s (Emoji.all_matches f s) = s.
Proof.
  revert s. induction f as [|f IH]; intros s; [reflexivity|].
  destruct s as [|c s]; [reflexivity|].
  cbn [Emoji.replace_matches Emoji.all_matches].
  destruct (Emoji.match_here (c :: s)) as [[m behind]|] eqn:E.
  - apply match_here_split in E. destruct E as [E _].
    cbn [Emoji.shift]. rewrite IH. now symmetry.
  - now rewrite IH.
Qed.

Lemma replacements_unknown (cat : Emoji.catalogue) (ms : list Emoji.jsstring) :
  (forall m, In m ms -> Emoji.index cat m = None) ->
  (forall m m', In m ms -> In m' ms -> Emoji.index cat (m ++ m') = None) ->
  Emoji.replacements cat ms = inr ms.
Proof.
  induction ms as [|m rest IH]; intros H1 H2; [reflexivity|].
  cbn [Emoji.replacements].
  rewrite (H1 m (or_introl eq_refl)).
  rewrite IH.
  - destruct rest as [|next rest']; [reflexivity|].
    now rewrite (H2 m next (or_introl eq_refl) (or_intror (or_introl eq_refl))).
  - intros k Hk. apply H1. now right.
  - intros k k' Hk Hk'. apply H2; now right.
Qed.

Lemma span_name (nm s : Emoji.jsstring) :
  forallb Emoji.name_unit nm = true ->
  Emoji.span (nm ++ Emoji.COLON :: s) = (nm, Emoji.COLON :: s).
Proof.
  induction nm as [|c nm IH]; intros H.
  - reflexivity.
  - simpl in H. apply andb_true_iff in H. destruct H as [Hc H].
    cbn [Emoji.span app]. rewrite Hc, (IH H). reflexivity.
Qed.

Lemma match_here_shortcode (m s : Emoji.jsstring) :
  Emoji.shortcode m -> Emoji.match_here (m ++ s) = Some (m, s).
Proof.
  intros (nm & Hne & Hnm & ->).
  cbn [app Emoji.match_here]. rewrite N.eqb_refl.
  rewrite <- List.app_assoc. cbn [app].
  rewrite (@span_name nm s Hnm).
  destruct nm as [|c nm]; [congruence|].
  now rewrite N.eqb_refl.
Qed.

Lemma shortcode_length (m : Emoji.jsstring) :
  Emoji.shortcode m -> exists c rest, m = c :: rest.
Proof. intros (nm & _ & _ & ->). eauto. Qed.

Lemma all_matches_shortcode (f : nat) (m s : Emoji.jsstring) :
  Emoji.shortcode m ->
  Emoji.all_matches (S f) (m ++ s) = m :: Emoji.all_matches f s.
Proof.
  intros Hm. cbn [Emoji.all_matches].
  rewrite (@match_here_shortcode m s Hm).
  destruct (shortcode_length Hm) as (c & rest & ->). reflexivity.
Qed.

Lemma replace_matches_shortcode (f : nat) (m s x : Emoji.jsstring)
      (q : list Emoji.jsstring) :
  Emoji.shortcode m ->
  Emoji.replace_matches (S f) (m ++ s) (x :: q) = x ++ Emoji.replace_matches f s q.
Proof.
  intros Hm. cbn [Emoji.replace_matches].
  rewrite (@match_here_shortcode m s Hm).
  destruct (shortcode_length Hm) as (c & rest & ->). reflexivity.
Qed.

Lemma all_matches_colon_free (pre s : Emoji.jsstring) (f : nat) :
  colon_free pre = true ->
  Emoji.all_matches (List.length pre + f) (pre ++ s) = Emoji.all_matches f s.
Proof.
  induction pre as [|c pre IH]; intros H; [reflexivity|].
  simpl in H. apply andb_true_iff in H. destruct H as [Hc H].
  apply negb_true_iff in Hc.
  cbn [List.length Nat.add app Emoji.all_matches Emoji.match_here].
  rewrite Hc. now apply IH.
Qed.

Lemma replace_matches_colon_free (pre s : Emoji.jsstring) (f : nat)
      (q : list Emoji.jsstring) :
  colon_free pre = true ->
  Emoji.replace_matches (List.length pre + f) (pre ++ s) q
  = pre ++ Emoji.replace_matches f s q.
Proof.
  induction pre as [|c pre IH]; intros H; [reflexivity|].
  simpl in H. apply andb_true_iff in H. destruct H as [Hc H].
  apply negb_true_iff in Hc.
  cbn [List.length Nat.add app Emoji.replace_matches Emoji.match_here].
  rewrite Hc. f_equal. now apply IH.
Qed.

Lemma all_matches_of_colon_free (post : Emoji.jsstring) (f : nat) :
  colon_free post = true -> Emoji.all_matches f post = [].
Proof.
  revert f. induction post as [|c post IH]; intros f H; [now destruct f|].
  simpl in H. apply andb_true_iff in H. destruct H as [Hc H].
  apply negb_true_iff in Hc.
  destruct f as [|f]; [reflexivity|].
  cbn [Emoji.all_matches Emoji.match_here]. rewrite Hc. now apply IH.
Qed.

Lemma replace_matches_of_colon_free (post : Emoji.jsstring) (f : nat)
      (q : list Emoji.jsstring) :
  colon_free post = true -> Emoji.replace_matches f post q = post.
Proof.
  revert f. induction post as [|c post IH]; intros f H; [now destruct f|].
  simpl in H. apply andb_true_iff in H. destruct H as [Hc H].
  apply negb_true_iff in Hc.
  destruct f as [|f]; [reflexivity|].
  cbn [Emoji.replace_matches Emoji.match_here]. rewrite Hc. f_equal. now apply IH.
Qed.

Lemma shortcodes_in_step (pre m rest : Emoji.jsstring) :
  colon_free pre = true -> Emoji.shortcode m ->
  shortcodes_in (pre ++ m ++ rest) = m :: shortcodes_in rest.
Proof.
  intros Hpre Hm. unfold shortcodes_in.
  rewrite (@all_matches_fuel (List.length (pre ++ m ++ rest))
             (List.length pre + S (List.length (m ++ rest))) (pre ++ m ++ rest)).
  - rewrite all_matches_colon_free, all_matches_shortcode by assumption.
    f_equal. apply all_matches_fuel; [rewrite length_app|]; lia.
  - lia.
  - rewrite !length_app. lia.
Qed.

Lemma replace_matches_step (pre m rest x : Emoji.jsstring) (q : list Emoji.jsstring) :
  colon_free pre = true -> Emoji.shortcode m ->
  Emoji.replace_matches (List.length (pre ++ m ++ rest)) (pre ++ m ++ rest) (x :: q)
  = pre ++ x ++ Emoji.replace_matches (List.length rest) rest q.
Proof.
  intros Hpre Hm.
  rewrite (@replace_matches_fuel (List.length (pre ++ m ++ rest))
             (List.length pre + S (List.length (m ++ rest))) (pre ++ m ++ rest)).
  - rewrite replace_matches_colon_free, replace_matches_shortcode by assumption.
    do 2 f_equal. apply replace_matches_fuel; [rewrite length_app|]; lia.
  - lia.
  - rewrite !length_app. lia.
Qed.

Lemma shortcodes_in_next (m rest : Emoji.jsstring) :
  Emoji.shortcode m -> shortcodes_in (m ++ rest) = m :: shortcodes_in rest.
Proof. exact (@shortcodes_in_step [] m rest eq_refl). Qed.

Lemma replace_matches_next (m rest x : Emoji.jsstring) (q : list Emoji.jsstring) :
  Emoji.shortcode m ->
  Emoji.replace_matches (List.length (m ++ rest)) (m ++ rest) (x :: q)
  = x ++ Emoji.replace_matches (List.length rest) rest q.
Proof. exact (@replace_matches_step [] m rest x q eq_refl). Qed.

Lemma shortcodes_in_colon_free (post : Emoji.jsstring) :
  colon_free post = true -> shortcodes_in post = [].
Proof. intros H. now apply all_matches_of_colon_free. Qed.


(** X19: a text none of whose shortcodes, alone or joined to another
    one of the text, is in the catalogue's index comes back from
    [_replace_colons] as it went in. *)
Theorem unknown_shortcodes_are_kept (cat : Emoji.catalogue) (s : Emoji.jsstring) :
  (forall m, In m (shortcodes_in s) -> Emoji.index cat m = None) ->
  (forall m m', In m (shortcodes_in s) -> In m' (shortcodes_in s) ->
                Emoji.index cat (m ++ m') = None) ->
  Emoji._replace_colons cat s = inr s.
Proof.
  intros H1 H2. unfold Emoji._replace_colons, Emoji.string_match.
  unfold shortcodes_in in H1, H2.
  destruct (Emoji.all_matches (List.length s) s) as [|m ms] eqn:E; [reflexivity|].
  rewrite (@replacements_unknown cat (m :: ms) H1 H2).
  rewrite <- E. now rewrite replace_matches_identity.
Qed.

Lemma unknown_shortcodes_are_kept_witness :
  Emoji._replace_colons Emoji.sample_catalogue
                        (Emoji.units "see :nope: and :later: at 10:30")
  = inr (Emoji.units "see :nope: and :later: at 10:30").
Proof.
  apply unknown_shortcodes_are_kept.
  - intros m Hm. vm_compute in Hm.
    destruct Hm as [<-|[<-|[]]]; reflexivity.
  - intros m m' Hm Hm'. vm_compute in Hm, Hm'.
    destruct Hm as [<-|[<-|[]]]; destruct Hm' as [<-|[<-|[]]]; reflexivity.
Defined.





(** X21: two adjacent shortcodes that together are a key of the
    catalogue's index are replaced by the single image of that entry,
    whatever the index holds for each of them alone. *)
Theorem modifier_pair_becomes_one_image
        (cat : Emoji.catalogue) (pre m1 m2 post : Emoji.jsstring)
        (i : Z) (e : Emoji.emoji) :
  colon_free pre = true -> Emoji.shortcode m1 -> Emoji.shortcode m2 ->
  colon_free post = true ->
  Emoji.index cat (m1 ++ m2) = Some i ->
  Emoji.emoji_at cat i = Some e ->
  exists img,
    Emoji._image cat (Some e) = inr img
    /\ Emoji._replace_colons cat (pre ++ m1 ++ m2 ++ post) = inr (pre ++ img ++ post).
Proof.
  intros Hpre H1 H2 Hpost Hi He.
  eexists. split; [reflexivity|].
  unfold Emoji._replace_colons, Emoji.string_match.
  change (Emoji.all_matches (List.length (pre ++ m1 ++ m2 ++ post))
                            (pre ++ m1 ++ m2 ++ post))
    with (shortcodes_in (pre ++ m1 ++ m2 ++ post)).
  rewrite (@shortcodes_in_step pre m1 (m2 ++ post) Hpre H1).
  rewrite (@shortcodes_in_next m2 post H2).
  rewrite (@shortcodes_in_colon_free post Hpost).
  cbn [Emoji.replacements]. rewrite Hi, He.
  cbn [Emoji._image].
  rewrite (@replace_matches_step pre m1 (m2 ++ post) _ _ Hpre H1).
  rewrite (@replace_matches_next m2 post _ _ H2).
  rewrite (@replace_matches_of_colon_free post _ _ Hpost).
  reflexivity.
Qed.

Lemma modifier_pair_becomes_one_image_witness :
  exists img,
    Emoji._image Emoji.sample_catalogue (Some Emoji.fist_dark) = inr img
    /\ Emoji._replace_colons Emoji.sample_catalogue
         (Emoji.units "go " ++ Emoji.units ":fist:" ++ Emoji.units ":skin-tone-6:"
                      ++ Emoji.units "!")
       = inr (Emoji.units "go " ++ img ++ Emoji.units "!").
Proof.
  apply (@modifier_pair_becomes_one_image Emoji.sample_catalogue _ _ _ _ 1).
  - reflexivity.
  - exists (Emoji.units "fist"). split; [discriminate | split; reflexivity].
  - exists (Emoji.units "skin-tone-6"). split; [discriminate | split; reflexivity].
  - reflexivity.
  - reflexivity.
  - reflexivity.
Defined.

(** X22: a shortcode whose index entry points outside the catalogue's
    emoji list makes [_replace_colons] throw a TypeError (from reading
    [image] of undefined) instead of leaving the shortcode in place. *)
Theorem dangling_index_throws
        (cat : Emoji.catalogue) (pre m post : Emoji.jsstring) (i : Z) :
  colon_free pre = true -> Emoji.shortcode m -> colon_free post = true ->
  Emoji.index cat m = Some i ->
  Emoji.emoji_at cat i = None ->
  Emoji._replace_colons cat (pre ++ m ++ post) = inl (TypeError "image").
Proof.
  intros Hpre Hm Hpost Hi He.
  unfold Emoji._replace_colons, Emoji.string_match.
  change (Emoji.all_matches (List.length (pre ++ m ++ post)) (pre ++ m ++ post))
    with (shortcodes_in (pre ++ m ++ post)).
  rewrite (@shortcodes_in_step pre m post Hpre Hm).
  rewrite (@shortcodes_in_colon_free post Hpost).
  cbn [Emoji.replacements]. now rewrite Hi, He.
Qed.

Lemma dangling_index_throws_witness :
  Emoji._replace_colons Emoji.sample_catalogue
                        (Emoji.units "a " ++ Emoji.units ":ghost:" ++ Emoji.units " b")
  = inl (TypeError "image").
Proof.
  apply (@dangling_index_throws Emoji.sample_catalogue _ _ _ 7).
  - reflexivity.
  - exists (Emoji.units "ghost"). split; [discriminate | split; reflexivity].
  - reflexivity.
  - reflexivity.
  - reflexivity.
Defined.

(** X23: a lone shortcode that the catalogue knows is replaced by the
    image of its entry, and the text around it is kept. *)
Theorem known_shortcode_becomes_its_image
        (cat : Emoji.catalogue) (pre m post : Emoji.jsstring)
        (i : Z) (e : Emoji.emoji) :
  colon_free pre = true -> Emoji.shortcode m -> colon_free post = true ->
  Emoji.index cat m = Some i ->
  Emoji.emoji_at cat i = Some e ->
  exists img,
    Emoji._image cat (Some e) = inr img
    /\ Emoji._replace_colons cat (pre ++ m ++ post) = inr (pre ++ img ++ post).
Proof.
  intros Hpre Hm Hpost Hi He.
  eexists. split; [reflexivity|].
  unfold Emoji._replace_colons, Emoji.string_match.
  change (Emoji.all_matches (List.length (pre ++ m ++ post)) (pre ++ m ++ post))
    with (shortcodes_in (pre ++ m ++ post)).
  rewrite (@shortcodes_in_step pre m post Hpre Hm).
  rewrite (@shortcodes_in_colon_free post Hpost).
  cbn [Emoji.replacements]. rewrite Hi, He.
  cbn [Emoji._image].
  rewrite (@replace_matches_step pre m post _ _ Hpre Hm).
  rewrite (@replace_matches_of_colon_free post _ _ Hpost).
  reflexivity.
Qed.

Lemma known_shortcode_becomes_its_image_witness :
  exists img,
    Emoji._image Emoji.sample_catalogue (Some Emoji.fist) = inr img
    /\ Emoji._replace_colons Emoji.sample_catalogue
         (Emoji.units "a " ++ Emoji.units ":fist:" ++ Emoji.units " b")
       = inr (Emoji.units "a " ++ img ++ Emoji.units " b").
Proof.
  apply (@known_shortcode_becomes_its_image Emoji.sample_catalogue _ _ _ 0).
  - reflexivity.
  - exists (Emoji.units "fist"). split; [discriminate | split; reflexivity].
  - reflexivity.
  - reflexivity.
  - reflexivity.
Defined.
